(** * Minesweeper AI: the knowledge base of [minesweeper.py]

    A shallow embedding of the classes [Sentence] and [MinesweeperAI],
    with the queries of the board class [Minesweeper] that give the
    observations, and the properties of their operations.  Python sets of cells are finite
    sets [gset Cell], Python integers are [Z], and the list of sentences
    is a [list] of records: every entry of [knowledge] is an object of
    its own (the constructor copies its cell set), so a list of values
    with a map over it models the in-place updates. *)

From stdpp Require Import gmap sets list.
From Stdlib Require Import ZArith Lia Ascii.

Open Scope Z_scope.
Set Warnings "-clear-no-such-hyp".

(** A cell is a pair (row, column) of Python integers. *)
Abbreviation Cell := (Z * Z)%type.

(** [range(lo, hi)] of Python. *)
Definition range (lo hi : Z) : list Z := seqZ lo (hi - lo).

(** ** class Minesweeper: the board *)
Module Minesweeper.

(** [board[i][j]] is [True] for the cells of [mines] and for no other:
    [__init__] sets the two together.  The record keeps the set. *)
Record t : Type := Minesweeper { height : Z; width : Z; mines : gset Cell }.

Definition board (self : t) (i j : Z) : bool :=
  bool_decide ((i, j) ∈ mines self).

Definition is_mine (cell : Cell) (self : t) : bool :=
  let '(i, j) := cell in board self i j.

(** The body of the two loops of [nearby_mines] for one cell [(i, j)]. *)
Definition visit_nearby (self : t) (cell : Cell) (count : Z) (ij : Cell) : Z :=
  let '(i, j) := ij in
  if decide ((i, j) = cell) then count
  else if decide (0 ≤ i ∧ i < height self ∧ 0 ≤ j ∧ j < width self) then
    if board self i j then count + 1 else count
  else count.

Definition nearby_mines (cell : Cell) (self : t) : Z :=
  foldl (λ count i,
           foldl (λ count j, visit_nearby self cell count (i, j))
                 count (range (cell.2 - 1) (cell.2 + 2)))
        0 (range (cell.1 - 1) (cell.1 + 2)).

End Minesweeper.

(** ** class Sentence *)
Module Sentence.

Record t : Type := Sentence { cells : gset Cell; count : Z }.

(** [__eq__]: equal cell sets and equal counts. *)
#[global] Instance eq_dec : EqDecision t.
Proof. solve_decision. Defined.

#[global] Instance countable : Countable t.
Proof.
  refine (inj_countable' (λ S, (cells S, count S)) (λ p, Sentence p.1 p.2) _).
  by intros [].
Defined.

(** [len(self.cells)] as a Python integer. *)
Definition len (s : gset Cell) : Z := Z.of_nat (size s).

Definition known_mines (self : t) : gset Cell :=
  if decide (len (cells self) = count self) then cells self else ∅.

Definition known_safes (self : t) : gset Cell :=
  if decide (count self = 0) then cells self else ∅.

Definition mark_mine (cell : Cell) (self : t) : t :=
  if decide (cell ∈ cells self)
  then Sentence (cells self ∖ {[cell]}) (count self - 1)
  else self.

Definition mark_safe (cell : Cell) (self : t) : t :=
  if decide (cell ∈ cells self)
  then Sentence (cells self ∖ {[cell]}) (count self)
  else self.

End Sentence.

Abbreviation Sentence := Sentence.Sentence.

(** ** class MinesweeperAI *)
Module MinesweeperAI.

Record t : Type := MinesweeperAI {
  height : Z;
  width : Z;
  moves_made : gset Cell;
  mines : gset Cell;
  safes : gset Cell;
  knowledge : list Sentence.t
}.

#[global] Instance eq_dec : EqDecision t.
Proof. solve_decision. Defined.

(** [__init__]: nothing known yet. *)
Definition init (height width : Z) : t :=
  MinesweeperAI height width ∅ ∅ ∅ [].

Definition set_moves_made (m : gset Cell) (self : t) : t :=
  MinesweeperAI (height self) (width self) m (mines self) (safes self)
                (knowledge self).

Definition set_knowledge (k : list Sentence.t) (self : t) : t :=
  MinesweeperAI (height self) (width self) (moves_made self) (mines self)
                (safes self) k.

Definition mark_mine (cell : Cell) (self : t) : t :=
  MinesweeperAI (height self) (width self) (moves_made self)
                ({[cell]} ∪ mines self) (safes self)
                (Sentence.mark_mine cell <$> knowledge self).

Definition mark_safe (cell : Cell) (self : t) : t :=
  MinesweeperAI (height self) (width self) (moves_made self)
                (mines self) ({[cell]} ∪ safes self)
                (Sentence.mark_safe cell <$> knowledge self).

(** The body of the two loops of [return_neighbors] for one candidate
    [(y, x)]: the accumulator is the pair (neighbors, mineCount). *)
Definition visit_neighbor (self : t) (cell : Cell) (acc : gset Cell * Z)
           (yx : Cell) : gset Cell * Z :=
  let '(i, j) := cell in
  let '(y, x) := yx in
  if decide (0 ≤ y ∧ y < height self ∧ 0 ≤ x ∧ x < width self
             ∧ (y, x) ≠ (i, j))
  then ({[(y, x)]} ∪ acc.1,
        if decide ((y, x) ∈ mines self) then acc.2 + 1 else acc.2)
  else acc.

Definition return_neighbors (cell : Cell) (self : t) : gset Cell * Z :=
  let '(i, j) := cell in
  foldl (λ acc y,
           foldl (λ acc x, visit_neighbor self cell acc (y, x))
                 acc (range (j - 1) (j + 2)))
        (∅, 0) (range (i - 1) (i + 2)).

(** Lines 198-204: the sentence about the undetermined neighbours of
    [cell], appended unless an equal sentence is already there. *)
Definition add_new_sentence (cell : Cell) (count : Z) (self : t) : t :=
  let '(allNeighbors, mineCount) := return_neighbors cell self in
  let unknownNeighbors := allNeighbors ∖ mines self ∖ safes self in
  if decide (unknownNeighbors ≠ ∅) then
    let newSentence := Sentence unknownNeighbors (count - mineCount) in
    if decide (newSentence ∉ knowledge self)
    then set_knowledge (knowledge self ++ [newSentence]) self
    else self
  else self.

(** [s in self.mines] for a set [s] of cells: Python looks for
    [frozenset(s)] among the elements, which are tuples, and a frozenset
    never equals a tuple. *)
Definition set_in (s among : gset Cell) : bool := false.

(** [for mine in mines: self.mark_mine(mine)] and its twin; a Python set
    is visited in an order of its own, here the one of [elements]
    (the outcome does not depend on it, see [mark_mines_perm]). *)
Definition mark_mines (l : list Cell) (self : t) : t :=
  foldl (λ acc mine, mark_mine mine acc) self l.

Definition mark_safes (l : list Cell) (self : t) : t :=
  foldl (λ acc safe, mark_safe safe acc) self l.

(** Lines 207-217, the body of the loop for the sentence at index [i].
    The sentence is read again after the mines are marked: it is the
    same object, changed in place by [mark_mine]. *)
Definition propagate_sentence (i : nat) (self : t) : t :=
  match knowledge self !! i with
  | None => self
  | Some sentence =>
      let mines := Sentence.known_mines sentence in
      let self :=
        if bool_decide (mines ≠ ∅) && negb (set_in mines (MinesweeperAI.mines self))
        then mark_mines (elements mines) self else self in
      match knowledge self !! i with
      | None => self
      | Some sentence =>
          let safes := Sentence.known_safes sentence in
          if bool_decide (safes ≠ ∅) && negb (set_in safes (MinesweeperAI.safes self))
          then mark_safes (elements safes) self else self
      end
  end.

(** The list keeps its length during this loop (see [length_mark_mines]
    and [length_mark_safes]), so the loop visits the indices below the
    length it starts with. *)
Definition propagate (self : t) : t :=
  foldl (λ acc i, propagate_sentence i acc) self
        (seq 0 (length (knowledge self))).

(** Lines 231-233. *)
Definition reduced (self : t) (sentence sentence2 : Sentence.t) : Sentence.t :=
  let deducedCells :=
    Sentence.cells sentence2 ∖ Sentence.cells sentence ∖ moves_made self in
  let deducedCount := Sentence.count sentence2 - Sentence.count sentence in
  Sentence deducedCells deducedCount.

(** Lines 223-235: the inner loop, at index [j].  The list grows while
    it is visited and the sentences appended are visited too, so the
    loop need not end (see [infer_diverges]): [None] is "out of fuel". *)
Fixpoint inner_loop (fuel : nat) (sentence : Sentence.t) (j : nat)
         (self : t) : option t :=
  match fuel with
  | O => None
  | S fuel =>
      match knowledge self !! j with
      | None => Some self
      | Some sentence2 =>
          if decide (sentence = sentence2)
          then inner_loop fuel sentence (S j) self
          else if decide (Sentence.len (Sentence.cells sentence2) ≠ 0) then
            if decide (Sentence.cells sentence ⊆ Sentence.cells sentence2) then
              let reducedSentence := reduced self sentence sentence2 in
              if decide (reducedSentence ∉ knowledge self)
              then inner_loop fuel sentence (S j)
                     (set_knowledge (knowledge self ++ [reducedSentence]) self)
              else inner_loop fuel sentence (S j) self
            else inner_loop fuel sentence (S j) self
          else inner_loop fuel sentence (S j) self
      end
  end.

(** Lines 220-235: the outer loop, at index [i]. *)
Fixpoint outer_loop (fuel : nat) (i : nat) (self : t) : option t :=
  match fuel with
  | O => None
  | S fuel =>
      match knowledge self !! i with
      | None => Some self
      | Some sentence =>
          if decide (Sentence.len (Sentence.cells sentence) ≠ 0) then
            match inner_loop fuel sentence 0 self with
            | None => None
            | Some self => outer_loop fuel (S i) self
            end
          else outer_loop fuel (S i) self
      end
  end.

Definition infer (fuel : nat) (self : t) : option t := outer_loop fuel 0 self.

(** Lines 190-204: everything before the two loops. *)
Definition observe (cell : Cell) (count : Z) (self : t) : t :=
  let self := set_moves_made ({[cell]} ∪ moves_made self) self in
  let self := mark_safe cell self in
  add_new_sentence cell count self.

Definition add_knowledge (fuel : nat) (cell : Cell) (count : Z) (self : t)
  : option t :=
  infer fuel (propagate (observe cell count self)).

(** The loop of [make_safe_move] over the safe cells in the order
    [order]. *)
Fixpoint make_safe_move_loop (order : list Cell) (self : t) : option Cell :=
  match order with
  | [] => None
  | safe :: order =>
      if decide (safe ∉ moves_made self) then Some safe
      else make_safe_move_loop order self
  end.

Definition make_safe_move (self : t) : option Cell :=
  make_safe_move_loop (elements (safes self)) self.

(** Lines 258-261. *)
Definition all_cells (self : t) : gset Cell :=
  foldl (λ acc i, foldl (λ acc j, {[(i, j)]} ∪ acc) acc (range 0 (width self)))
        ∅ (range 0 (height self)).

Definition remainingChoice (self : t) : gset Cell :=
  all_cells self ∖ moves_made self ∖ mines self.

(** What the program asks of the interpreter in [make_random_move]:
    [random.sample] lays a set out as a sequence up to Python 3.10, and
    refuses a set with TypeError from Python 3.11 on. *)
Inductive interpreter : Type :=
| SamplesSets
| RefusesSets.

(** The exceptions of [random.sample]. *)
Inductive exn : Type :=
| TypeError
| ValueError.

(** How a query ends: it returns a value or raises an exception. *)
Inductive answer (A : Type) : Type :=
| Returned (a : A)
| Raised (e : exn).
Arguments Returned {A} a.
Arguments Raised {A} e.

(** [random.sample(population, 1).pop()] for a set [population].  From
    Python 3.11 on the test that the population is a sequence comes first
    and fails.  Before, the set is laid out as a sequence, a sample
    larger than the population is a ValueError, and the element at a
    random position is taken; [r] is the draw. *)
Definition sample_one (py : interpreter) (r : nat) (population : gset Cell)
  : answer Cell :=
  match py with
  | RefusesSets => Raised TypeError
  | SamplesSets =>
      match elements population !! (r mod length (elements population))%nat with
      | Some c => Returned c
      | None => Raised ValueError
      end
  end.

(** Lines 265-269. *)
Definition make_random_move (py : interpreter) (r : nat) (self : t)
  : answer (option Cell) :=
  if decide (remainingChoice self ≠ ∅)
  then match sample_one py r (remainingChoice self) with
       | Returned c => Returned (Some c)
       | Raised e => Raised e
       end
  else Returned None.

(** The calls a runner can make on the agent, and a sequence of them;
    [exec] gives the agent after the call.  The two queries only read the
    agent and build sets of their own, so the agent after them is the
    agent before, whether they return or raise. *)
Inductive op : Type :=
| MarkMine (cell : Cell)
| MarkSafe (cell : Cell)
| AddKnowledge (cell : Cell) (count : Z)
| MakeSafeMove
| MakeRandomMove (r : nat).

Definition exec (fuel : nat) (o : op) (self : t) : option t :=
  match o with
  | MarkMine cell => Some (mark_mine cell self)
  | MarkSafe cell => Some (mark_safe cell self)
  | AddKnowledge cell count => add_knowledge fuel cell count self
  | MakeSafeMove => Some self
  | MakeRandomMove _ => Some self
  end.

Fixpoint run (fuel : nat) (ops : list op) (self : t) : option t :=
  match ops with
  | [] => Some self
  | o :: ops =>
      match exec fuel o self with
      | None => None
      | Some self => run fuel ops self
      end
  end.

(** A game fed to the agent: one [add_knowledge] per revealed cell. *)
Definition feed (fuel : nat) (obs : list (Cell * Z)) (self : t) : option t :=
  run fuel ((λ o, AddKnowledge o.1 o.2) <$> obs) self.

End MinesweeperAI.

(** ** Vocabulary of the statements *)

(** The cell lies on a grid of [h] rows and [w] columns. *)
Definition in_bounds (h w : Z) (c : Cell) : Prop :=
  0 ≤ c.1 ∧ c.1 < h ∧ 0 ≤ c.2 ∧ c.2 < w.

(** Two different cells at most one row and one column apart. *)
Definition adjacent (c d : Cell) : Prop :=
  Z.abs (c.1 - d.1) ≤ 1 ∧ Z.abs (c.2 - d.2) ≤ 1 ∧ c ≠ d.

(** The pairs visited by two nested loops, in the order of the visit. *)
Definition pairs (ys xs : list Z) : list Cell :=
  y ← ys; (λ x, (y, x)) <$> xs.

(** The nine cells visited by [return_neighbors] and [nearby_mines]. *)
Definition candidates (cell : Cell) : list Cell :=
  pairs (range (cell.1 - 1) (cell.1 + 2)) (range (cell.2 - 1) (cell.2 + 2)).

(** The test of line 281 on a visited cell [c]. *)
Definition is_neighbor (h w : Z) (cell c : Cell) : Prop :=
  in_bounds h w c ∧ c ≠ cell.

#[global] Instance is_neighbor_dec h w cell c : Decision (is_neighbor h w cell c).
Proof. unfold is_neighbor, in_bounds. apply _. Defined.

(** What happens to a sentence of the list over time: cells are struck
    out of it, as mines or as safe cells. *)
Inductive mark : Type :=
| Mine (c : Cell)
| Safe (c : Cell).

Definition mark_sentence (S : Sentence.t) (m : mark) : Sentence.t :=
  match m with
  | Mine c => Sentence.mark_mine c S
  | Safe c => Sentence.mark_safe c S
  end.

Definition mark_sentences (ms : list mark) (S : Sentence.t) : Sentence.t :=
  foldl mark_sentence S ms.

(** [K'] keeps the sentences of [K]: at every index of [K] it holds the
    sentence [K] had there, possibly with cells struck out. *)
Definition keeps (K K' : list Sentence.t) : Prop :=
  ∀ i S, K !! i = Some S → ∃ ms, K' !! i = Some (mark_sentences ms S).

(** Nothing is lost from [self] to [self']: the three sets only gain
    cells and the list keeps its sentences. *)
Definition grows (self self' : MinesweeperAI.t) : Prop :=
  MinesweeperAI.moves_made self ⊆ MinesweeperAI.moves_made self'
  ∧ MinesweeperAI.mines self ⊆ MinesweeperAI.mines self'
  ∧ MinesweeperAI.safes self ⊆ MinesweeperAI.safes self'
  ∧ (length (MinesweeperAI.knowledge self)
     ≤ length (MinesweeperAI.knowledge self'))%nat
  ∧ keeps (MinesweeperAI.knowledge self) (MinesweeperAI.knowledge self').

(** One append of the inference loops: the sentence deduced from two
    different sentences [A] and [B] of the list, both with cells, the cells
    of [A] among those of [B], when the list has no equal sentence yet. *)
Definition infer_step (self self' : MinesweeperAI.t) : Prop :=
  ∃ A B,
    A ∈ MinesweeperAI.knowledge self ∧ B ∈ MinesweeperAI.knowledge self
    ∧ A ≠ B ∧ Sentence.cells A ≠ ∅ ∧ Sentence.cells B ≠ ∅
    ∧ Sentence.cells A ⊆ Sentence.cells B
    ∧ (MinesweeperAI.reduced self A B ∉ MinesweeperAI.knowledge self)
    ∧ self' = (MinesweeperAI.set_knowledge
                 (MinesweeperAI.knowledge self ++ [MinesweeperAI.reduced self A B])
                 self).

(** *** The agent against a board *)

(** The sentence says the truth about the board whose mines are [board]:
    its count is the number of its cells that are mines. *)
Definition sound (board : gset Cell) (S : Sentence.t) : Prop :=
  Sentence.count S = Sentence.len (Sentence.cells S ∩ board).

(** All the agent holds is true of the board. *)
Definition truthful (board : gset Cell) (self : MinesweeperAI.t) : Prop :=
  MinesweeperAI.mines self ⊆ board
  ∧ MinesweeperAI.safes self ## board
  ∧ MinesweeperAI.moves_made self ## board
  ∧ ∀ S, S ∈ MinesweeperAI.knowledge self → sound board S.

(** No sentence mentions a cell that is already settled. *)
Definition stripped (self : MinesweeperAI.t) : Prop :=
  ∀ S, S ∈ MinesweeperAI.knowledge self →
       Sentence.cells S ## MinesweeperAI.mines self ∪ MinesweeperAI.safes self.

(** An observation the board can give: a cell of the grid without a mine
    and the number of mines around it. *)
Definition consistent (g : Minesweeper.t) (o : Cell * Z) : Prop :=
  in_bounds (Minesweeper.height g) (Minesweeper.width g) o.1
  ∧ Minesweeper.is_mine o.1 g = false
  ∧ o.2 = Minesweeper.nearby_mines o.1 g.

(** *** A bound on the inference *)

(** All the subsets of the cells of a list. *)
Fixpoint subsets (l : list Cell) : list (gset Cell) :=
  match l with
  | [] => [∅]
  | c :: l => subsets l ++ ((λ X, {[c]} ∪ X) <$> subsets l)
  end.

(** The true sentences over the cells of [U]. *)
Definition universe (board U : gset Cell) : gset Sentence.t :=
  list_to_set ((λ X, Sentence X (Sentence.len (X ∩ board))) <$> subsets (elements U)).

(** The number of true sentences over [U] that the list lacks, plus the
    length of the list: what the inference loops can still do. *)
Definition budget (board U : gset Cell) (K : list Sentence.t) : nat :=
  (size (universe board U ∖ list_to_set K) + length K)%nat.

(** All the cells mentioned by a list of sentences. *)
Definition mentioned (K : list Sentence.t) : gset Cell :=
  ⋃ (Sentence.cells <$> K).

(** The state of the agent during an inference over true sentences whose
    cells are in [U]. *)
Definition bounded (board U : gset Cell) (s : MinesweeperAI.t) : Prop :=
  MinesweeperAI.moves_made s ## board
  ∧ ∀ S, S ∈ MinesweeperAI.knowledge s → sound board S ∧ Sentence.cells S ⊆ U.

(** *** Scenarios *)

(** The sentence is well formed in the sense of the specification: its
    count lies between zero and the number of its cells. *)
Definition non_degenerate (S : Sentence.t) : Prop :=
  0 ≤ Sentence.count S ∧ Sentence.count S ≤ Sentence.len (Sentence.cells S).

(** Scenario C of the specification, played on a board of two rows and
    four columns with mines in two corners: the three cells revealed give
    the sentences {(0,0),(0,1)} = 1 and {(0,0),(0,1),(0,2)} = 1. *)
Definition scenario_c_board : Minesweeper.t :=
  Minesweeper.Minesweeper 2 4 {[(0, 0); (0, 3)]}.

Definition scenario_c_obs : list (Cell * Z) :=
  [((1, 2), 1); ((1, 0), 1); ((1, 1), 1)].

(** The agent of scenario C after the first two cells. *)
Definition scenario_c_two : MinesweeperAI.t :=
  MinesweeperAI.MinesweeperAI 2 4 {[(1, 2); (1, 0)]} ∅ {[(1, 2); (1, 0)]}
    [Sentence {[(0, 1); (0, 2); (0, 3); (1, 1); (1, 3)]} 1;
     Sentence {[(0, 0); (0, 1); (1, 1)]} 1].

(** The same agent in the third call, when the inference starts. *)
Definition scenario_c_mid : MinesweeperAI.t :=
  MinesweeperAI.propagate (MinesweeperAI.observe (1, 1) 1 scenario_c_two).

(** Two empty corners of an empty board of three rows and columns. *)
Definition corners_board : Minesweeper.t := Minesweeper.Minesweeper 3 3 ∅.

Definition corners_obs : list (Cell * Z) := [((0, 0), 0); ((2, 2), 0)].

(** Two counts that no board gives, on a board of two rows and columns. *)
Definition wrong_obs : list (Cell * Z) := [((0, 0), 1); ((1, 0), 3)].

(** The agent after the first of them. *)
Definition wrong_one : MinesweeperAI.t :=
  MinesweeperAI.MinesweeperAI 2 2 {[(0, 0)]} ∅ {[(0, 0)]}
    [Sentence {[(0, 1); (1, 0); (1, 1)]} 1].

(** The agent in the second call, when the inference starts. *)
Definition wrong_mid : MinesweeperAI.t :=
  MinesweeperAI.propagate (MinesweeperAI.observe (1, 0) 3 wrong_one).

(** Counts that no board gives, on a board of one row and five columns,
    the cell (0,3) being given twice; the cell (0,0) comes next. *)
Definition diverging_start : list (Cell * Z) :=
  [((0, 1), 5); ((0, 3), 7); ((0, 3), 9)].

(** The agent after the first three of them. *)
Definition diverging_three : MinesweeperAI.t :=
  MinesweeperAI.MinesweeperAI 1 5 {[(0, 1); (0, 3)]} ∅ {[(0, 1); (0, 3)]}
    [Sentence {[(0, 0); (0, 2)]} 5; Sentence {[(0, 2); (0, 4)]} 7;
     Sentence {[(0, 2); (0, 4)]} 9; Sentence ∅ 2; Sentence ∅ (-2)].

(** The agent in the fourth call, when the inference starts. *)
Definition diverging_mid : MinesweeperAI.t :=
  MinesweeperAI.propagate (MinesweeperAI.observe (0, 0) 0 diverging_three).

(** An agent with two sentences, before any marking. *)
Definition two_sentences : MinesweeperAI.t :=
  MinesweeperAI.MinesweeperAI 3 3 {[(0, 0)]} ∅ {[(0, 0)]}
    [Sentence {[(0, 1); (1, 1)]} 1; Sentence {[(1, 0)]} 0].

(** Scenarios D and E of the specification: every safe cell is played,
    and every cell of the grid is played or a known mine. *)
Definition exhausted : MinesweeperAI.t :=
  MinesweeperAI.MinesweeperAI 1 2 {[(0, 0)]} {[(0, 1)]} {[(0, 0)]} [].

(** A safe cell is left to play. *)
Definition one_safe_left : MinesweeperAI.t :=
  MinesweeperAI.MinesweeperAI 1 3 {[(0, 0)]} ∅ {[(0, 0); (0, 1)]} [].

(** A run with every kind of call. *)
Definition busy_ops : list MinesweeperAI.op :=
  [MinesweeperAI.AddKnowledge (0, 0) 0; MinesweeperAI.MakeSafeMove;
   MinesweeperAI.MarkMine (2, 2); MinesweeperAI.MakeRandomMove 5;
   MinesweeperAI.MarkSafe (1, 2); MinesweeperAI.AddKnowledge (2, 0) 1].

(** [self'] accounts for the sentences of [self]: at every index of the
    list of [self] it has a sentence with cells of the old one only, and
    the cells that left it are mines or safe cells of [self']. *)
Definition accounts (self self' : MinesweeperAI.t) : Prop :=
  ∀ i S, MinesweeperAI.knowledge self !! i = Some S →
    ∃ S', MinesweeperAI.knowledge self' !! i = Some S'
          ∧ Sentence.cells S' ⊆ Sentence.cells S
          ∧ Sentence.cells S ⊆ Sentence.cells S' ∪ MinesweeperAI.mines self'
                               ∪ MinesweeperAI.safes self'.

(** Every cell the agent holds is a cell of its grid. *)
Definition on_grid (self : MinesweeperAI.t) : Prop :=
  let grid := in_bounds (MinesweeperAI.height self) (MinesweeperAI.width self) in
  (∀ c, c ∈ MinesweeperAI.moves_made self → grid c)
  ∧ (∀ c, c ∈ MinesweeperAI.mines self → grid c)
  ∧ (∀ c, c ∈ MinesweeperAI.safes self → grid c)
  ∧ ∀ S, S ∈ MinesweeperAI.knowledge self → ∀ c, c ∈ Sentence.cells S → grid c.

(** ** Minesweeper.__init__ and the field as the program stores it *)
Module Setup.

(** The fields of a [Minesweeper] object; [board] is the list of rows. *)
Record t : Type := Game {
  height : Z;
  width : Z;
  mines : gset Cell;
  board : list (list bool);
  mines_found : gset Cell
}.

(** How a call ends: it returns, it raises an exception, or the draws
    given to the model have run out before the loop ended. *)
Inductive outcome (A : Type) : Type :=
| Done (a : A)
| Raised
| Starved.
Arguments Done {A} a.
Arguments Raised {A}.
Arguments Starved {A}.

(** [l[i]] of Python: a negative index counts from the end, an index out
    of range raises IndexError ([None]). *)
Definition py_get {A} (l : list A) (i : Z) : option A :=
  if decide (0 ≤ i) then l !! Z.to_nat i
  else if decide (- Z.of_nat (length l) ≤ i) then l !! Z.to_nat (Z.of_nat (length l) + i)
  else None.

(** [l[i] = x] of Python, with the same indices. *)
Definition py_set {A} (l : list A) (i : Z) (x : A) : option (list A) :=
  if decide (0 ≤ i) then
    if decide (Z.to_nat i < length l)%nat then Some (<[Z.to_nat i := x]> l) else None
  else if decide (- Z.of_nat (length l) ≤ i)
       then Some (<[Z.to_nat (Z.of_nat (length l) + i) := x]> l)
       else None.

(** [board[i][j]]. *)
Definition board_get (board : list (list bool)) (i j : Z) : option bool :=
  row ← py_get board i; py_get row j.

(** [board[i][j] = True]: the row object is changed in place. *)
Definition board_set (board : list (list bool)) (i j : Z) : option (list (list bool)) :=
  row ← py_get board i; row' ← py_set row j true; py_set board i row'.

(** Lines 18-23: the field without mines, built row after row. *)
Definition empty_board (height width : Z) : list (list bool) :=
  foldl (λ board _, board ++ [foldl (λ row _, row ++ [false]) [] (range 0 width)])
        [] (range 0 height).

(** [random.randrange(n)]: ValueError when [n] is not positive, else a
    value below [n], here the draw reduced modulo [n]. *)
Definition randrange (n : Z) (draw : nat) : option Z :=
  if decide (0 < n) then Some (Z.of_nat draw `mod` n) else None.

(** Lines 26-31: the loop that adds mines, on the set and the field; one
    pair of draws per turn. *)
Fixpoint place_mines (draws : list (nat * nat)) (height width target : Z)
         (mines : gset Cell) (board : list (list bool))
  : outcome (gset Cell * list (list bool)) :=
  if decide (Z.of_nat (size mines) = target) then Done (mines, board)
  else
    match draws with
    | [] => Starved
    | (di, dj) :: draws =>
        match randrange height di with
        | None => Raised
        | Some i =>
            match randrange width dj with
            | None => Raised
            | Some j =>
                match board_get board i j with
                | None => Raised
                | Some true => place_mines draws height width target mines board
                | Some false =>
                    match board_set board i j with
                    | None => Raised
                    | Some board' =>
                        place_mines draws height width target
                                    ({[(i, j)]} ∪ mines) board'
                    end
                end
            end
        end
    end.

(** [__init__(height, width, mines)]. *)
Definition init (height width target : Z) (draws : list (nat * nat)) : outcome t :=
  match place_mines draws height width target ∅ (empty_board height width) with
  | Done (mines, board) => Done (Game height width mines board ∅)
  | Raised => Raised
  | Starved => Starved
  end.

(** [is_mine(cell)]. *)
Definition is_mine (cell : Cell) (self : t) : option bool :=
  let '(i, j) := cell in board_get (board self) i j.

(** The body of the two loops of [nearby_mines]; [None] is an exception. *)
Definition visit_nearby (self : t) (cell : Cell) (count : option Z) (ij : Cell)
  : option Z :=
  n ← count;
  let '(i, j) := ij in
  if decide ((i, j) = cell) then Some n
  else if decide (0 ≤ i ∧ i < height self ∧ 0 ≤ j ∧ j < width self) then
    b ← board_get (board self) i j;
    Some (if b : bool then n + 1 else n)
  else Some n.

Definition nearby_mines (cell : Cell) (self : t) : option Z :=
  foldl (λ count i,
           foldl (λ count j, visit_nearby self cell count (i, j))
                 count (range (cell.2 - 1) (cell.2 + 2)))
        (Some 0) (range (cell.1 - 1) (cell.1 + 2)).

(** [won()]. *)
Definition won (self : t) : bool := bool_decide (mines_found self = mines self).

(** ["--" * self.width + "-"], the line between two rows. *)
Definition rule (self : t) : list ascii :=
  mjoin (replicate (Z.to_nat (width self)) ["-"; "-"]%char) ++ ["-"%char].

(** Lines 43-48: the text of row [i], square after square and the closing
    bar; [None] is an exception. *)
Definition print_row (self : t) (i : Z) : option (list ascii) :=
  line ← foldl (λ line j,
                  line ← line;
                  b ← board_get (board self) i j;
                  Some (line ++ if b : bool then ["|"; "X"]%char
                                else ["|"; " "]%char))
               (Some []) (range 0 (width self));
  Some (line ++ ["|"%char]).

(** [print()]: the lines written, from the first to the last. *)
Definition print (self : t) : option (list (list ascii)) :=
  out ← foldl (λ out i,
                 out ← out;
                 row ← print_row self i;
                 Some (out ++ [rule self; row]))
              (Some []) (range 0 (height self));
  Some (out ++ [rule self]).

(** The board as the agent's statements see it: the size and the set. *)
Definition abstract (self : t) : Minesweeper.t :=
  Minesweeper.Minesweeper (height self) (width self) (mines self).

(** The field has [height] rows of [width] squares and holds [True]
    exactly on the cells of [mines], which are all on the grid. *)
Definition well_formed (height width : Z) (mines : gset Cell)
           (board : list (list bool)) : Prop :=
  length board = Z.to_nat height
  ∧ (∀ row, row ∈ board → length row = Z.to_nat width)
  ∧ (∀ c, c ∈ mines → in_bounds height width c)
  ∧ ∀ i j, in_bounds height width (i, j) →
           board_get board i j = Some (bool_decide ((i, j) ∈ mines)).

End Setup.

(** The sign that [print] writes for a square: lines 44-47. *)
Definition sign (mines : gset Cell) (i j : Z) : ascii :=
  if bool_decide ((i, j) ∈ mines) then "X"%char else " "%char.

(** The cells that a list of marks strikes out as mines, and as safe
    cells. *)
Definition mine_cells (ms : list mark) : gset Cell :=
  list_to_set (omap (λ m, match m with Mine c => Some c | Safe _ => None end) ms).

Definition safe_cells (ms : list mark) : gset Cell :=
  list_to_set (omap (λ m, match m with Safe c => Some c | Mine _ => None end) ms).

(** A game under way on a board of four rows and columns with mines at
    (0,1), (1,0), (1,1) and (3,3), after the cells (0,0), (3,0) and
    (2,2). *)
Definition under_way_obs : list (Cell * Z) := [((0, 0), 3); ((3, 0), 0); ((2, 2), 2)].

(** The agent after these three cells. *)
Definition under_way : MinesweeperAI.t :=
  MinesweeperAI.MinesweeperAI 4 4 {[(0, 0); (3, 0); (2, 2)]}
    {[(0, 1); (1, 0); (1, 1)]}
    {[(0, 0); (3, 0); (2, 0); (3, 1); (2, 1); (2, 2)]}
    [Sentence ∅ 0; Sentence ∅ 0;
     Sentence {[(1, 2); (1, 3); (2, 3); (3, 2); (3, 3)]} 1].

(** Calls of every kind made on it. *)
Definition later_ops : list MinesweeperAI.op :=
  [MinesweeperAI.MarkSafe (1, 2); MinesweeperAI.MakeSafeMove;
   MinesweeperAI.AddKnowledge (3, 2) 1; MinesweeperAI.MakeRandomMove 3;
   MinesweeperAI.MarkMine (3, 3)].

(** A closed decidable fact, settled by evaluation. *)
Ltac by_compute := apply (bool_decide_unpack _); vm_compute; exact I.

(** * Properties *)

Import Sentence(cells, count).

(** ** Sentences *)

Lemma len_nonneg (s : gset Cell) : 0 ≤ Sentence.len s.
Proof. unfold Sentence.len. lia. Qed.

Lemma len_zero (s : gset Cell) : Sentence.len s = 0 ↔ s = ∅.
Proof.
  unfold Sentence.len. split.
  - intros H. apply leibniz_equiv, size_empty_iff. lia.
  - intros ->. by rewrite size_empty.
Qed.

Lemma len_remove (s : gset Cell) (c : Cell) :
  c ∈ s → Sentence.len (s ∖ {[c]}) = Sentence.len s - 1.
Proof.
  intros Hc. unfold Sentence.len.
  rewrite size_difference by set_solver. rewrite size_singleton.
  assert (size s ≠ 0%nat) by (apply size_non_empty_iff; set_solver). lia.
Qed.

(** C1: [known_mines] is the whole cell set when the number of cells equals
    the count and empty otherwise; [known_safes] is the whole cell set when
    the count is zero and empty otherwise; with a count that is negative or
    larger than the number of cells both are empty. *)
Theorem known_cells_exact (S : Sentence.t) :
  (Sentence.len (cells S) = count S → Sentence.known_mines S = cells S)
  ∧ (Sentence.len (cells S) ≠ count S → Sentence.known_mines S = ∅)
  ∧ (count S = 0 → Sentence.known_safes S = cells S)
  ∧ (count S ≠ 0 → Sentence.known_safes S = ∅)
  ∧ (count S < 0 ∨ Sentence.len (cells S) < count S →
     Sentence.known_mines S = ∅ ∧ Sentence.known_safes S = ∅).
Proof.
  unfold Sentence.known_mines, Sentence.known_safes.
  pose proof (len_nonneg (cells S)) as Hlen.
  repeat split; intros; repeat case_decide; try done; lia.
Qed.

(** Scenario B of the specification and two degenerate counts. *)
Lemma known_cells_exact_witness :
  Sentence.known_mines (Sentence {[(1, 1)]} 1) = {[(1, 1)]}
  ∧ Sentence.known_safes (Sentence {[(1, 1)]} 1) = ∅
  ∧ Sentence.known_safes (Sentence {[(0, 1); (1, 0)]} 0) = {[(0, 1); (1, 0)]}
  ∧ Sentence.known_mines (Sentence {[(0, 1); (1, 0)]} 0) = ∅
  ∧ Sentence.known_mines (Sentence {[(0, 1)]} (-1)) = ∅
  ∧ Sentence.known_safes (Sentence {[(0, 1)]} 2) = ∅.
Proof.
  destruct (known_cells_exact (Sentence {[(1, 1)]} 1)) as (Hm & _ & _ & Hs & _).
  destruct (known_cells_exact (Sentence {[(0, 1); (1, 0)]} 0)) as (_ & Hm' & Hs' & _).
  destruct (known_cells_exact (Sentence {[(0, 1)]} (-1))) as (_ & _ & _ & _ & Hneg).
  destruct (known_cells_exact (Sentence {[(0, 1)]} 2)) as (_ & _ & _ & _ & Hbig).
  split; [apply Hm; reflexivity|].
  split; [apply Hs; simpl; lia|].
  split; [apply Hs'; reflexivity|].
  split; [apply Hm'; vm_compute; discriminate|].
  split; [apply Hneg; left; simpl; lia|].
  apply Hbig; right; vm_compute; reflexivity.
Defined.

(** C7: marking a cell of the sentence removes it, one cell fewer, and
    [mark_mine] also lowers the count by one while [mark_safe] keeps it;
    marking a cell that is not in the sentence changes nothing, hence a
    second marking of the same cell is without effect. *)
Theorem sentence_mark_exact (S : Sentence.t) (c : Cell) :
  (c ∈ cells S →
     cells (Sentence.mark_mine c S) = cells S ∖ {[c]}
     ∧ count (Sentence.mark_mine c S) = count S - 1
     ∧ Sentence.len (cells (Sentence.mark_mine c S)) = Sentence.len (cells S) - 1
     ∧ cells (Sentence.mark_safe c S) = cells S ∖ {[c]}
     ∧ count (Sentence.mark_safe c S) = count S
     ∧ Sentence.len (cells (Sentence.mark_safe c S)) = Sentence.len (cells S) - 1)
  ∧ (c ∉ cells S → Sentence.mark_mine c S = S ∧ Sentence.mark_safe c S = S)
  ∧ Sentence.mark_mine c (Sentence.mark_mine c S) = Sentence.mark_mine c S
  ∧ Sentence.mark_safe c (Sentence.mark_safe c S) = Sentence.mark_safe c S
  ∧ Sentence.mark_safe c (Sentence.mark_mine c S) = Sentence.mark_mine c S
  ∧ Sentence.mark_mine c (Sentence.mark_safe c S) = Sentence.mark_safe c S.
Proof.
  assert (Hout : ∀ T : Sentence.t, c ∉ cells T →
            Sentence.mark_mine c T = T ∧ Sentence.mark_safe c T = T).
  { intros T HT. unfold Sentence.mark_mine, Sentence.mark_safe.
    by rewrite !decide_False. }
  assert (Hm : c ∉ cells (Sentence.mark_mine c S)).
  { unfold Sentence.mark_mine. case_decide; simpl; [|done].
    rewrite elem_of_difference, elem_of_singleton. tauto. }
  assert (Hs : c ∉ cells (Sentence.mark_safe c S)).
  { unfold Sentence.mark_safe. case_decide; simpl; [|done].
    rewrite elem_of_difference, elem_of_singleton. tauto. }
  split; [|repeat split; try (by apply Hout)].
  intros Hc. unfold Sentence.mark_mine, Sentence.mark_safe.
  rewrite !decide_True by done. simpl.
  rewrite len_remove by done. done.
Qed.

Lemma sentence_mark_exact_witness :
  Sentence.mark_mine (0, 1) (Sentence {[(0, 1); (1, 1)]} 1) = Sentence {[(1, 1)]} 0
  ∧ Sentence.mark_safe (0, 0) (Sentence {[(0, 1); (1, 1)]} 1)
    = Sentence {[(0, 1); (1, 1)]} 1.
Proof.
  destruct (sentence_mark_exact (Sentence {[(0, 1); (1, 1)]} 1) (0, 1)) as [Hin _].
  destruct (sentence_mark_exact (Sentence {[(0, 1); (1, 1)]} 1) (0, 0)) as (_ & Hout & _).
  split.
  - assert (Hc : (0, 1) ∈ cells (Sentence {[(0, 1); (1, 1)]} 1)).
    { by_compute. }
    destruct (Hin Hc) as (Hcells & Hcount & _).
    destruct (Sentence.mark_mine (0, 1) (Sentence {[(0, 1); (1, 1)]} 1)) as [cs n].
    simpl in Hcells, Hcount. subst cs n. reflexivity.
  - apply Hout. by_compute.
Defined.

(** ** Nested loops over two ranges *)

Lemma foldl_pairs {A} (f : A → Cell → A) (ys xs : list Z) (a : A) :
  foldl (λ acc y, foldl (λ acc x, f acc (y, x)) acc xs) a ys
  = foldl f a (pairs ys xs).
Proof.
  unfold pairs. revert a. induction ys as [|y ys IH]; intros a; [done|].
  simpl. rewrite foldl_app, foldl_fmap. apply IH.
Qed.

Lemma elem_of_pairs (ys xs : list Z) (c : Cell) :
  c ∈ pairs ys xs ↔ c.1 ∈ ys ∧ c.2 ∈ xs.
Proof.
  unfold pairs. rewrite list_elem_of_bind. destruct c as [y x]. simpl. split.
  - intros (y' & Hc & Hy). apply list_elem_of_fmap in Hc as (x' & Heq & Hx).
    by simplify_eq.
  - intros [Hy Hx]. exists y. split; [|done].
    apply list_elem_of_fmap. by exists x.
Qed.

Lemma NoDup_pairs (ys xs : list Z) : NoDup ys → NoDup xs → NoDup (pairs ys xs).
Proof.
  intros Hys Hxs. unfold pairs. apply NoDup_bind; [| |done].
  - intros y1 y2 c _ _ H1 H2.
    apply list_elem_of_fmap in H1 as (? & -> & _).
    apply list_elem_of_fmap in H2 as (? & ? & _). by simplify_eq.
  - intros y _. apply NoDup_fmap_2; [|done]. intros ???. by simplify_eq.
Qed.

Lemma elem_of_range (lo hi k : Z) : k ∈ range lo hi ↔ lo ≤ k < hi.
Proof. unfold range. rewrite elem_of_seqZ. lia. Qed.

Lemma elem_of_candidates (cell c : Cell) :
  c ∈ candidates cell
  ↔ Z.abs (c.1 - cell.1) ≤ 1 ∧ Z.abs (c.2 - cell.2) ≤ 1.
Proof. unfold candidates. rewrite elem_of_pairs, !elem_of_range. lia. Qed.

Lemma NoDup_candidates (cell : Cell) : NoDup (candidates cell).
Proof. apply NoDup_pairs; apply NoDup_seqZ. Qed.

Lemma length_pairs (ys xs : list Z) :
  length (pairs ys xs) = (length ys * length xs)%nat.
Proof.
  unfold pairs. induction ys as [|y ys IH]; [done|].
  rewrite bind_cons, length_app, length_fmap. simpl. f_equal. exact IH.
Qed.

Lemma length_candidates (cell : Cell) : length (candidates cell) = 9%nat.
Proof.
  unfold candidates, range. rewrite length_pairs, !length_seqZ.
  replace (cell.1 + 2 - (cell.1 - 1)) with 3 by lia.
  replace (cell.2 + 2 - (cell.2 - 1)) with 3 by lia. done.
Qed.

Lemma size_list_to_set_filter (P : Cell → Prop) `{∀ c, Decision (P c)}
      (l : list Cell) :
  NoDup l → size (list_to_set (filter P l) : gset Cell) = length (filter P l).
Proof. intros Hl. apply size_list_to_set. by apply NoDup_filter. Qed.

(** ** The neighbours of a cell *)

Import MinesweeperAI(height, width, moves_made, mines, safes, knowledge).

Lemma foldl_visit_neighbor (self : MinesweeperAI.t) (cell : Cell)
      (l : list Cell) (acc : gset Cell * Z) :
  foldl (MinesweeperAI.visit_neighbor self cell) acc l
  = (list_to_set (filter (is_neighbor (height self) (width self) cell) l) ∪ acc.1,
     acc.2 + Z.of_nat (length (filter
               (λ c, is_neighbor (height self) (width self) cell c ∧ c ∈ mines self) l))).
Proof.
  revert acc. induction l as [|c l IH]; intros [nb mc].
  { simpl. f_equal; [set_solver | lia]. }
  simpl foldl. rewrite IH. clear IH.
  assert (Hstep : MinesweeperAI.visit_neighbor self cell (nb, mc) c
    = if decide (is_neighbor (height self) (width self) cell c)
      then ({[c]} ∪ nb, if decide (c ∈ mines self) then mc + 1 else mc)
      else (nb, mc)).
  { unfold MinesweeperAI.visit_neighbor, is_neighbor, in_bounds.
    destruct cell as [i j], c as [y x]. simpl.
    repeat case_decide; try done; exfalso; naive_solver. }
  rewrite Hstep. clear Hstep.
  destruct (decide (is_neighbor (height self) (width self) cell c)) as [Hn|Hn].
  - rewrite (filter_cons_True _ _ _ Hn). simpl.
    destruct (decide (c ∈ mines self)) as [Hm|Hm].
    + rewrite filter_cons_True by done. simpl length. f_equal; [set_solver|lia].
    + rewrite filter_cons_False by tauto. f_equal. set_solver.
  - rewrite (filter_cons_False _ _ _ Hn). rewrite filter_cons_False by tauto.
    done.
Qed.

Lemma return_neighbors_eq (cell : Cell) (self : MinesweeperAI.t) :
  MinesweeperAI.return_neighbors cell self
  = (list_to_set (filter (is_neighbor (height self) (width self) cell)
                         (candidates cell)),
     Z.of_nat (length (filter
        (λ c, is_neighbor (height self) (width self) cell c ∧ c ∈ mines self)
        (candidates cell)))).
Proof.
  unfold MinesweeperAI.return_neighbors. destruct cell as [i j].
  rewrite (foldl_pairs (MinesweeperAI.visit_neighbor self (i, j))).
  fold (candidates (i, j)). rewrite foldl_visit_neighbor. simpl.
  f_equal. set_solver.
Qed.

(** The set returned is the set of the cells of the grid next to [cell],
    there are at most eight of them, and the count returned is the number
    of them in [mines]. *)
Lemma return_neighbors_spec (cell : Cell) (self : MinesweeperAI.t) :
  (∀ c, c ∈ (MinesweeperAI.return_neighbors cell self).1
        ↔ in_bounds (height self) (width self) c ∧ adjacent c cell)
  ∧ (size (MinesweeperAI.return_neighbors cell self).1 ≤ 8)%nat
  ∧ (MinesweeperAI.return_neighbors cell self).2
    = Sentence.len ((MinesweeperAI.return_neighbors cell self).1 ∩ mines self).
Proof.
  rewrite return_neighbors_eq. simpl. split; [|split].
  - intros c. rewrite elem_of_list_to_set, list_elem_of_filter, elem_of_candidates.
    unfold is_neighbor, adjacent. tauto.
  - rewrite size_list_to_set_filter by apply NoDup_candidates.
    assert (length (filter (is_neighbor (height self) (width self) cell)
                           (candidates cell)) < 9)%nat; [|lia].
    rewrite <- (length_candidates cell). apply (length_filter_lt _ _ cell).
    + apply elem_of_candidates. lia.
    + unfold is_neighbor. tauto.
  - unfold Sentence.len. f_equal.
    rewrite <- (size_list_to_set_filter _ (candidates cell))
      by apply NoDup_candidates.
    f_equal. apply set_eq. intros c.
    rewrite elem_of_intersection, !elem_of_list_to_set, !list_elem_of_filter.
    tauto.
Qed.

(** ** Marking cells in the agent *)

Lemma length_mark_mines (l : list Cell) (self : MinesweeperAI.t) :
  length (knowledge (MinesweeperAI.mark_mines l self)) = length (knowledge self).
Proof.
  revert self. induction l as [|c l IH]; intros self; [done|].
  simpl. rewrite IH. simpl. by rewrite length_fmap.
Qed.

Lemma length_mark_safes (l : list Cell) (self : MinesweeperAI.t) :
  length (knowledge (MinesweeperAI.mark_safes l self)) = length (knowledge self).
Proof.
  revert self. induction l as [|c l IH]; intros self; [done|].
  simpl. rewrite IH. simpl. by rewrite length_fmap.
Qed.

(** Every cell that the loop marks as a mine is, when it is marked, a cell
    of a sentence of the list with as many cells as its count. *)
Lemma mark_mines_ind (P : MinesweeperAI.t → Prop) (i : nat) :
  (∀ s S c, P s → S ∈ knowledge s → Sentence.len (cells S) = count S →
            c ∈ cells S → P (MinesweeperAI.mark_mine c s)) →
  ∀ l s S, NoDup l → knowledge s !! i = Some S → (∀ c, c ∈ l → c ∈ cells S) →
           Sentence.len (cells S) = count S → P s →
           P (MinesweeperAI.mark_mines l s).
Proof.
  intros Hstep. induction l as [|c l IH]; intros s S Hnd Hi Hl Hfull HP; [done|].
  apply NoDup_cons in Hnd as [Hc Hnd].
  assert (HcS : c ∈ cells S) by (apply Hl; left).
  simpl. apply (IH _ (Sentence.mark_mine c S)); [done| | | |].
  - simpl. by rewrite list_lookup_fmap, Hi.
  - intros c' Hc'. unfold Sentence.mark_mine. rewrite decide_True by done.
    simpl. apply elem_of_difference. split; [apply Hl; by right|].
    rewrite elem_of_singleton. by intros ->.
  - unfold Sentence.mark_mine. rewrite decide_True by done. simpl.
    rewrite len_remove by done. lia.
  - apply (Hstep s S); [done| |done|done]. by eapply list_elem_of_lookup_2.
Qed.

(** Every cell that the loop marks as safe is, when it is marked, a cell
    of a sentence of the list with count zero. *)
Lemma mark_safes_ind (P : MinesweeperAI.t → Prop) (i : nat) :
  (∀ s S c, P s → S ∈ knowledge s → count S = 0 → c ∈ cells S →
            P (MinesweeperAI.mark_safe c s)) →
  ∀ l s S, NoDup l → knowledge s !! i = Some S → (∀ c, c ∈ l → c ∈ cells S) →
           count S = 0 → P s → P (MinesweeperAI.mark_safes l s).
Proof.
  intros Hstep. induction l as [|c l IH]; intros s S Hnd Hi Hl Hzero HP; [done|].
  apply NoDup_cons in Hnd as [Hc Hnd].
  assert (HcS : c ∈ cells S) by (apply Hl; left).
  simpl. apply (IH _ (Sentence.mark_safe c S)); [done| | | |].
  - simpl. by rewrite list_lookup_fmap, Hi.
  - intros c' Hc'. unfold Sentence.mark_safe. rewrite decide_True by done.
    simpl. apply elem_of_difference. split; [apply Hl; by right|].
    rewrite elem_of_singleton. by intros ->.
  - unfold Sentence.mark_safe. by rewrite decide_True.
  - apply (Hstep s S); [done| |done|done]. by eapply list_elem_of_lookup_2.
Qed.

(** The induction principle of the propagation pass: a property of the
    agent that every justified marking preserves holds after the pass. *)
Lemma propagate_ind (P : MinesweeperAI.t → Prop) :
  (∀ s S c, P s → S ∈ knowledge s → Sentence.len (cells S) = count S →
            c ∈ cells S → P (MinesweeperAI.mark_mine c s)) →
  (∀ s S c, P s → S ∈ knowledge s → count S = 0 → c ∈ cells S →
            P (MinesweeperAI.mark_safe c s)) →
  ∀ self, P self → P (MinesweeperAI.propagate self).
Proof.
  intros Hmine Hsafe self. unfold MinesweeperAI.propagate.
  generalize (seq 0 (length (knowledge self))). intros l. revert self.
  induction l as [|i l IH]; intros self HP; [done|].
  simpl. apply IH. clear IH.
  unfold MinesweeperAI.propagate_sentence, MinesweeperAI.set_in.
  destruct (knowledge self !! i) as [S|] eqn:Hi; [|done].
  rewrite !andb_true_r.
  set (self1 := if bool_decide (Sentence.known_mines S ≠ ∅)
                then MinesweeperAI.mark_mines (elements (Sentence.known_mines S)) self
                else self).
  assert (HP1 : P self1).
  { subst self1. case_bool_decide as Hne; [|done].
    unfold Sentence.known_mines in *. case_decide as Hfull; [|done].
    apply (mark_mines_ind P i Hmine _ _ S); try done.
    - apply NoDup_elements.
    - intros c. by rewrite elem_of_elements. }
  destruct (knowledge self1 !! i) as [S1|] eqn:Hi1; [|done].
  case_bool_decide as Hne; [|done].
  unfold Sentence.known_safes in *. case_decide as Hzero; [|done].
  apply (mark_safes_ind P i Hsafe _ _ S1); try done.
  - apply NoDup_elements.
  - intros c. by rewrite elem_of_elements.
Qed.

(** The order in which the cells of a set are marked does not matter. *)
Lemma sentence_mark_mine_comm (a b : Cell) (S : Sentence.t) :
  Sentence.mark_mine a (Sentence.mark_mine b S)
  = Sentence.mark_mine b (Sentence.mark_mine a S).
Proof.
  destruct (decide (a = b)) as [->|Hne]; [done|].
  assert (Hin : ∀ x y : Cell, x ≠ y → ∀ X : gset Cell, x ∈ X ∖ {[y]} ↔ x ∈ X).
  { intros x y Hxy X. rewrite elem_of_difference, elem_of_singleton. tauto. }
  unfold Sentence.mark_mine.
  destruct (decide (b ∈ cells S)) as [Hb|Hb], (decide (a ∈ cells S)) as [Ha|Ha];
    simpl.
  - rewrite !decide_True by (by apply Hin). simpl. f_equal; set_solver.
  - rewrite decide_False by (by rewrite Hin). by rewrite decide_True.
  - rewrite decide_False; [done|]. rewrite Hin; [done|]. by intros ->.
  - by rewrite !decide_False.
Qed.

Lemma sentence_mark_safe_comm (a b : Cell) (S : Sentence.t) :
  Sentence.mark_safe a (Sentence.mark_safe b S)
  = Sentence.mark_safe b (Sentence.mark_safe a S).
Proof.
  destruct (decide (a = b)) as [->|Hne]; [done|].
  assert (Hin : ∀ x y : Cell, x ≠ y → ∀ X : gset Cell, x ∈ X ∖ {[y]} ↔ x ∈ X).
  { intros x y Hxy X. rewrite elem_of_difference, elem_of_singleton. tauto. }
  unfold Sentence.mark_safe.
  destruct (decide (b ∈ cells S)) as [Hb|Hb], (decide (a ∈ cells S)) as [Ha|Ha];
    simpl.
  - rewrite !decide_True by (by apply Hin). simpl. f_equal; set_solver.
  - rewrite decide_False by (by rewrite Hin). by rewrite decide_True.
  - rewrite decide_False; [done|]. rewrite Hin; [done|]. by intros ->.
  - by rewrite !decide_False.
Qed.

Lemma mark_mine_comm (a b : Cell) (s : MinesweeperAI.t) :
  MinesweeperAI.mark_mine a (MinesweeperAI.mark_mine b s)
  = MinesweeperAI.mark_mine b (MinesweeperAI.mark_mine a s).
Proof.
  unfold MinesweeperAI.mark_mine. simpl. f_equal; [set_solver|].
  rewrite <- !list_fmap_compose. apply list_fmap_ext. intros i S _. simpl.
  apply sentence_mark_mine_comm.
Qed.

Lemma mark_safe_comm (a b : Cell) (s : MinesweeperAI.t) :
  MinesweeperAI.mark_safe a (MinesweeperAI.mark_safe b s)
  = MinesweeperAI.mark_safe b (MinesweeperAI.mark_safe a s).
Proof.
  unfold MinesweeperAI.mark_safe. simpl. f_equal; [set_solver|].
  rewrite <- !list_fmap_compose. apply list_fmap_ext. intros i S _. simpl.
  apply sentence_mark_safe_comm.
Qed.

Lemma mark_mines_perm (l l' : list Cell) (s : MinesweeperAI.t) :
  l ≡ₚ l' → MinesweeperAI.mark_mines l s = MinesweeperAI.mark_mines l' s.
Proof.
  intros Hp. revert s. induction Hp as [|x l l' _ IH|x y l|l1 l2 l3 _ IH1 _ IH2];
    intros s; simpl.
  - done.
  - apply IH.
  - by rewrite mark_mine_comm.
  - by rewrite IH1.
Qed.

Lemma mark_safes_perm (l l' : list Cell) (s : MinesweeperAI.t) :
  l ≡ₚ l' → MinesweeperAI.mark_safes l s = MinesweeperAI.mark_safes l' s.
Proof.
  intros Hp. revert s. induction Hp as [|x l l' _ IH|x y l|l1 l2 l3 _ IH1 _ IH2];
    intros s; simpl.
  - done.
  - apply IH.
  - by rewrite mark_safe_comm.
  - by rewrite IH1.
Qed.

(** The marking pass keeps the length of the list. *)
Lemma length_propagate (s : MinesweeperAI.t) :
  length (knowledge (MinesweeperAI.propagate s)) = length (knowledge s).
Proof.
  apply (propagate_ind (λ s', length (knowledge s') = length (knowledge s)));
    try done; intros s' S c Hlen _ _ _; simpl; by rewrite length_fmap.
Qed.

(** ** The inference loops *)

(** More fuel does not change the outcome of a loop that ended. *)
Lemma inner_loop_fuel (fuel fuel' : nat) (A : Sentence.t) (j : nat)
      (s s' : MinesweeperAI.t) :
  (fuel ≤ fuel')%nat → MinesweeperAI.inner_loop fuel A j s = Some s' →
  MinesweeperAI.inner_loop fuel' A j s = Some s'.
Proof.
  revert fuel' j s. induction fuel as [|fuel IH]; intros fuel' j s Hle; [done|].
  destruct fuel' as [|fuel']; [lia|]. simpl.
  destruct (knowledge s !! j) as [B|]; [|done].
  repeat case_decide; apply IH; lia.
Qed.

Lemma outer_loop_fuel (fuel fuel' : nat) (i : nat) (s s' : MinesweeperAI.t) :
  (fuel ≤ fuel')%nat → MinesweeperAI.outer_loop fuel i s = Some s' →
  MinesweeperAI.outer_loop fuel' i s = Some s'.
Proof.
  revert fuel' i s. induction fuel as [|fuel IH]; intros fuel' i s Hle; [done|].
  destruct fuel' as [|fuel']; [lia|]. simpl.
  destruct (knowledge s !! i) as [A|]; [|done].
  case_decide; [|apply IH; lia].
  destruct (MinesweeperAI.inner_loop fuel A 0 s) as [s1|] eqn:Hin; [|done].
  rewrite (inner_loop_fuel fuel fuel' A 0 s s1) by (done || lia).
  apply IH. lia.
Qed.

(** The loops only append, one [infer_step] at a time. *)
Lemma inner_loop_steps (fuel : nat) (A : Sentence.t) (j : nat)
      (s s' : MinesweeperAI.t) :
  A ∈ knowledge s → cells A ≠ ∅ →
  MinesweeperAI.inner_loop fuel A j s = Some s' → rtc infer_step s s'.
Proof.
  revert j s. induction fuel as [|fuel IH]; intros j s HA Hne; [done|].
  simpl. destruct (knowledge s !! j) as [B|] eqn:Hj.
  2:{ intros [= <-]. apply rtc_refl. }
  destruct (decide (A = B)) as [|Hdiff]; [by apply IH|].
  destruct (decide (Sentence.len (cells B) ≠ 0)) as [HB|]; [|by apply IH].
  destruct (decide (cells A ⊆ cells B)) as [Hsub|]; [|by apply IH].
  destruct (decide (MinesweeperAI.reduced s A B ∉ knowledge s)) as [Hnew|];
    [|by apply IH].
  intros Hrun. eapply rtc_l.
  - exists A, B. split_and!; try done.
    + by eapply list_elem_of_lookup_2.
    + by rewrite <- len_zero.
  - eapply IH; [|done|exact Hrun]. simpl. apply elem_of_app. by left.
Qed.

Lemma outer_loop_steps (fuel : nat) (i : nat) (s s' : MinesweeperAI.t) :
  MinesweeperAI.outer_loop fuel i s = Some s' → rtc infer_step s s'.
Proof.
  revert i s. induction fuel as [|fuel IH]; intros i s; [done|].
  simpl. destruct (knowledge s !! i) as [A|] eqn:Hi.
  2:{ intros [= <-]. apply rtc_refl. }
  destruct (decide (Sentence.len (cells A) ≠ 0)) as [HA|]; [|by apply IH].
  destruct (MinesweeperAI.inner_loop fuel A 0 s) as [s1|] eqn:Hin; [|done].
  intros Hrun. etrans.
  - eapply inner_loop_steps; [| |exact Hin].
    + by eapply list_elem_of_lookup_2.
    + by rewrite <- len_zero.
  - by eapply IH.
Qed.

(** A property of the agent that every append of the inference preserves
    holds when the inference ends. *)
Lemma infer_ind (P : MinesweeperAI.t → Prop) :
  (∀ s s', P s → infer_step s s' → P s') →
  ∀ fuel self self', P self → MinesweeperAI.infer fuel self = Some self' → P self'.
Proof.
  intros Hstep fuel self self' HP Hrun.
  apply outer_loop_steps in Hrun.
  induction Hrun as [|s1 s2 s3 H12 _ IH]; [done|]. apply IH. by eapply Hstep.
Qed.

(** The inference touches nothing but the end of the list. *)
Lemma infer_step_frame (s s' : MinesweeperAI.t) :
  infer_step s s' →
  height s' = height s ∧ width s' = width s ∧ moves_made s' = moves_made s
  ∧ mines s' = mines s ∧ safes s' = safes s
  ∧ ∃ R, knowledge s' = knowledge s ++ [R].
Proof. intros (A & B & _ & _ & _ & _ & _ & _ & _ & ->). simpl. eauto 10. Qed.

Lemma infer_frame (fuel : nat) (self self' : MinesweeperAI.t) :
  MinesweeperAI.infer fuel self = Some self' →
  height self' = height self ∧ width self' = width self
  ∧ moves_made self' = moves_made self
  ∧ mines self' = mines self ∧ safes self' = safes self
  ∧ ∃ new, knowledge self' = knowledge self ++ new.
Proof.
  apply (infer_ind (λ s, height s = height self ∧ width s = width self
    ∧ moves_made s = moves_made self ∧ mines s = mines self
    ∧ safes s = safes self ∧ ∃ new, knowledge s = knowledge self ++ new)).
  - intros s s' (Hh & Hw & Hm & Hmi & Hsa & new & Hnew) Hstep.
    apply infer_step_frame in Hstep as (? & ? & ? & ? & ? & R & HR).
    split_and!; try congruence.
    exists (new ++ [R]). by rewrite HR, Hnew, app_assoc.
  - split_and!; try done. exists []. by rewrite app_nil_r.
Qed.

(** ** Nothing is lost *)

Lemma mark_sentences_app (ms1 ms2 : list mark) (S : Sentence.t) :
  mark_sentences (ms1 ++ ms2) S = mark_sentences ms2 (mark_sentences ms1 S).
Proof. unfold mark_sentences. apply foldl_app. Qed.

Lemma keeps_refl (K : list Sentence.t) : keeps K K.
Proof. intros i S Hi. by exists []. Qed.

Lemma keeps_trans (K1 K2 K3 : list Sentence.t) :
  keeps K1 K2 → keeps K2 K3 → keeps K1 K3.
Proof.
  intros H12 H23 i S Hi.
  destruct (H12 i S Hi) as [ms Hms]. destruct (H23 _ _ Hms) as [ms' Hms'].
  exists (ms ++ ms'). by rewrite mark_sentences_app.
Qed.

Lemma keeps_app (K new : list Sentence.t) : keeps K (K ++ new).
Proof. intros i S Hi. exists []. simpl. by apply lookup_app_l_Some. Qed.

Lemma keeps_fmap (m : mark) (K : list Sentence.t) :
  keeps K ((λ S, mark_sentence S m) <$> K).
Proof.
  intros i S Hi. exists [m]. by rewrite list_lookup_fmap, Hi.
Qed.

Lemma grows_refl (s : MinesweeperAI.t) : grows s s.
Proof. unfold grows. split_and!; try done. apply keeps_refl. Qed.

Lemma grows_trans (s1 s2 s3 : MinesweeperAI.t) :
  grows s1 s2 → grows s2 s3 → grows s1 s3.
Proof.
  intros (? & ? & ? & ? & ?) (? & ? & ? & ? & ?).
  unfold grows. split_and!; try (etrans; done). by eapply keeps_trans.
Qed.

Lemma grows_mark_mine (c : Cell) (s : MinesweeperAI.t) :
  grows s (MinesweeperAI.mark_mine c s).
Proof.
  unfold grows. simpl. split_and!; try done.
  - apply union_subseteq_r.
  - by rewrite length_fmap.
  - apply (keeps_fmap (Mine c)).
Qed.

Lemma grows_mark_safe (c : Cell) (s : MinesweeperAI.t) :
  grows s (MinesweeperAI.mark_safe c s).
Proof.
  unfold grows. simpl. split_and!; try done.
  - apply union_subseteq_r.
  - by rewrite length_fmap.
  - apply (keeps_fmap (Safe c)).
Qed.

Lemma grows_append (R : Sentence.t) (s : MinesweeperAI.t) :
  grows s (MinesweeperAI.set_knowledge (knowledge s ++ [R]) s).
Proof.
  unfold grows. simpl. split_and!; try done.
  - rewrite length_app. lia.
  - apply keeps_app.
Qed.

Lemma grows_add_new_sentence (cell : Cell) (n : Z) (s : MinesweeperAI.t) :
  grows s (MinesweeperAI.add_new_sentence cell n s).
Proof.
  unfold MinesweeperAI.add_new_sentence.
  destruct (MinesweeperAI.return_neighbors cell s) as [nb mc].
  repeat case_decide; (apply grows_append || apply grows_refl).
Qed.

Lemma grows_observe (cell : Cell) (n : Z) (s : MinesweeperAI.t) :
  grows s (MinesweeperAI.observe cell n s).
Proof.
  unfold MinesweeperAI.observe.
  eapply grows_trans; [|apply grows_add_new_sentence].
  eapply grows_trans; [|apply grows_mark_safe].
  unfold grows. simpl. split_and!; try done.
  - apply union_subseteq_r.
  - apply keeps_refl.
Qed.

Lemma grows_propagate (s : MinesweeperAI.t) : grows s (MinesweeperAI.propagate s).
Proof.
  apply (propagate_ind (grows s)).
  - intros s' _ c Hs' _ _ _. eapply grows_trans; [done|apply grows_mark_mine].
  - intros s' _ c Hs' _ _ _. eapply grows_trans; [done|apply grows_mark_safe].
  - apply grows_refl.
Qed.

Lemma grows_infer (fuel : nat) (s s' : MinesweeperAI.t) :
  MinesweeperAI.infer fuel s = Some s' → grows s s'.
Proof.
  apply (infer_ind (grows s)); [|apply grows_refl].
  intros s1 s2 H1 (A & B & _ & _ & _ & _ & _ & _ & _ & ->).
  eapply grows_trans; [done|apply grows_append].
Qed.

Lemma grows_add_knowledge (fuel : nat) (cell : Cell) (n : Z)
      (s s' : MinesweeperAI.t) :
  MinesweeperAI.add_knowledge fuel cell n s = Some s' → grows s s'.
Proof.
  unfold MinesweeperAI.add_knowledge. intros Hrun.
  eapply grows_trans; [apply grows_observe|].
  eapply grows_trans; [apply grows_propagate|]. by eapply grows_infer.
Qed.

Lemma grows_exec (fuel : nat) (o : MinesweeperAI.op) (s s' : MinesweeperAI.t) :
  MinesweeperAI.exec fuel o s = Some s' → grows s s'.
Proof.
  destruct o; simpl; try (intros [= <-]).
  - apply grows_mark_mine.
  - apply grows_mark_safe.
  - apply grows_add_knowledge.
  - apply grows_refl.
  - apply grows_refl.
Qed.

Lemma grows_run (fuel : nat) (ops : list MinesweeperAI.op)
      (s s' : MinesweeperAI.t) :
  MinesweeperAI.run fuel ops s = Some s' → grows s s'.
Proof.
  revert s. induction ops as [|o ops IH]; intros s; simpl.
  - intros [= <-]. apply grows_refl.
  - destruct (MinesweeperAI.exec fuel o s) as [s1|] eqn:Hexec; [|done].
    intros Hrun. eapply grows_trans; [by eapply grows_exec|by apply IH].
Qed.

(** ** True sentences stay true *)

Section Board.

Variable board : gset Cell.

Lemma sound_full (S : Sentence.t) :
  sound board S → Sentence.len (cells S) = count S → cells S ⊆ board.
Proof.
  unfold sound, Sentence.len. intros HS Hfull.
  assert (Heq : cells S ∩ board = cells S).
  { apply set_subseteq_size_eq; [apply intersection_subseteq_l|lia]. }
  intros c Hc. rewrite <- Heq in Hc.
  by apply elem_of_intersection in Hc as [_ ?].
Qed.

Lemma sound_zero (S : Sentence.t) :
  sound board S → count S = 0 → cells S ## board.
Proof.
  unfold sound. intros HS Hzero. rewrite Hzero in HS. symmetry in HS.
  apply len_zero in HS. intros c Hc Hb.
  assert (c ∈ cells S ∩ board) as Hin by (by apply elem_of_intersection).
  rewrite HS in Hin. by apply not_elem_of_empty in Hin.
Qed.

Lemma sound_mark_mine (c : Cell) (S : Sentence.t) :
  c ∈ board → sound board S → sound board (Sentence.mark_mine c S).
Proof.
  unfold sound, Sentence.mark_mine. intros Hb HS.
  case_decide as Hc; [|done]. simpl. rewrite HS.
  replace ((cells S ∖ {[c]}) ∩ board) with ((cells S ∩ board) ∖ {[c]})
    by set_solver.
  rewrite len_remove; [done|]. by apply elem_of_intersection.
Qed.

Lemma sound_mark_safe (c : Cell) (S : Sentence.t) :
  c ∉ board → sound board S → sound board (Sentence.mark_safe c S).
Proof.
  unfold sound, Sentence.mark_safe. intros Hb HS.
  case_decide as Hc; [|done]. simpl. rewrite HS.
  f_equal. set_solver.
Qed.

Lemma truthful_mark_mine (c : Cell) (s : MinesweeperAI.t) :
  c ∈ board → truthful board s → truthful board (MinesweeperAI.mark_mine c s).
Proof.
  intros Hb (Hm & Hs & Hmv & HK). unfold truthful. simpl.
  split_and!; try done.
  - apply union_subseteq. split; [|done]. by apply singleton_subseteq_l.
  - intros S HS. apply list_elem_of_fmap in HS as (S' & -> & HS').
    apply sound_mark_mine; auto.
Qed.

Lemma truthful_mark_safe (c : Cell) (s : MinesweeperAI.t) :
  c ∉ board → truthful board s → truthful board (MinesweeperAI.mark_safe c s).
Proof.
  intros Hb (Hm & Hs & Hmv & HK). unfold truthful. simpl.
  split_and!; try done.
  - apply disjoint_union_l. split; [|done]. by apply disjoint_singleton_l.
  - intros S HS. apply list_elem_of_fmap in HS as (S' & -> & HS').
    apply sound_mark_safe; auto.
Qed.

Lemma truthful_propagate (s : MinesweeperAI.t) :
  truthful board s → truthful board (MinesweeperAI.propagate s).
Proof.
  apply (propagate_ind (truthful board)).
  - intros s' S c Hs' HS Hfull Hc. apply truthful_mark_mine; [|done].
    destruct Hs' as (_ & _ & _ & HK). by apply (sound_full S); auto.
  - intros s' S c Hs' HS Hzero Hc. apply truthful_mark_safe; [|done].
    destruct Hs' as (_ & _ & _ & HK). intros Hb.
    by apply (sound_zero S (HK S HS) Hzero c).
Qed.

Lemma sound_reduced (s : MinesweeperAI.t) (A B : Sentence.t) :
  moves_made s ## board → sound board A → sound board B →
  cells A ⊆ cells B → sound board (MinesweeperAI.reduced s A B).
Proof.
  unfold sound, MinesweeperAI.reduced, Sentence.len. simpl.
  intros Hmv -> -> Hsub.
  replace ((cells B ∖ cells A ∖ moves_made s) ∩ board)
    with ((cells B ∩ board) ∖ (cells A ∩ board)) by set_solver.
  rewrite (size_difference (cells B ∩ board) (cells A ∩ board))
    by set_solver.
  assert (size (cells A ∩ board) ≤ size (cells B ∩ board))%nat
    by (apply subseteq_size; set_solver).
  lia.
Qed.

Lemma truthful_infer_step (s s' : MinesweeperAI.t) :
  truthful board s → infer_step s s' → truthful board s'.
Proof.
  intros (Hm & Hs & Hmv & HK) (A & B & HA & HB & _ & _ & _ & Hsub & _ & ->).
  unfold truthful. simpl. split_and!; try done.
  intros S HS. apply elem_of_app in HS as [HS|HS]; [by apply HK|].
  apply list_elem_of_singleton in HS as ->. apply sound_reduced; auto.
Qed.

Lemma truthful_infer (fuel : nat) (s s' : MinesweeperAI.t) :
  truthful board s → MinesweeperAI.infer fuel s = Some s' → truthful board s'.
Proof. apply (infer_ind (truthful board)), truthful_infer_step. Qed.

End Board.

(** ** Observations of a board *)

Lemma foldl_visit_nearby (g : Minesweeper.t) (cell : Cell) (l : list Cell) (n : Z) :
  foldl (Minesweeper.visit_nearby g cell) n l
  = n + Z.of_nat (length (filter
          (λ c, is_neighbor (Minesweeper.height g) (Minesweeper.width g) cell c
                ∧ c ∈ Minesweeper.mines g) l)).
Proof.
  revert n. induction l as [|c l IH]; intros n; [simpl; lia|].
  simpl foldl. rewrite IH. clear IH.
  unfold Minesweeper.visit_nearby, Minesweeper.board, is_neighbor, in_bounds.
  destruct c as [i j].
  destruct (decide ((i, j) = cell)) as [->|Hne].
  { rewrite filter_cons_False by tauto. done. }
  case_decide as Hin; [|rewrite filter_cons_False by (simpl; tauto); done].
  case_bool_decide as Hm.
  - rewrite filter_cons_True by (simpl; tauto). simpl length. lia.
  - rewrite filter_cons_False by tauto. done.
Qed.

Lemma nearby_mines_spec (g : Minesweeper.t) (cell : Cell) (s : MinesweeperAI.t) :
  height s = Minesweeper.height g → width s = Minesweeper.width g →
  Minesweeper.nearby_mines cell g
  = Sentence.len ((MinesweeperAI.return_neighbors cell s).1 ∩ Minesweeper.mines g).
Proof.
  intros Hh Hw. unfold Minesweeper.nearby_mines.
  rewrite (foldl_pairs (Minesweeper.visit_nearby g cell)).
  fold (candidates cell). rewrite foldl_visit_nearby, return_neighbors_eq.
  simpl. rewrite Hh, Hw. unfold Sentence.len.
  rewrite <- (size_list_to_set_filter _ (candidates cell))
    by apply NoDup_candidates.
  rewrite Z.add_0_l. do 2 f_equal. apply set_eq. intros c.
  rewrite elem_of_intersection, !elem_of_list_to_set, !list_elem_of_filter.
  tauto.
Qed.

Lemma truthful_add_new_sentence (g : Minesweeper.t) (cell : Cell)
      (s : MinesweeperAI.t) :
  height s = Minesweeper.height g → width s = Minesweeper.width g →
  truthful (Minesweeper.mines g) s →
  truthful (Minesweeper.mines g)
           (MinesweeperAI.add_new_sentence cell (Minesweeper.nearby_mines cell g) s).
Proof.
  intros Hh Hw Htrue. unfold MinesweeperAI.add_new_sentence.
  rewrite (nearby_mines_spec g cell s Hh Hw).
  destruct (return_neighbors_spec cell s) as (_ & _ & Hmc).
  destruct (MinesweeperAI.return_neighbors cell s) as [nb mc]. simpl in *.
  repeat case_decide; try done.
  destruct Htrue as (Hm & Hs & Hmv & HK).
  unfold truthful. simpl. split_and!; try done.
  intros S HS. apply elem_of_app in HS as [HS|HS]; [by apply HK|].
  apply list_elem_of_singleton in HS as ->.
  unfold sound. simpl. rewrite Hmc. unfold Sentence.len.
  replace ((nb ∖ mines s ∖ safes s) ∩ Minesweeper.mines g)
    with ((nb ∩ Minesweeper.mines g) ∖ (nb ∩ mines s)) by set_solver.
  rewrite (size_difference (nb ∩ Minesweeper.mines g) (nb ∩ mines s))
    by set_solver.
  assert (size (nb ∩ mines s) ≤ size (nb ∩ Minesweeper.mines g))%nat
    by (apply subseteq_size; set_solver).
  lia.
Qed.

Lemma truthful_observe (g : Minesweeper.t) (o : Cell * Z) (s : MinesweeperAI.t) :
  height s = Minesweeper.height g → width s = Minesweeper.width g →
  consistent g o → truthful (Minesweeper.mines g) s →
  truthful (Minesweeper.mines g) (MinesweeperAI.observe o.1 o.2 s).
Proof.
  intros Hh Hw (_ & Hsafe & ->) Htrue. unfold MinesweeperAI.observe.
  assert (Hcell : o.1 ∉ Minesweeper.mines g).
  { unfold Minesweeper.is_mine, Minesweeper.board in Hsafe.
    destruct o as [[i j] n]. simpl in *. by apply bool_decide_eq_false in Hsafe. }
  apply truthful_add_new_sentence; [done|done|].
  apply truthful_mark_safe; [done|].
  destruct Htrue as (Hm & Hs & Hmv & HK).
  unfold truthful. simpl. split_and!; try done.
  apply disjoint_union_l. split; [|done]. by apply disjoint_singleton_l.
Qed.

(** ** Settled cells leave the sentences *)

Lemma stripped_mark_mine (c : Cell) (s : MinesweeperAI.t) :
  stripped s → stripped (MinesweeperAI.mark_mine c s).
Proof.
  intros Hs S HS. simpl in *.
  apply list_elem_of_fmap in HS as (S' & -> & HS'). specialize (Hs S' HS').
  unfold Sentence.mark_mine. case_decide; simpl; set_solver.
Qed.

Lemma stripped_mark_safe (c : Cell) (s : MinesweeperAI.t) :
  stripped s → stripped (MinesweeperAI.mark_safe c s).
Proof.
  intros Hs S HS. simpl in *.
  apply list_elem_of_fmap in HS as (S' & -> & HS'). specialize (Hs S' HS').
  unfold Sentence.mark_safe. case_decide; simpl; set_solver.
Qed.

Lemma stripped_observe (cell : Cell) (n : Z) (s : MinesweeperAI.t) :
  stripped s → stripped (MinesweeperAI.observe cell n s).
Proof.
  intros Hs. unfold MinesweeperAI.observe, MinesweeperAI.add_new_sentence.
  set (s1 := MinesweeperAI.mark_safe cell _).
  assert (H1 : stripped s1) by (by apply stripped_mark_safe).
  destruct (MinesweeperAI.return_neighbors cell s1) as [nb mc].
  repeat case_decide; try done.
  intros S HS. simpl in HS. apply elem_of_app in HS as [HS|HS]; [by apply H1|].
  apply list_elem_of_singleton in HS as ->. simpl. set_solver.
Qed.

Lemma stripped_propagate (s : MinesweeperAI.t) :
  stripped s → stripped (MinesweeperAI.propagate s).
Proof.
  apply (propagate_ind stripped).
  - intros. by apply stripped_mark_mine.
  - intros. by apply stripped_mark_safe.
Qed.

Lemma stripped_infer (fuel : nat) (s s' : MinesweeperAI.t) :
  stripped s → MinesweeperAI.infer fuel s = Some s' → stripped s'.
Proof.
  apply (infer_ind stripped).
  intros s1 s2 H1 (A & B & HA & HB & _ & _ & _ & Hsub & _ & ->).
  intros S HS. simpl in *. apply elem_of_app in HS as [HS|HS]; [by apply H1|].
  apply list_elem_of_singleton in HS as ->. specialize (H1 B HB).
  unfold MinesweeperAI.reduced. simpl. set_solver.
Qed.

Lemma stripped_add_knowledge (fuel : nat) (cell : Cell) (n : Z)
      (s s' : MinesweeperAI.t) :
  stripped s → MinesweeperAI.add_knowledge fuel cell n s = Some s' → stripped s'.
Proof.
  intros Hs. unfold MinesweeperAI.add_knowledge.
  by apply stripped_infer, stripped_propagate, stripped_observe.
Qed.

(** ** The inference ends on true sentences *)

Lemma elem_of_subsets (l : list Cell) (X : gset Cell) :
  X ⊆ list_to_set l → X ∈ subsets l.
Proof.
  revert X. induction l as [|c l IH]; intros X HX; simpl.
  - apply list_elem_of_singleton. apply leibniz_equiv. set_solver.
  - apply elem_of_app. destruct (decide (c ∈ X)) as [Hc|Hc].
    + right. apply list_elem_of_fmap. exists (X ∖ {[c]}). split.
      * apply set_eq. intros x. rewrite elem_of_union, elem_of_difference,
          elem_of_singleton. destruct (decide (x = c)) as [->|]; tauto.
      * apply IH. set_solver.
    + left. apply IH. set_solver.
Qed.

Lemma elem_of_universe (board U : gset Cell) (S : Sentence.t) :
  sound board S → cells S ⊆ U → S ∈ universe board U.
Proof.
  intros HS HU. unfold universe. apply elem_of_list_to_set, list_elem_of_fmap.
  exists (cells S). split.
  - destruct S as [X n]. unfold sound in HS. simpl in *. by rewrite HS.
  - apply elem_of_subsets. set_solver.
Qed.

Lemma budget_append (board U : gset Cell) (K : list Sentence.t) (R : Sentence.t) :
  R ∈ universe board U → R ∉ K →
  (budget board U (K ++ [R]) ≤ budget board U K)%nat.
Proof.
  intros HR Hnew. unfold budget. rewrite length_app. simpl.
  assert (size (universe board U ∖ list_to_set (K ++ [R]))
          < size (universe board U ∖ list_to_set K))%nat; [|lia].
  apply subset_size. rewrite list_to_set_app_L. split; [set_solver|].
  intros Hsub. assert (HRin : R ∈ universe board U ∖ list_to_set K).
  { apply elem_of_difference. by rewrite elem_of_list_to_set. }
  apply Hsub in HRin. set_solver.
Qed.

Lemma length_le_budget (board U : gset Cell) (K : list Sentence.t) :
  (length K ≤ budget board U K)%nat.
Proof. unfold budget. lia. Qed.

Lemma bounded_append (board U : gset Cell) (s : MinesweeperAI.t) (A B : Sentence.t) :
  bounded board U s → A ∈ knowledge s → B ∈ knowledge s → cells A ⊆ cells B →
  MinesweeperAI.reduced s A B ∈ universe board U
  ∧ bounded board U
      (MinesweeperAI.set_knowledge (knowledge s ++ [MinesweeperAI.reduced s A B]) s).
Proof.
  intros [Hmv HK] HA HB Hsub.
  destruct (HK A HA) as [HsA _]. destruct (HK B HB) as [HsB HUB].
  assert (HsR : sound board (MinesweeperAI.reduced s A B))
    by (by apply sound_reduced).
  assert (HUR : cells (MinesweeperAI.reduced s A B) ⊆ U).
  { unfold MinesweeperAI.reduced. simpl. set_solver. }
  split; [by apply elem_of_universe|].
  split; [done|]. simpl. intros S HS.
  apply elem_of_app in HS as [HS|HS]; [by apply HK|].
  by apply list_elem_of_singleton in HS as ->.
Qed.

Lemma inner_loop_terminates (board U : gset Cell) (n : nat) :
  ∀ (s : MinesweeperAI.t) (j : nat) (A : Sentence.t),
    bounded board U s → A ∈ knowledge s →
    (budget board U (knowledge s) - j ≤ n)%nat →
    ∃ s', MinesweeperAI.inner_loop (S n) A j s = Some s'
          ∧ bounded board U s'
          ∧ (budget board U (knowledge s') ≤ budget board U (knowledge s))%nat.
Proof.
  induction n as [|n IH]; intros s j A Hb HA Hn;
    pose proof (length_le_budget board U (knowledge s)) as Hlen.
  - simpl. destruct (knowledge s !! j) as [B|] eqn:Hj; [|by eauto].
    apply lookup_lt_Some in Hj. lia.
  - remember (S n) as m eqn:Hm. simpl.
    destruct (knowledge s !! j) as [B|] eqn:Hj; [|by eauto].
    pose proof (lookup_lt_Some _ _ _ Hj) as Hlt. subst m.
    assert (Hsame : ∃ s', MinesweeperAI.inner_loop (S n) A (S j) s = Some s'
       ∧ bounded board U s'
       ∧ (budget board U (knowledge s') ≤ budget board U (knowledge s))%nat)
      by (apply IH; [done|done|lia]).
    destruct (decide (A = B)); [done|].
    destruct (decide (Sentence.len (cells B) ≠ 0)); [|done].
    destruct (decide (cells A ⊆ cells B)) as [Hsub|]; [|done].
    destruct (decide (MinesweeperAI.reduced s A B ∉ knowledge s)) as [Hnew|];
      [|done].
    assert (HB : B ∈ knowledge s) by (by eapply list_elem_of_lookup_2).
    destruct (bounded_append board U s A B Hb HA HB Hsub) as [HR Hb'].
    pose proof (budget_append board U _ _ HR Hnew) as Hbud.
    destruct (IH (MinesweeperAI.set_knowledge
                    (knowledge s ++ [MinesweeperAI.reduced s A B]) s)
                 (S j) A Hb') as (s' & Hrun & Hbs' & Hle).
    + simpl. apply elem_of_app. by left.
    + simpl. lia.
    + exists s'. simpl in Hle. split_and!; [done|done|lia].
Qed.

Lemma outer_loop_terminates (board U : gset Cell) (n : nat) :
  ∀ (s : MinesweeperAI.t) (i : nat),
    bounded board U s →
    (budget board U (knowledge s) - i ≤ n)%nat →
    ∃ s', MinesweeperAI.outer_loop (budget board U (knowledge s) + n + 1) i s
          = Some s'.
Proof.
  induction n as [|n IH]; intros s i Hb Hn;
    pose proof (length_le_budget board U (knowledge s)) as Hlen.
  - rewrite Nat.add_1_r. simpl.
    destruct (knowledge s !! i) as [A|] eqn:Hi; [|by eauto].
    apply lookup_lt_Some in Hi. lia.
  - replace (budget board U (knowledge s) + S n + 1)%nat
      with (S (budget board U (knowledge s) + n + 1)) by lia.
    simpl.
    destruct (knowledge s !! i) as [A|] eqn:Hi; [|by eauto].
    pose proof (lookup_lt_Some _ _ _ Hi) as Hlt.
    destruct (decide (Sentence.len (cells A) ≠ 0)).
    + destruct (inner_loop_terminates board U (budget board U (knowledge s))
                  s 0%nat A Hb) as (s1 & Hin & Hb1 & Hle);
        [by eapply list_elem_of_lookup_2|lia|].
      apply (inner_loop_fuel _ (budget board U (knowledge s) + n + 1)) in Hin;
        [|lia].
      rewrite Hin.
      destruct (IH s1 (S i) Hb1) as [s' Hrun]; [lia|].
      exists s'. eapply outer_loop_fuel; [|exact Hrun]. lia.
    + apply IH; [done|lia].
Qed.

Lemma infer_terminates (board U : gset Cell) (s : MinesweeperAI.t) :
  bounded board U s → ∃ fuel s', MinesweeperAI.infer fuel s = Some s'.
Proof.
  intros Hb.
  destruct (outer_loop_terminates board U (budget board U (knowledge s)) s 0%nat Hb)
    as [s' Hrun]; [lia|].
  eexists _, s'. exact Hrun.
Qed.

Lemma truthful_bounded (board : gset Cell) (s : MinesweeperAI.t) :
  truthful board s → bounded board (mentioned (knowledge s)) s.
Proof.
  intros (_ & _ & Hmv & HK). split; [done|]. intros S HS. split; [by apply HK|].
  unfold mentioned. intros c Hc. apply elem_of_union_list.
  exists (cells S). split; [|done]. apply list_elem_of_fmap. by exists S.
Qed.

(** ** Whole calls and games *)

Lemma add_knowledge_fuel (fuel fuel' : nat) (cell : Cell) (n : Z)
      (s s' : MinesweeperAI.t) :
  (fuel ≤ fuel')%nat → MinesweeperAI.add_knowledge fuel cell n s = Some s' →
  MinesweeperAI.add_knowledge fuel' cell n s = Some s'.
Proof. unfold MinesweeperAI.add_knowledge, MinesweeperAI.infer. apply outer_loop_fuel. Qed.

Lemma run_fuel (fuel fuel' : nat) (ops : list MinesweeperAI.op)
      (s s' : MinesweeperAI.t) :
  (fuel ≤ fuel')%nat → MinesweeperAI.run fuel ops s = Some s' →
  MinesweeperAI.run fuel' ops s = Some s'.
Proof.
  intros Hle. revert s. induction ops as [|o ops IH]; intros s; [done|].
  simpl. destruct (MinesweeperAI.exec fuel o s) as [s1|] eqn:Hexec; [|done].
  assert (Hexec' : MinesweeperAI.exec fuel' o s = Some s1).
  { destruct o; try done. simpl in *. by eapply add_knowledge_fuel. }
  rewrite Hexec'. apply IH.
Qed.

(** The size of the grid never changes. *)
Lemma size_add_knowledge (fuel : nat) (cell : Cell) (n : Z)
      (s s' : MinesweeperAI.t) :
  MinesweeperAI.add_knowledge fuel cell n s = Some s' →
  height s' = height s ∧ width s' = width s.
Proof.
  unfold MinesweeperAI.add_knowledge. intros Hrun.
  apply infer_frame in Hrun as (-> & -> & _).
  apply (propagate_ind (λ s', height s' = height s ∧ width s' = width s));
    try done.
  unfold MinesweeperAI.observe, MinesweeperAI.add_new_sentence.
  destruct (MinesweeperAI.return_neighbors _ _). by repeat case_decide.
Qed.

Lemma truthful_add_knowledge (g : Minesweeper.t) (fuel : nat) (o : Cell * Z)
      (s s' : MinesweeperAI.t) :
  height s = Minesweeper.height g → width s = Minesweeper.width g →
  consistent g o → truthful (Minesweeper.mines g) s →
  MinesweeperAI.add_knowledge fuel o.1 o.2 s = Some s' →
  truthful (Minesweeper.mines g) s'.
Proof.
  intros Hh Hw Ho Htrue. unfold MinesweeperAI.add_knowledge.
  by apply truthful_infer, truthful_propagate, truthful_observe.
Qed.

Lemma add_knowledge_terminates (g : Minesweeper.t) (o : Cell * Z)
      (s : MinesweeperAI.t) :
  height s = Minesweeper.height g → width s = Minesweeper.width g →
  consistent g o → truthful (Minesweeper.mines g) s →
  ∃ fuel s', MinesweeperAI.add_knowledge fuel o.1 o.2 s = Some s'.
Proof.
  intros Hh Hw Ho Htrue. unfold MinesweeperAI.add_knowledge.
  eapply infer_terminates, truthful_bounded, truthful_propagate.
  by apply truthful_observe.
Qed.

Lemma feed_cons (fuel : nat) (o : Cell * Z) (obs : list (Cell * Z))
      (s : MinesweeperAI.t) :
  MinesweeperAI.feed fuel (o :: obs) s
  = match MinesweeperAI.add_knowledge fuel o.1 o.2 s with
    | None => None
    | Some s1 => MinesweeperAI.feed fuel obs s1
    end.
Proof. done. Qed.

(** A game of consistent observations keeps the agent truthful and its
    sentences free of settled cells. *)
Lemma feed_sound (g : Minesweeper.t) (fuel : nat) (obs : list (Cell * Z)) :
  Forall (consistent g) obs →
  ∀ s s', height s = Minesweeper.height g → width s = Minesweeper.width g →
          truthful (Minesweeper.mines g) s → stripped s →
          MinesweeperAI.feed fuel obs s = Some s' →
          truthful (Minesweeper.mines g) s' ∧ stripped s'.
Proof.
  induction 1 as [|o obs Ho _ IH]; intros s s' Hh Hw Htrue Hstr.
  - by intros [= <-].
  - rewrite feed_cons.
    destruct (MinesweeperAI.add_knowledge fuel o.1 o.2 s) as [s1|] eqn:Hadd;
      [|done].
    destruct (size_add_knowledge _ _ _ _ _ Hadd) as [Hh1 Hw1].
    apply IH; [congruence|congruence| |].
    + by eapply truthful_add_knowledge.
    + by eapply stripped_add_knowledge.
Qed.

(** And every call of such a game returns. *)
Lemma feed_terminates (g : Minesweeper.t) (obs : list (Cell * Z)) :
  Forall (consistent g) obs →
  ∀ s, height s = Minesweeper.height g → width s = Minesweeper.width g →
       truthful (Minesweeper.mines g) s →
       ∃ fuel s', MinesweeperAI.feed fuel obs s = Some s'.
Proof.
  induction 1 as [|o obs Ho _ IH]; intros s Hh Hw Htrue.
  - by exists 0%nat, s.
  - destruct (add_knowledge_terminates g o s Hh Hw Ho Htrue) as (f1 & s1 & Hadd).
    destruct (size_add_knowledge _ _ _ _ _ Hadd) as [Hh1 Hw1].
    destruct (IH s1) as (f2 & s' & Hrest); [congruence|congruence| |].
    { by eapply truthful_add_knowledge. }
    exists (f1 `max` f2)%nat, s'. rewrite feed_cons.
    rewrite (add_knowledge_fuel f1 (f1 `max` f2) _ _ _ _ ltac:(lia) Hadd).
    eapply run_fuel; [|exact Hrest]. lia.
Qed.

Lemma truthful_init (board : gset Cell) (h w : Z) :
  truthful board (MinesweeperAI.init h w).
Proof.
  unfold truthful. simpl. split_and!; try set_solver.
Qed.

Lemma stripped_init (h w : Z) : stripped (MinesweeperAI.init h w).
Proof. intros S HS. simpl in HS. by apply elem_of_nil in HS. Qed.

(** ** What the inference appends *)

(** The sentences appended are deduced from sentences standing before them
    in the list, and none equals a sentence standing before it. *)
Lemma steps_appended (s s' : MinesweeperAI.t) :
  rtc infer_step s s' →
  moves_made s' = moves_made s
  ∧ ∃ new, knowledge s' = knowledge s ++ new
      ∧ ∀ k R, new !! k = Some R →
          (R ∉ knowledge s ++ take k new)
          ∧ ∃ A B, A ∈ knowledge s ++ take k new
                   ∧ B ∈ knowledge s ++ take k new
                   ∧ A ≠ B ∧ cells A ≠ ∅ ∧ cells B ≠ ∅ ∧ cells A ⊆ cells B
                   ∧ R = MinesweeperAI.reduced s A B.
Proof.
  revert s'. apply rtc_ind_r.
  { split; [done|]. exists []. split; [by rewrite app_nil_r|]. by intros k R. }
  intros s1 s2 Hsteps Hstep (Hmv & new & Hnew & Hall).
  destruct Hstep as (A & B & HA & HB & Hne & HAc & HBc & Hsub & Hfresh & ->).
  simpl. split; [done|]. exists (new ++ [MinesweeperAI.reduced s1 A B]).
  split; [by rewrite Hnew, app_assoc|]. intros k R Hk.
  destruct (decide (k < length new)%nat) as [Hlt|Hge].
  - rewrite lookup_app_l in Hk by done.
    rewrite take_app_le by lia. by apply Hall.
  - rewrite lookup_app_r in Hk by lia.
    apply list_lookup_singleton_Some in Hk as [Hk <-].
    assert (k = length new) as -> by lia.
    rewrite take_app_length. rewrite <- Hnew.
    split; [done|]. exists A, B. split_and!; try done.
    unfold MinesweeperAI.reduced. by rewrite Hmv.
Qed.

Lemma inner_loop_frame (fuel : nat) (A : Sentence.t) (j : nat)
      (s s' : MinesweeperAI.t) :
  A ∈ knowledge s → cells A ≠ ∅ →
  MinesweeperAI.inner_loop fuel A j s = Some s' →
  moves_made s' = moves_made s ∧ ∃ new, knowledge s' = knowledge s ++ new.
Proof.
  intros HA Hne Hrun.
  apply inner_loop_steps, steps_appended in Hrun as (? & new & ? & _); eauto.
Qed.

Lemma outer_loop_frame (fuel : nat) (i : nat) (s s' : MinesweeperAI.t) :
  MinesweeperAI.outer_loop fuel i s = Some s' →
  moves_made s' = moves_made s ∧ ∃ new, knowledge s' = knowledge s ++ new.
Proof.
  intros Hrun.
  apply outer_loop_steps, steps_appended in Hrun as (? & new & ? & _); eauto.
Qed.

Lemma reduced_moves (s s' : MinesweeperAI.t) (A B : Sentence.t) :
  moves_made s' = moves_made s →
  MinesweeperAI.reduced s' A B = MinesweeperAI.reduced s A B.
Proof. intros Hmv. unfold MinesweeperAI.reduced. by rewrite Hmv. Qed.

(** When the inner loop for [A] ends, every sentence [B] from index [j] on
    has been met: what [A] and [B] give is in the list. *)
Lemma inner_loop_complete (fuel : nat) (A : Sentence.t) :
  ∀ (j : nat) (s s' : MinesweeperAI.t),
    A ∈ knowledge s → cells A ≠ ∅ →
    MinesweeperAI.inner_loop fuel A j s = Some s' →
    ∀ j' B, (j ≤ j')%nat → knowledge s' !! j' = Some B →
            A ≠ B → cells B ≠ ∅ → cells A ⊆ cells B →
            MinesweeperAI.reduced s A B ∈ knowledge s'.
Proof.
  induction fuel as [|fuel IH]; intros j s s' HA HAc Hrun; [done|].
  simpl in Hrun. destruct (knowledge s !! j) as [B0|] eqn:Hj.
  2:{ injection Hrun as <-. intros j' B Hle Hj'.
      apply lookup_ge_None in Hj. apply lookup_lt_Some in Hj'. lia. }
  set (s1 := MinesweeperAI.set_knowledge
               (knowledge s ++ [MinesweeperAI.reduced s A B0]) s) in *.
  assert (HA1 : A ∈ knowledge s1) by (simpl; apply elem_of_app; by left).
  (* the rest of the loop runs from [s] or from [s1] *)
  assert (Hrest : ∃ t, (t = s ∨ t = s1)
      ∧ MinesweeperAI.inner_loop fuel A (S j) t = Some s'
      ∧ (A ≠ B0 → cells B0 ≠ ∅ → cells A ⊆ cells B0 →
         MinesweeperAI.reduced s A B0 ∈ knowledge t)).
  { revert Hrun.
    destruct (decide (A = B0));
      [intros; exists s; split_and!; [by left|done|by intros]|].
    destruct (decide (Sentence.len (cells B0) ≠ 0)) as [|Hz].
    2:{ intros. exists s. split_and!; [by left|done|]. intros _ Hne.
        apply dec_stable in Hz. by apply len_zero in Hz. }
    destruct (decide (cells A ⊆ cells B0));
      [|intros; exists s; split_and!; [by left|done|by intros]].
    destruct (decide (MinesweeperAI.reduced s A B0 ∉ knowledge s)) as [|Hin].
    - intros. exists s1. split_and!; [by right|done|]. intros _ _ _. simpl.
      apply elem_of_app. right. by apply list_elem_of_singleton.
    - intros. exists s. split_and!; [by left|done|]. intros _ _ _.
      by apply dec_stable in Hin. }
  destruct Hrest as (t & Ht & Hrun' & Hdone).
  assert (HAt : A ∈ knowledge t) by (by destruct Ht as [-> | ->]).
  assert (Hmvt : moves_made t = moves_made s) by (by destruct Ht as [-> | ->]).
  assert (Hpre : ∃ new, knowledge t = knowledge s ++ new).
  { destruct Ht as [-> | ->]; [exists []; by rewrite app_nil_r|by eexists]. }
  destruct Hpre as [new1 Hnew1].
  destruct (inner_loop_frame _ _ _ _ _ HAt HAc Hrun') as (_ & new & Hnew).
  intros j' B Hle Hj' Hne HBc Hsub.
  destruct (decide (j' = j)) as [->|Hne'].
  - assert (B = B0) as ->.
    { rewrite Hnew, Hnew1, <- app_assoc in Hj'.
      rewrite lookup_app_l in Hj' by (by eapply lookup_lt_Some). congruence. }
    rewrite Hnew. apply elem_of_app. left. by apply Hdone.
  - rewrite <- (reduced_moves s t) by done.
    apply (IH (S j) t s' HAt HAc Hrun' j' B); [lia|done..].
Qed.

(** When the outer loop ends, every pair of sentences ([A] at [i'] from
    index [i] on, [B] at [j']) such that [B] stood in the list when the
    loop started, or stands at or before [A], has been met. *)
Lemma outer_loop_complete (fuel : nat) :
  ∀ (i : nat) (s s' : MinesweeperAI.t),
    MinesweeperAI.outer_loop fuel i s = Some s' →
    ∀ i' j' A B, (i ≤ i')%nat →
      knowledge s' !! i' = Some A → knowledge s' !! j' = Some B →
      (j' < length (knowledge s) ∨ j' ≤ i')%nat →
      A ≠ B → cells A ≠ ∅ → cells B ≠ ∅ → cells A ⊆ cells B →
      MinesweeperAI.reduced s A B ∈ knowledge s'.
Proof.
  induction fuel as [|fuel IH]; intros i s s' Hrun; [done|].
  simpl in Hrun. destruct (knowledge s !! i) as [A0|] eqn:Hi.
  2:{ injection Hrun as <-. intros i' j' A B Hle Hi'.
      apply lookup_ge_None in Hi. apply lookup_lt_Some in Hi'. lia. }
  pose proof (lookup_lt_Some _ _ _ Hi) as Hlt.
  assert (HA0 : A0 ∈ knowledge s) by (by eapply list_elem_of_lookup_2).
  destruct (decide (Sentence.len (cells A0) ≠ 0)) as [Hnz|Hz].
  - assert (HA0c : cells A0 ≠ ∅) by (by rewrite <- len_zero).
    destruct (MinesweeperAI.inner_loop fuel A0 0 s) as [s1|] eqn:Hin; [|done].
    destruct (inner_loop_frame _ _ _ _ _ HA0 HA0c Hin) as (Hmv1 & new1 & Hnew1).
    destruct (outer_loop_frame _ _ _ _ Hrun) as (Hmv & new & Hnew).
    intros i' j' A B Hle Hi' Hj' Hwhere Hne HAc HBc Hsub.
    destruct (decide (i' = i)) as [->|Hne'].
    + assert (A = A0) as ->.
      { rewrite Hnew, Hnew1, <- app_assoc in Hi'.
        rewrite lookup_app_l in Hi' by done. congruence. }
      assert (Hj1 : knowledge s1 !! j' = Some B).
      { rewrite Hnew in Hj'. rewrite lookup_app_l in Hj'; [done|].
        rewrite Hnew1, length_app. lia. }
      rewrite Hnew. apply elem_of_app. left.
      apply (inner_loop_complete fuel A0 0 s s1 HA0 HA0c Hin j' B); [lia|done..].
    + rewrite <- (reduced_moves s s1) by done.
      apply (IH (S i) s1 s' Hrun i' j' A B); [lia|done|done| |done..].
      rewrite Hnew1, length_app. lia.
  - intros i' j' A B Hle Hi' Hj' Hwhere Hne HAc HBc Hsub.
    destruct (decide (i' = i)) as [->|Hne'].
    + destruct (outer_loop_frame _ _ _ _ Hrun) as (Hmv & new & Hnew).
      assert (A = A0) as ->.
      { rewrite Hnew in Hi'. rewrite lookup_app_l in Hi' by done. congruence. }
      apply dec_stable in Hz. by apply len_zero in Hz.
    + apply (IH (S i) s s' Hrun i' j' A B); [lia|done..].
Qed.

(** ** Choosing a move *)

Lemma make_safe_move_loop_spec (order : list Cell) (self : MinesweeperAI.t) :
  (∀ c, MinesweeperAI.make_safe_move_loop order self = Some c →
        c ∈ order ∧ c ∉ moves_made self)
  ∧ (MinesweeperAI.make_safe_move_loop order self = None
     ↔ ∀ c, c ∈ order → c ∈ moves_made self).
Proof.
  induction order as [|safe order [IHsome IHnone]]; simpl.
  - split; [done|]. split; [|done]. intros _ c Hc. by apply elem_of_nil in Hc.
  - destruct (decide (safe ∉ moves_made self)) as [Hfree|Hmade].
    + split.
      * intros c [= <-]. split; [left|done].
      * split; [done|]. intros Hall. destruct Hfree. apply Hall. left.
    + apply dec_stable in Hmade. split.
      * intros c Hc. destruct (IHsome c Hc). split; [by right|done].
      * rewrite IHnone. split.
        -- intros Hall c Hc. apply elem_of_cons in Hc as [->|Hc]; auto.
        -- intros Hall c Hc. apply Hall. by right.
Qed.

Lemma safe_move_from_order (order : list Cell) (self : MinesweeperAI.t) :
  (∀ c, c ∈ order ↔ c ∈ safes self) →
  (∀ c, MinesweeperAI.make_safe_move_loop order self = Some c →
        c ∈ safes self ∖ moves_made self)
  ∧ (MinesweeperAI.make_safe_move_loop order self = None
     ↔ safes self ∖ moves_made self = ∅).
Proof.
  intros Horder. destruct (make_safe_move_loop_spec order self) as [Hsome Hnone].
  split.
  - intros c Hc. destruct (Hsome c Hc) as [Hin Hfree].
    apply elem_of_difference. split; [by apply Horder|done].
  - rewrite Hnone. split.
    + intros Hall. apply set_eq. intros c.
      rewrite elem_of_difference. split; [|by intros ?%not_elem_of_empty].
      intros [Hc Hfree]. destruct Hfree. by apply Hall, Horder.
    + intros Hempty c Hc. destruct (decide (c ∈ moves_made self)); [done|].
      exfalso. apply (not_elem_of_empty (C:=gset Cell) c). rewrite <- Hempty.
      apply elem_of_difference. split; [by apply Horder|done].
Qed.

Lemma elem_of_all_cells (self : MinesweeperAI.t) (c : Cell) :
  c ∈ MinesweeperAI.all_cells self ↔ in_bounds (height self) (width self) c.
Proof.
  unfold MinesweeperAI.all_cells.
  rewrite (foldl_pairs (λ (acc : gset Cell) (c : Cell), {[c]} ∪ acc)).
  assert (Hfold : ∀ (l : list Cell) (acc : gset Cell),
            foldl (λ (acc : gset Cell) (c : Cell), {[c]} ∪ acc) acc l
            = list_to_set l ∪ acc).
  { induction l as [|x l IH]; intros acc; simpl; [set_solver|].
    rewrite IH. set_solver. }
  rewrite Hfold, elem_of_union, elem_of_list_to_set, elem_of_pairs,
    !elem_of_range.
  unfold in_bounds. rewrite elem_of_empty. lia.
Qed.

Lemma sample_one_spec (r : nat) (X : gset Cell) :
  X ≠ ∅ →
  ∃ c, c ∈ X ∧ MinesweeperAI.sample_one MinesweeperAI.SamplesSets r X
               = MinesweeperAI.Returned c.
Proof.
  intros Hne. unfold MinesweeperAI.sample_one.
  assert (Hlen : (0 < length (elements X))%nat).
  { destruct (elements X) eqn:Hel; [|simpl; lia].
    apply elements_empty_inv in Hel. destruct Hne. by apply leibniz_equiv. }
  destruct (elements X !! (r mod length (elements X))%nat) as [c|] eqn:Hc.
  - exists c. split; [|done]. apply elem_of_elements.
    by apply list_elem_of_lookup_2 in Hc.
  - apply lookup_ge_None in Hc.
    pose proof (Nat.mod_upper_bound r (length (elements X))). lia.
Qed.

Lemma sample_one_any (X : gset Cell) (c : Cell) :
  c ∈ X →
  ∃ r, MinesweeperAI.sample_one MinesweeperAI.SamplesSets r X
       = MinesweeperAI.Returned c.
Proof.
  intros Hc. apply elem_of_elements, list_elem_of_lookup in Hc as [i Hi].
  exists i. unfold MinesweeperAI.sample_one.
  rewrite Nat.mod_small by (by eapply lookup_lt_Some). by rewrite Hi.
Qed.

(** ** The inference can fail to end *)

Example diverging_three_reached :
  MinesweeperAI.feed 30 diverging_start (MinesweeperAI.init 1 5)
  = Some diverging_three.
Proof. by_compute. Qed.

Example diverging_mid_knowledge :
  knowledge diverging_mid
  = [Sentence {[(0, 2)]} 5; Sentence {[(0, 2); (0, 4)]} 7;
     Sentence {[(0, 2); (0, 4)]} 9; Sentence ∅ 2; Sentence ∅ (-2)].
Proof. by_compute. Qed.

(** With the sentences {(0,2)} = 5, {(0,2),(0,4)} = 7 and
    {(0,2),(0,4)} = 9 in the list, every sentence {(0,2)} = d that the
    loops meet brings {(0,4)} = 9 - d and then {(0,2)} = d - 2: no
    amount of fuel is enough. *)
Lemma infer_diverges (fuel : nat) : MinesweeperAI.infer fuel diverging_mid = None.
Proof.
  destruct (MinesweeperAI.infer fuel diverging_mid) as [s'|] eqn:Hrun; [|done].
  exfalso.
  pose proof (outer_loop_complete fuel 0 diverging_mid s' Hrun) as Hmeet.
  destruct (outer_loop_frame _ _ _ _ Hrun) as (_ & new & Hnew).
  rewrite diverging_mid_knowledge in Hnew.
  assert (Hlen : length (knowledge diverging_mid) = 5%nat)
    by (by rewrite diverging_mid_knowledge).
  assert (Hdown : ∀ d, Sentence {[(0, 2)]} d ∈ knowledge s' →
                       Sentence {[(0, 2)]} (d - 2) ∈ knowledge s').
  { intros d Hd. apply list_elem_of_lookup in Hd as [i Hi].
    assert (Hup : Sentence {[(0, 4)]} (9 - d) ∈ knowledge s').
    { replace (Sentence {[(0, 4)]} (9 - d))
        with (MinesweeperAI.reduced diverging_mid (Sentence {[(0, 2)]} d)
                (Sentence {[(0, 2); (0, 4)]} 9))
        by (unfold MinesweeperAI.reduced; cbn [cells count]; f_equal; by_compute).
      apply (Hmeet i 2%nat); [lia|done|by rewrite Hnew|lia| | | |].
      - intros Heq. apply (f_equal cells) in Heq. revert Heq. by_compute.
      - by_compute.
      - by_compute.
      - by_compute. }
    apply list_elem_of_lookup in Hup as [i' Hi'].
    replace (Sentence {[(0, 2)]} (d - 2))
      with (MinesweeperAI.reduced diverging_mid (Sentence {[(0, 4)]} (9 - d))
              (Sentence {[(0, 2); (0, 4)]} 7))
      by (unfold MinesweeperAI.reduced; cbn [cells count]; f_equal;
          (lia || by_compute)).
    apply (Hmeet i' 1%nat); [lia|done|by rewrite Hnew|lia| | | |].
    - intros Heq. apply (f_equal cells) in Heq. revert Heq. by_compute.
    - by_compute.
    - by_compute.
    - by_compute. }
  assert (Hall : ∀ n : nat, Sentence {[(0, 2)]} (5 - 2 * Z.of_nat n) ∈ knowledge s').
  { induction n as [|n IH].
    - rewrite Hnew. left.
    - replace (5 - 2 * Z.of_nat (S n)) with (5 - 2 * Z.of_nat n - 2) by lia.
      by apply Hdown. }
  assert (Hinj : Inj (=) (=) (λ n : nat, Sentence {[(0, 2)]} (5 - 2 * Z.of_nat n))).
  { intros n m Heq. apply (f_equal count) in Heq. simpl in Heq. lia. }
  pose proof (NoDup_fmap_2 (λ n : nat, Sentence {[(0, 2)]} (5 - 2 * Z.of_nat n))
                (seq 0 (S (length (knowledge s')))) (NoDup_seq _ _)) as Hnd.
  apply NoDup_submseteq with (k := knowledge s') in Hnd.
  - apply submseteq_length in Hnd. rewrite length_fmap, length_seq in Hnd. lia.
  - intros S HS. apply list_elem_of_fmap in HS as (n & -> & _). apply Hall.
Qed.

Lemma run_app (fuel : nat) (ops1 ops2 : list MinesweeperAI.op)
      (s : MinesweeperAI.t) :
  MinesweeperAI.run fuel (ops1 ++ ops2) s
  = MinesweeperAI.run fuel ops1 s ≫= MinesweeperAI.run fuel ops2.
Proof.
  revert s. induction ops1 as [|o ops1 IH]; intros s; [done|].
  cbn [app MinesweeperAI.run].
  destruct (MinesweeperAI.exec fuel o s); [apply IH|done].
Qed.

Lemma feed_app (fuel : nat) (obs1 obs2 : list (Cell * Z)) (s : MinesweeperAI.t) :
  MinesweeperAI.feed fuel (obs1 ++ obs2) s
  = MinesweeperAI.feed fuel obs1 s ≫= MinesweeperAI.feed fuel obs2.
Proof. unfold MinesweeperAI.feed. by rewrite fmap_app, run_app. Qed.

Lemma feed_fuel (fuel fuel' : nat) (obs : list (Cell * Z))
      (s s' : MinesweeperAI.t) :
  (fuel ≤ fuel')%nat → MinesweeperAI.feed fuel obs s = Some s' →
  MinesweeperAI.feed fuel' obs s = Some s'.
Proof. unfold MinesweeperAI.feed. apply run_fuel. Qed.

Lemma fourth_call_diverges (fuel : nat) :
  MinesweeperAI.add_knowledge fuel (0, 0) 0 diverging_three = None.
Proof. exact (infer_diverges fuel). Qed.

(** The fourth call of the game never returns. *)
Lemma add_knowledge_can_diverge (fuel : nat) :
  MinesweeperAI.feed fuel (diverging_start ++ [((0, 0), 0)])
                     (MinesweeperAI.init 1 5) = None.
Proof.
  rewrite feed_app.
  destruct (MinesweeperAI.feed fuel diverging_start (MinesweeperAI.init 1 5))
    as [s3|] eqn:H3; [|done].
  assert (s3 = diverging_three) as ->.
  { apply (feed_fuel fuel (fuel `max` 30)) in H3; [|lia].
    pose proof (feed_fuel 30 (fuel `max` 30) _ _ _ ltac:(lia)
                  diverging_three_reached) as H30.
    rewrite H30 in H3. by injection H3. }
  cbn [mbind option_bind]. rewrite feed_cons. cbn [fst snd].
  by rewrite fourth_call_diverges.
Qed.

(** * The claims *)

(** C10: [mark_mine] of the agent adds the cell to [mines] and strikes it
    out of the sentences that have it, lowering their count by one;
    [safes], [moves_made], the size of the grid, the length of the list
    and the sentences without the cell stay as they are.  [mark_safe] does
    the same with [safes], keeps the counts and leaves [mines] alone. *)
Theorem agent_mark_frame (self : MinesweeperAI.t) (c : Cell) :
  (mines (MinesweeperAI.mark_mine c self) = {[c]} ∪ mines self
   ∧ safes (MinesweeperAI.mark_mine c self) = safes self
   ∧ moves_made (MinesweeperAI.mark_mine c self) = moves_made self
   ∧ height (MinesweeperAI.mark_mine c self) = height self
   ∧ width (MinesweeperAI.mark_mine c self) = width self
   ∧ length (knowledge (MinesweeperAI.mark_mine c self)) = length (knowledge self)
   ∧ ∀ i S, knowledge self !! i = Some S →
       (c ∉ cells S → knowledge (MinesweeperAI.mark_mine c self) !! i = Some S)
       ∧ (c ∈ cells S → knowledge (MinesweeperAI.mark_mine c self) !! i
                         = Some (Sentence (cells S ∖ {[c]}) (count S - 1))))
  ∧ (safes (MinesweeperAI.mark_safe c self) = {[c]} ∪ safes self
     ∧ mines (MinesweeperAI.mark_safe c self) = mines self
     ∧ moves_made (MinesweeperAI.mark_safe c self) = moves_made self
     ∧ height (MinesweeperAI.mark_safe c self) = height self
     ∧ width (MinesweeperAI.mark_safe c self) = width self
     ∧ length (knowledge (MinesweeperAI.mark_safe c self)) = length (knowledge self)
     ∧ ∀ i S, knowledge self !! i = Some S →
         (c ∉ cells S → knowledge (MinesweeperAI.mark_safe c self) !! i = Some S)
         ∧ (c ∈ cells S → knowledge (MinesweeperAI.mark_safe c self) !! i
                           = Some (Sentence (cells S ∖ {[c]}) (count S)))).
Proof.
  split; simpl; (split_and!; try done; [by rewrite length_fmap|]);
    intros i S Hi; rewrite list_lookup_fmap, Hi; simpl;
    unfold Sentence.mark_mine, Sentence.mark_safe;
    (split; intros Hc; [by rewrite decide_False|by rewrite decide_True]).
Qed.

Lemma agent_mark_frame_witness :
  knowledge (MinesweeperAI.mark_mine (0, 1) two_sentences) !! 0%nat
    = Some (Sentence {[(1, 1)]} 0)
  ∧ knowledge (MinesweeperAI.mark_mine (0, 1) two_sentences) !! 1%nat
    = Some (Sentence {[(1, 0)]} 0)
  ∧ knowledge (MinesweeperAI.mark_safe (1, 0) two_sentences) !! 0%nat
    = Some (Sentence {[(0, 1); (1, 1)]} 1)
  ∧ knowledge (MinesweeperAI.mark_safe (1, 0) two_sentences) !! 1%nat
    = Some (Sentence ∅ 0).
Proof.
  destruct (agent_mark_frame two_sentences (0, 1)) as [(_ & _ & _ & _ & _ & _ & Hm) _].
  destruct (agent_mark_frame two_sentences (1, 0)) as [_ (_ & _ & _ & _ & _ & _ & Hs)].
  destruct (Hm 0%nat (Sentence {[(0, 1); (1, 1)]} 1) eq_refl) as [_ Hm0].
  destruct (Hm 1%nat (Sentence {[(1, 0)]} 0) eq_refl) as [Hm1 _].
  destruct (Hs 0%nat (Sentence {[(0, 1); (1, 1)]} 1) eq_refl) as [Hs0 _].
  destruct (Hs 1%nat (Sentence {[(1, 0)]} 0) eq_refl) as [_ Hs1].
  split; [rewrite Hm0; [reflexivity|by_compute]|].
  split; [apply Hm1; by_compute|].
  split; [apply Hs0; by_compute|].
  rewrite Hs1; [reflexivity|by_compute].
Defined.

(** Scenario A of the specification: on an empty board of three rows and
    columns the corner with count zero gives one sentence over its three
    neighbours, and the pass that follows marks the three safe. *)
Example scenario_a :
  knowledge (MinesweeperAI.observe (0, 0) 0 (MinesweeperAI.init 3 3))
  = [Sentence {[(0, 1); (1, 0); (1, 1)]} 0]
  ∧ safes (MinesweeperAI.propagate
             (MinesweeperAI.observe (0, 0) 0 (MinesweeperAI.init 3 3)))
    = {[(0, 0); (0, 1); (1, 0); (1, 1)]}.
Proof. split; by_compute. Qed.

(** ** Games *)

Lemma consistent_scenario_c : Forall (consistent scenario_c_board) scenario_c_obs.
Proof.
  unfold scenario_c_obs. repeat constructor; unfold in_bounds; simpl; lia.
Qed.

Lemma consistent_corners : Forall (consistent corners_board) corners_obs.
Proof.
  unfold corners_obs. repeat constructor; unfold in_bounds; simpl; lia.
Qed.

Example scenario_c_two_reached :
  MinesweeperAI.feed 30 (take 2 scenario_c_obs) (MinesweeperAI.init 2 4)
  = Some scenario_c_two.
Proof. by_compute. Qed.

Example wrong_one_reached :
  MinesweeperAI.feed 30 (take 1 wrong_obs) (MinesweeperAI.init 2 2)
  = Some wrong_one.
Proof. by_compute. Qed.

(** C4: in a game where every cell given to [add_knowledge] is a cell of
    the board without a mine and every count is the number of mines
    around it, every call returns, and after any number of calls no cell
    is both in [mines] and in [safes] and no sentence of the list has a
    cell of [mines] or of [safes]. *)
Theorem consistent_game_invariant (g : Minesweeper.t) (obs : list (Cell * Z)) :
  Forall (consistent g) obs →
  (∃ fuel self,
      MinesweeperAI.feed fuel obs
        (MinesweeperAI.init (Minesweeper.height g) (Minesweeper.width g))
      = Some self)
  ∧ ∀ k fuel self,
      MinesweeperAI.feed fuel (take k obs)
        (MinesweeperAI.init (Minesweeper.height g) (Minesweeper.width g))
      = Some self →
      mines self ∩ safes self = ∅
      ∧ ∀ S, S ∈ knowledge self → cells S ∩ (mines self ∪ safes self) = ∅.
Proof.
  intros Hobs. split.
  - apply (feed_terminates g obs Hobs); [done|done|apply truthful_init].
  - intros k fuel self Hrun.
    destruct (feed_sound g fuel (take k obs) (Forall_take _ _ _ Hobs)
                (MinesweeperAI.init (Minesweeper.height g) (Minesweeper.width g))
                self eq_refl eq_refl (truthful_init _ _ _) (stripped_init _ _)
                Hrun) as [(Hm & Hs & _) Hstr].
    split.
    + apply set_eq. intros c. rewrite elem_of_intersection, elem_of_empty.
      split; [|done]. intros [Hcm Hcs]. by apply (Hs c), Hm.
    + intros S HS. specialize (Hstr S HS). apply set_eq. intros c.
      rewrite elem_of_intersection, elem_of_empty.
      split; [|done]. intros [Hc Hset]. by apply (Hstr c).
Qed.

Lemma consistent_game_invariant_witness :
  (∃ fuel self,
      MinesweeperAI.feed fuel scenario_c_obs (MinesweeperAI.init 2 4) = Some self)
  ∧ ∀ k fuel self,
      MinesweeperAI.feed fuel (take k scenario_c_obs) (MinesweeperAI.init 2 4)
      = Some self →
      mines self ∩ safes self = ∅
      ∧ ∀ S, S ∈ knowledge self → cells S ∩ (mines self ∪ safes self) = ∅.
Proof.
  apply (consistent_game_invariant scenario_c_board scenario_c_obs).
  unfold scenario_c_obs, consistent, in_bounds.
  repeat constructor; simpl; (lia || (vm_compute; reflexivity)).
Defined.

(** ** Appends *)

Lemma NoDup_snoc (K : list Sentence.t) (R : Sentence.t) :
  NoDup K → R ∉ K → NoDup (K ++ [R]).
Proof.
  intros HK HR. apply NoDup_app. split_and!; [done| |apply NoDup_singleton].
  intros S HS ->%list_elem_of_singleton. done.
Qed.

Lemma NoDup_add_new_sentence (cell : Cell) (n : Z) (s : MinesweeperAI.t) :
  NoDup (knowledge s) → NoDup (knowledge (MinesweeperAI.add_new_sentence cell n s)).
Proof.
  intros HK. unfold MinesweeperAI.add_new_sentence.
  destruct (MinesweeperAI.return_neighbors cell s) as [nb mc].
  repeat case_decide; try done. simpl. by apply NoDup_snoc.
Qed.

Lemma NoDup_infer (fuel : nat) (s s' : MinesweeperAI.t) :
  NoDup (knowledge s) → MinesweeperAI.infer fuel s = Some s' →
  NoDup (knowledge s').
Proof.
  apply (infer_ind (λ s, NoDup (knowledge s))).
  intros s1 s2 H1 (A & B & _ & _ & _ & _ & _ & _ & Hnew & ->). simpl.
  by apply NoDup_snoc.
Qed.

Lemma sound_non_degenerate (board : gset Cell) (S : Sentence.t) :
  sound board S → non_degenerate S.
Proof.
  unfold sound, non_degenerate, Sentence.len. intros ->.
  assert (size (cells S ∩ board) ≤ size (cells S))%nat
    by apply subseteq_size, intersection_subseteq_l.
  lia.
Qed.

(** C6, as the code has it: the list of a game need not be free of
    duplicates.  On an empty board of three rows and columns, after two
    opposite corners the two sentences of the list are both the empty
    sentence with count zero. *)
Lemma knowledge_has_duplicates :
  Forall (consistent corners_board) corners_obs
  ∧ ∃ self, MinesweeperAI.feed 30 corners_obs (MinesweeperAI.init 3 3) = Some self
      ∧ knowledge self = [Sentence ∅ 0; Sentence ∅ 0]
      ∧ ¬ NoDup (knowledge self).
Proof.
  split; [apply consistent_corners|].
  eexists. split; [vm_compute; reflexivity|]. split; [reflexivity|].
  intros Hnd. apply NoDup_cons in Hnd as [Hnotin _]. apply Hnotin. left.
Qed.

(** C3, as the code has it: the inference has no test on the sentence it
    deduces.  With two counts that no board gives, the list holds two
    sentences over the same two cells with counts 1 and 3, and the
    inference appends the empty sentence with count 2. *)
Lemma inference_appends_degenerate :
  MinesweeperAI.feed 30 (take 1 wrong_obs) (MinesweeperAI.init 2 2) = Some wrong_one
  ∧ Sentence {[(0, 1); (1, 1)]} 1 ∈ knowledge wrong_mid
  ∧ Sentence {[(0, 1); (1, 1)]} 3 ∈ knowledge wrong_mid
  ∧ MinesweeperAI.reduced wrong_mid (Sentence {[(0, 1); (1, 1)]} 1)
                                    (Sentence {[(0, 1); (1, 1)]} 3)
    = Sentence ∅ 2
  ∧ (Sentence ∅ 2 ∉ knowledge wrong_mid)
  ∧ ¬ non_degenerate (Sentence ∅ 2)
  ∧ ∃ self', MinesweeperAI.infer 30 wrong_mid = Some self'
             ∧ Sentence ∅ 2 ∈ knowledge self'.
Proof.
  split; [by_compute|]. split; [by_compute|]. split; [by_compute|].
  split; [by_compute|]. split; [by_compute|].
  split; [unfold non_degenerate; vm_compute; intros [_ H]; by apply H|].
  eexists. split; [vm_compute; reflexivity|]. by_compute.
Qed.

(** C2, evaluated: the marking pass runs once, before the inference.  In
    scenario C the three cells revealed are consistent with the board;
    when the third call returns the list holds {(0,0),(0,1)} = 1,
    {(0,0),(0,1),(0,2)} = 1 and the sentence {(0,2)} = 0 deduced from
    them, whose cell is known safe by [known_safes], and (0,2) is not in
    [safes]. *)
Theorem propagation_stops_short :
  Forall (consistent scenario_c_board) scenario_c_obs
  ∧ ∃ self, MinesweeperAI.feed 30 scenario_c_obs (MinesweeperAI.init 2 4) = Some self
      ∧ Sentence {[(0, 0); (0, 1)]} 1 ∈ knowledge self
      ∧ Sentence {[(0, 0); (0, 1); (0, 2)]} 1 ∈ knowledge self
      ∧ Sentence {[(0, 2)]} 0 ∈ knowledge self
      ∧ Sentence.known_safes (Sentence {[(0, 2)]} 0) = {[(0, 2)]}
      ∧ ((0, 2) ∉ safes self)
      ∧ ¬ (∀ S, S ∈ knowledge self →
                Sentence.known_mines S ⊆ mines self
                ∧ Sentence.known_safes S ⊆ safes self).
Proof.
  split; [apply consistent_scenario_c|].
  eexists. split; [vm_compute; reflexivity|].
  assert (Hin : Sentence {[(0, 2)]} 0 ∈ [Sentence {[(0, 1); (0, 2); (0, 3); (1, 3)]} 1;
            Sentence {[(0, 0); (0, 1)]} 1; Sentence {[(0, 0); (0, 1); (0, 2)]} 1;
            Sentence {[(0, 2)]} 0; Sentence {[(0, 1); (0, 3); (1, 3)]} 1])
    by by_compute.
  assert (Hout : (0, 2) ∉ ({[(1, 2); (1, 0); (1, 1)]} : gset Cell)) by by_compute.
  split; [by_compute|]. split; [by_compute|]. split; [by_compute|].
  split; [by_compute|]. split; [by_compute|].
  intros Hall. destruct (Hall _ Hin) as [_ Hsafe].
  apply Hout, Hsafe. by_compute.
Qed.

(** * Further properties *)

(** * Further properties *)

(** ** The two rules of a sentence *)

(** X1: on a sentence that is true of a board the two rules tell the
    truth: every cell of [known_mines] is a mine of the board and no cell
    of [known_safes] is. *)
Theorem sentence_rules_sound (board : gset Cell) (S : Sentence.t) :
  sound board S →
  Sentence.known_mines S ⊆ board ∧ Sentence.known_safes S ## board.
Proof.
  intros HS. unfold Sentence.known_mines, Sentence.known_safes. split.
  - case_decide; [by apply sound_full|apply empty_subseteq].
  - case_decide; [by apply sound_zero|apply disjoint_empty_l].
Qed.

Lemma sentence_rules_sound_witness :
  Sentence.known_mines (Sentence {[(0, 1); (1, 1)]} 2) ⊆ {[(0, 1); (1, 1); (2, 2)]}
  ∧ Sentence.known_safes (Sentence {[(0, 1); (1, 1)]} 2) ## {[(0, 1); (1, 1); (2, 2)]}.
Proof.
  apply (sentence_rules_sound {[(0, 1); (1, 1); (2, 2)]}
           (Sentence {[(0, 1); (1, 1)]} 2)).
  unfold sound. vm_compute. reflexivity.
Defined.

(** X2: a sentence never gives the same cell as a mine and as safe. *)
Theorem known_cells_disjoint (S : Sentence.t) :
  Sentence.known_mines S ## Sentence.known_safes S.
Proof.
  unfold Sentence.known_mines, Sentence.known_safes.
  case_decide as Hfull; [|apply disjoint_empty_l].
  case_decide as Hzero; [|apply disjoint_empty_r].
  rewrite Hzero in Hfull. apply len_zero in Hfull. rewrite Hfull.
  apply disjoint_empty_l.
Qed.

(** X3: striking a cell out of a true sentence leaves a true sentence,
    as a mine when the cell is a mine of the board and as a safe cell
    when it is not. *)
Theorem sentence_mark_sound (board : gset Cell) (S : Sentence.t) (c : Cell) :
  sound board S →
  (c ∈ board → sound board (Sentence.mark_mine c S))
  ∧ (c ∉ board → sound board (Sentence.mark_safe c S)).
Proof.
  intros HS. split; intros Hc; [by apply sound_mark_mine|by apply sound_mark_safe].
Qed.

Lemma sentence_mark_sound_witness :
  sound {[(0, 1)]} (Sentence.mark_mine (0, 1) (Sentence {[(0, 1); (1, 1)]} 1))
  ∧ sound {[(0, 1)]} (Sentence.mark_safe (1, 1) (Sentence {[(0, 1); (1, 1)]} 1)).
Proof.
  assert (HS : sound {[(0, 1)]} (Sentence {[(0, 1); (1, 1)]} 1))
    by (unfold sound; vm_compute; reflexivity).
  split.
  - apply (sentence_mark_sound {[(0, 1)]} _ (0, 1) HS). by_compute.
  - apply (sentence_mark_sound {[(0, 1)]} _ (1, 1) HS). by_compute.
Defined.

(** ** Marking in any order *)

Lemma sentence_mark_mixed_comm (a b : Cell) (S : Sentence.t) :
  a ≠ b →
  Sentence.mark_mine a (Sentence.mark_safe b S)
  = Sentence.mark_safe b (Sentence.mark_mine a S).
Proof.
  intros Hne.
  assert (Hin : ∀ x y : Cell, x ≠ y → ∀ X : gset Cell, x ∈ X ∖ {[y]} ↔ x ∈ X).
  { intros x y Hxy X. rewrite elem_of_difference, elem_of_singleton. tauto. }
  assert (Es : Sentence.mark_safe b S
               = if decide (b ∈ cells S)
                 then Sentence (cells S ∖ {[b]}) (count S) else S) by done.
  assert (Em : Sentence.mark_mine a S
               = if decide (a ∈ cells S)
                 then Sentence (cells S ∖ {[a]}) (count S - 1) else S) by done.
  rewrite Es, Em. clear Es Em.
  unfold Sentence.mark_mine, Sentence.mark_safe.
  destruct (decide (b ∈ cells S)) as [Hb|Hb], (decide (a ∈ cells S)) as [Ha|Ha];
    simpl.
  - rewrite !decide_True by (by apply Hin). f_equal; set_solver.
  - rewrite decide_False by (by rewrite Hin). by rewrite decide_True.
  - rewrite decide_False; [done|]. rewrite Hin; [done|]. by intros ->.
  - by rewrite !decide_False.
Qed.

Lemma sentence_mark_mine_idemp (c : Cell) (S : Sentence.t) :
  Sentence.mark_mine c (Sentence.mark_mine c S) = Sentence.mark_mine c S.
Proof.
  assert (Hout : c ∉ cells (Sentence.mark_mine c S)).
  { unfold Sentence.mark_mine. case_decide; simpl; [|done].
    rewrite elem_of_difference, elem_of_singleton. tauto. }
  unfold Sentence.mark_mine at 1. by rewrite decide_False.
Qed.

Lemma sentence_mark_safe_idemp (c : Cell) (S : Sentence.t) :
  Sentence.mark_safe c (Sentence.mark_safe c S) = Sentence.mark_safe c S.
Proof.
  assert (Hout : c ∉ cells (Sentence.mark_safe c S)).
  { unfold Sentence.mark_safe. case_decide; simpl; [|done].
    rewrite elem_of_difference, elem_of_singleton. tauto. }
  unfold Sentence.mark_safe at 1. by rewrite decide_False.
Qed.

(** X4: the agent's markings of different cells can be made in any
    order, and marking a cell a second time in the same way changes
    nothing. *)
Theorem agent_marks_commute (s : MinesweeperAI.t) (a b : Cell) :
  MinesweeperAI.mark_mine a (MinesweeperAI.mark_mine b s)
  = MinesweeperAI.mark_mine b (MinesweeperAI.mark_mine a s)
  ∧ MinesweeperAI.mark_safe a (MinesweeperAI.mark_safe b s)
    = MinesweeperAI.mark_safe b (MinesweeperAI.mark_safe a s)
  ∧ (a ≠ b →
     MinesweeperAI.mark_mine a (MinesweeperAI.mark_safe b s)
     = MinesweeperAI.mark_safe b (MinesweeperAI.mark_mine a s))
  ∧ MinesweeperAI.mark_mine a (MinesweeperAI.mark_mine a s)
    = MinesweeperAI.mark_mine a s
  ∧ MinesweeperAI.mark_safe a (MinesweeperAI.mark_safe a s)
    = MinesweeperAI.mark_safe a s.
Proof.
  split_and!.
  - apply mark_mine_comm.
  - apply mark_safe_comm.
  - intros Hne. unfold MinesweeperAI.mark_mine, MinesweeperAI.mark_safe. simpl.
    f_equal. rewrite <- !list_fmap_compose. apply list_fmap_ext.
    intros i S _. simpl. by apply sentence_mark_mixed_comm.
  - unfold MinesweeperAI.mark_mine. simpl. f_equal; [set_solver|].
    rewrite <- list_fmap_compose. apply list_fmap_ext.
    intros i S _. simpl. apply sentence_mark_mine_idemp.
  - unfold MinesweeperAI.mark_safe. simpl. f_equal; [set_solver|].
    rewrite <- list_fmap_compose. apply list_fmap_ext.
    intros i S _. simpl. apply sentence_mark_safe_idemp.
Qed.

Lemma agent_marks_commute_witness :
  MinesweeperAI.mark_mine (0, 1) (MinesweeperAI.mark_safe (1, 0) two_sentences)
  = MinesweeperAI.mark_safe (1, 0) (MinesweeperAI.mark_mine (0, 1) two_sentences).
Proof.
  apply (agent_marks_commute two_sentences (0, 1) (1, 0)). by_compute.
Defined.

(** ** The board's count *)

(** X5: [nearby_mines] is the number of mines among the cells of the grid
    next to the cell, a number from 0 to 8; the cell itself and the cells
    off the grid do not count. *)
Theorem nearby_mines_counts (g : Minesweeper.t) (cell : Cell) :
  ∃ nb : gset Cell,
    (∀ c, c ∈ nb ↔ in_bounds (Minesweeper.height g) (Minesweeper.width g) c
                   ∧ adjacent c cell)
    ∧ Minesweeper.nearby_mines cell g = Sentence.len (nb ∩ Minesweeper.mines g)
    ∧ 0 ≤ Minesweeper.nearby_mines cell g ≤ 8.
Proof.
  set (s := MinesweeperAI.init (Minesweeper.height g) (Minesweeper.width g)).
  destruct (return_neighbors_spec cell s) as (Hnb & Hsize & _).
  pose proof (nearby_mines_spec g cell s eq_refl eq_refl) as Hcount.
  exists (MinesweeperAI.return_neighbors cell s).1. split_and!; [done|done| |].
  - rewrite Hcount. apply len_nonneg.
  - rewrite Hcount. unfold Sentence.len.
    assert (size ((MinesweeperAI.return_neighbors cell s).1 ∩ Minesweeper.mines g)
            ≤ size (MinesweeperAI.return_neighbors cell s).1)%nat
      by apply subseteq_size, intersection_subseteq_l.
    lia.
Qed.

(** ** What a game leaves in the agent *)

Lemma moves_propagate (s : MinesweeperAI.t) :
  moves_made (MinesweeperAI.propagate s) = moves_made s.
Proof.
  by apply (propagate_ind (λ s', moves_made s' = moves_made s)).
Qed.

Lemma moves_add_knowledge (fuel : nat) (cell : Cell) (n : Z)
      (s s' : MinesweeperAI.t) :
  MinesweeperAI.add_knowledge fuel cell n s = Some s' →
  moves_made s' = {[cell]} ∪ moves_made s.
Proof.
  unfold MinesweeperAI.add_knowledge. intros Hrun.
  apply infer_frame in Hrun as (_ & _ & -> & _).
  rewrite moves_propagate.
  unfold MinesweeperAI.observe, MinesweeperAI.add_new_sentence.
  destruct (MinesweeperAI.return_neighbors _ _). by repeat case_decide.
Qed.

Lemma safes_add_knowledge (fuel : nat) (cell : Cell) (n : Z)
      (s s' : MinesweeperAI.t) :
  MinesweeperAI.add_knowledge fuel cell n s = Some s' →
  {[cell]} ∪ safes s ⊆ safes s'.
Proof.
  unfold MinesweeperAI.add_knowledge. intros Hrun.
  apply grows_infer in Hrun as (_ & _ & Hs2 & _).
  destruct (grows_propagate (MinesweeperAI.observe cell n s)) as (_ & _ & Hs1 & _).
  etrans; [|exact Hs2]. etrans; [|exact Hs1].
  unfold MinesweeperAI.observe, MinesweeperAI.add_new_sentence.
  destruct (MinesweeperAI.return_neighbors _ _). by repeat case_decide.
Qed.

(** X6: after the calls [add_knowledge] of a game, [moves_made] holds the
    cells given to the calls and the cells it held before, no other, and
    every cell of [moves_made] is in [safes] if that was so before. *)
Theorem moves_made_exact (fuel : nat) (obs : list (Cell * Z))
        (self self' : MinesweeperAI.t) :
  MinesweeperAI.feed fuel obs self = Some self' →
  moves_made self' = list_to_set obs.*1 ∪ moves_made self
  ∧ (moves_made self ⊆ safes self → moves_made self' ⊆ safes self').
Proof.
  revert self. induction obs as [|o obs IH]; intros self.
  - intros [= <-]. split; [|done]. simpl. by rewrite (left_id_L ∅ (∪)).
  - rewrite feed_cons.
    destruct (MinesweeperAI.add_knowledge fuel o.1 o.2 self) as [s1|] eqn:Hadd;
      [|done].
    intros Hrun. destruct (IH s1 Hrun) as [Hmoves Hsafe].
    pose proof (moves_add_knowledge _ _ _ _ _ Hadd) as Hm1.
    pose proof (safes_add_knowledge _ _ _ _ _ Hadd) as Hs1.
    split.
    + rewrite Hmoves, Hm1. simpl. set_solver.
    + intros Hin. apply Hsafe. rewrite Hm1. set_solver.
Qed.

Lemma moves_made_exact_witness :
  ∃ self', MinesweeperAI.feed 30 scenario_c_obs (MinesweeperAI.init 2 4) = Some self'
    ∧ moves_made self' = {[(1, 2); (1, 0); (1, 1)]}
    ∧ moves_made self' ⊆ safes self'.
Proof.
  destruct (MinesweeperAI.feed 30 scenario_c_obs (MinesweeperAI.init 2 4))
    as [self'|] eqn:Hrun; [|vm_compute in Hrun; discriminate].
  exists self'. split; [reflexivity|].
  apply moves_made_exact in Hrun as [Hmoves Hsafe].
  split.
  - rewrite Hmoves. by_compute.
  - apply Hsafe. by_compute.
Defined.

(** X7: in every game of consistent observations what the agent holds is
    true of the board: its [mines] are mines of the board, its [safes]
    are not, the count of every sentence is the number of mines of the
    board among its cells, and the cell [make_safe_move] returns is not a
    mine. *)
Theorem consistent_game_sound (g : Minesweeper.t) (obs : list (Cell * Z))
        (fuel : nat) (self : MinesweeperAI.t) :
  Forall (consistent g) obs →
  MinesweeperAI.feed fuel obs
    (MinesweeperAI.init (Minesweeper.height g) (Minesweeper.width g)) = Some self →
  mines self ⊆ Minesweeper.mines g
  ∧ safes self ## Minesweeper.mines g
  ∧ (∀ S, S ∈ knowledge self →
          count S = Sentence.len (cells S ∩ Minesweeper.mines g))
  ∧ ∀ c, MinesweeperAI.make_safe_move self = Some c →
         Minesweeper.is_mine c g = false.
Proof.
  intros Hobs Hrun.
  destruct (feed_sound g fuel obs Hobs
              (MinesweeperAI.init (Minesweeper.height g) (Minesweeper.width g))
              self eq_refl eq_refl (truthful_init _ _ _) (stripped_init _ _) Hrun)
    as [(Hm & Hs & _ & HK) _].
  split_and!; try done.
  intros [i j] Hmove.
  assert (Hel : ∀ c, c ∈ elements (safes self) ↔ c ∈ safes self)
    by (intros c; apply elem_of_elements).
  destruct (safe_move_from_order _ self Hel) as [Hsome _].
  apply Hsome in Hmove. apply elem_of_difference in Hmove as [Hsafe _].
  unfold Minesweeper.is_mine, Minesweeper.board.
  apply bool_decide_eq_false. intros Hmine. by apply (Hs (i, j)).
Qed.

Lemma consistent_game_sound_witness :
  ∃ self, MinesweeperAI.feed 30 scenario_c_obs (MinesweeperAI.init 2 4) = Some self
    ∧ mines self ⊆ {[(0, 0); (0, 3)]}
    ∧ safes self ## {[(0, 0); (0, 3)]}.
Proof.
  destruct (MinesweeperAI.feed 30 scenario_c_obs (MinesweeperAI.init 2 4))
    as [self|] eqn:Hrun; [|vm_compute in Hrun; discriminate].
  exists self. split; [reflexivity|].
  destruct (consistent_game_sound scenario_c_board scenario_c_obs 30 self)
    as (Hm & Hs & _); [|exact Hrun|by split].
  unfold scenario_c_obs, consistent, in_bounds.
  repeat constructor; simpl; (lia || (vm_compute; reflexivity)).
Defined.

(** ** Settled cells, whatever the calls *)

Lemma stripped_exec (fuel : nat) (o : MinesweeperAI.op) (s s' : MinesweeperAI.t) :
  stripped s → MinesweeperAI.exec fuel o s = Some s' → stripped s'.
Proof.
  intros Hs. destruct o; simpl; try (intros [= <-]; try done).
  - by apply stripped_mark_mine.
  - by apply stripped_mark_safe.
  - by apply stripped_add_knowledge.
Qed.

(** X8: whatever the calls and the counts given, no sentence of the list
    has a cell of [mines] or of [safes] after them, if none had before. *)
Theorem sentences_hold_no_settled_cell (fuel : nat) (ops : list MinesweeperAI.op)
        (self self' : MinesweeperAI.t) :
  (∀ S, S ∈ knowledge self → cells S ## mines self ∪ safes self) →
  MinesweeperAI.run fuel ops self = Some self' →
  ∀ S, S ∈ knowledge self' → cells S ## mines self' ∪ safes self'.
Proof.
  revert self. induction ops as [|o ops IH]; intros self Hs; simpl.
  - by intros [= <-].
  - destruct (MinesweeperAI.exec fuel o self) as [s1|] eqn:Hexec; [|done].
    apply IH. by eapply (stripped_exec fuel o self s1).
Qed.

Lemma sentences_hold_no_settled_cell_witness :
  ∃ self', MinesweeperAI.run 30 busy_ops (MinesweeperAI.init 3 3) = Some self'
    ∧ ∀ S, S ∈ knowledge self' → cells S ## mines self' ∪ safes self'.
Proof.
  destruct (MinesweeperAI.run 30 busy_ops (MinesweeperAI.init 3 3))
    as [self'|] eqn:Hrun; [|vm_compute in Hrun; discriminate].
  exists self'. split; [reflexivity|].
  apply (sentences_hold_no_settled_cell 30 busy_ops (MinesweeperAI.init 3 3));
    [|exact Hrun].
  intros S HS. simpl in HS. by apply elem_of_nil in HS.
Defined.

(** ** Cells stay on the grid *)

Lemma on_grid_mark_mine (c : Cell) (s : MinesweeperAI.t) :
  in_bounds (height s) (width s) c → on_grid s →
  on_grid (MinesweeperAI.mark_mine c s).
Proof.
  intros Hc (Hmv & Hm & Hs & HK). unfold on_grid. simpl. split_and!; try done.
  - intros c' [Heq%elem_of_singleton|Hc']%elem_of_union; [by subst|auto].
  - intros S HS c' Hc'. apply list_elem_of_fmap in HS as (S' & -> & HS').
    apply (HK S' HS'). revert Hc'. unfold Sentence.mark_mine.
    case_decide; simpl; [|done]. by intros [? _]%elem_of_difference.
Qed.

Lemma on_grid_mark_safe (c : Cell) (s : MinesweeperAI.t) :
  in_bounds (height s) (width s) c → on_grid s →
  on_grid (MinesweeperAI.mark_safe c s).
Proof.
  intros Hc (Hmv & Hm & Hs & HK). unfold on_grid. simpl. split_and!; try done.
  - intros c' [Heq%elem_of_singleton|Hc']%elem_of_union; [by subst|auto].
  - intros S HS c' Hc'. apply list_elem_of_fmap in HS as (S' & -> & HS').
    apply (HK S' HS'). revert Hc'. unfold Sentence.mark_safe.
    case_decide; simpl; [|done]. by intros [? _]%elem_of_difference.
Qed.

Lemma on_grid_propagate (s : MinesweeperAI.t) :
  on_grid s → on_grid (MinesweeperAI.propagate s).
Proof.
  apply (propagate_ind on_grid).
  - intros s' S c Hs' HS _ Hc. apply on_grid_mark_mine; [|done].
    destruct Hs' as (_ & _ & _ & HK). by apply (HK S).
  - intros s' S c Hs' HS _ Hc. apply on_grid_mark_safe; [|done].
    destruct Hs' as (_ & _ & _ & HK). by apply (HK S).
Qed.

Lemma on_grid_observe (cell : Cell) (n : Z) (s : MinesweeperAI.t) :
  in_bounds (height s) (width s) cell → on_grid s →
  on_grid (MinesweeperAI.observe cell n s).
Proof.
  intros Hcell Hs. unfold MinesweeperAI.observe.
  set (s1 := MinesweeperAI.mark_safe cell _).
  assert (H1 : on_grid s1).
  { apply on_grid_mark_safe; [done|]. destruct Hs as (Hmv & Hm & Hsa & HK).
    unfold on_grid. simpl. split_and!; try done.
    intros c' [Heq%elem_of_singleton|Hc']%elem_of_union; [by subst|auto]. }
  unfold MinesweeperAI.add_new_sentence.
  destruct (return_neighbors_spec cell s1) as (Hnb & _ & _).
  destruct (MinesweeperAI.return_neighbors cell s1) as [nb mc]. simpl in Hnb.
  repeat case_decide; try done.
  destruct H1 as (Hmv & Hm & Hsa & HK). unfold on_grid. simpl.
  split_and!; try done.
  intros S [HS|Heq%list_elem_of_singleton]%elem_of_app c Hc;
    [by apply (HK S)|subst S].
  simpl in Hc. apply elem_of_difference in Hc as [Hc _].
  apply elem_of_difference in Hc as [Hc _]. by apply Hnb in Hc as [? _].
Qed.

Lemma on_grid_infer (fuel : nat) (s s' : MinesweeperAI.t) :
  on_grid s → MinesweeperAI.infer fuel s = Some s' → on_grid s'.
Proof.
  apply (infer_ind on_grid).
  intros s1 s2 (Hmv & Hm & Hsa & HK) (A & B & _ & HB & _ & _ & _ & _ & _ & ->).
  unfold on_grid. simpl. split_and!; try done.
  intros S [HS|Heq%list_elem_of_singleton]%elem_of_app c Hc;
    [by apply (HK S)|subst S].
  apply (HK B HB). unfold MinesweeperAI.reduced in Hc. simpl in Hc.
  apply elem_of_difference in Hc as [Hc _].
  by apply elem_of_difference in Hc as [Hc _].
Qed.

(** X9: when every cell given to [add_knowledge] is a cell of the grid,
    whatever the counts, every cell the agent holds afterwards (in
    [moves_made], [mines], [safes] and the sentences) is a cell of the
    grid, and so is the cell [make_safe_move] returns. *)
Theorem cells_stay_on_grid (fuel : nat) (obs : list (Cell * Z))
        (self self' : MinesweeperAI.t) :
  on_grid self →
  Forall (λ o, in_bounds (height self) (width self) o.1) obs →
  MinesweeperAI.feed fuel obs self = Some self' →
  height self' = height self ∧ width self' = width self
  ∧ on_grid self'
  ∧ ∀ c, MinesweeperAI.make_safe_move self' = Some c →
         in_bounds (height self) (width self) c.
Proof.
  intros Hgrid Hobs Hrun.
  assert (Hall : height self' = height self ∧ width self' = width self
                 ∧ on_grid self').
  { revert self Hgrid Hobs Hrun. induction obs as [|o obs IH];
      intros self Hgrid Hobs.
    - by intros [= <-].
    - rewrite feed_cons.
      destruct (MinesweeperAI.add_knowledge fuel o.1 o.2 self) as [s1|] eqn:Hadd;
        [|done].
      apply Forall_cons in Hobs as [Ho Hobs].
      destruct (size_add_knowledge _ _ _ _ _ Hadd) as [Hh Hw].
      intros Hrun. destruct (IH s1) as (Hh' & Hw' & Hg'); [|by rewrite Hh, Hw|done|].
      + unfold MinesweeperAI.add_knowledge in Hadd.
        eapply on_grid_infer; [|exact Hadd].
        by apply on_grid_propagate, on_grid_observe.
      + split_and!; [congruence|congruence|done]. }
  destruct Hall as (Hh & Hw & Hg). split_and!; try done.
  intros c Hmove.
  assert (Hel : ∀ c, c ∈ elements (safes self') ↔ c ∈ safes self')
    by (intros c'; apply elem_of_elements).
  destruct (safe_move_from_order _ self' Hel) as [Hsome _].
  apply Hsome in Hmove. apply elem_of_difference in Hmove as [Hsafe _].
  destruct Hg as (_ & _ & Hsa & _). rewrite <- Hh, <- Hw. by apply Hsa.
Qed.

Lemma cells_stay_on_grid_witness :
  ∃ self', MinesweeperAI.feed 30 wrong_obs (MinesweeperAI.init 2 2) = Some self'
    ∧ on_grid self'.
Proof.
  destruct (MinesweeperAI.feed 30 wrong_obs (MinesweeperAI.init 2 2))
    as [self'|] eqn:Hrun; [|vm_compute in Hrun; discriminate].
  exists self'. split; [reflexivity|].
  destruct (cells_stay_on_grid 30 wrong_obs (MinesweeperAI.init 2 2) self')
    as (_ & _ & Hgrid & _); [| |exact Hrun|exact Hgrid].
  - unfold on_grid. cbn [moves_made mines safes knowledge MinesweeperAI.init].
    split_and!;
      [intros c Hc; apply elem_of_empty in Hc; destruct Hc..
      |intros S HS; apply elem_of_nil in HS; destruct HS].
  - unfold wrong_obs, in_bounds. repeat constructor; simpl; lia.
Defined.

(** ** What the marking pass settles *)

Lemma propagate_sentence_ind (P : MinesweeperAI.t → Prop) (i : nat) :
  (∀ s S c, P s → S ∈ knowledge s → Sentence.len (cells S) = count S →
            c ∈ cells S → P (MinesweeperAI.mark_mine c s)) →
  (∀ s S c, P s → S ∈ knowledge s → count S = 0 → c ∈ cells S →
            P (MinesweeperAI.mark_safe c s)) →
  ∀ self, P self → P (MinesweeperAI.propagate_sentence i self).
Proof.
  intros Hmine Hsafe self HP.
  unfold MinesweeperAI.propagate_sentence, MinesweeperAI.set_in.
  destruct (knowledge self !! i) as [S|] eqn:Hi; [|done].
  rewrite !andb_true_r.
  set (self1 := if bool_decide (Sentence.known_mines S ≠ ∅)
                then MinesweeperAI.mark_mines (elements (Sentence.known_mines S)) self
                else self).
  assert (HP1 : P self1).
  { subst self1. case_bool_decide as Hne; [|done].
    unfold Sentence.known_mines in *. case_decide as Hfull; [|done].
    apply (mark_mines_ind P i Hmine _ _ S); try done.
    - apply NoDup_elements.
    - intros c. by rewrite elem_of_elements. }
  destruct (knowledge self1 !! i) as [S1|] eqn:Hi1; [|done].
  case_bool_decide as Hne; [|done].
  unfold Sentence.known_safes in *. case_decide as Hzero; [|done].
  apply (mark_safes_ind P i Hsafe _ _ S1); try done.
  - apply NoDup_elements.
  - intros c. by rewrite elem_of_elements.
Qed.

Lemma propagate_list_ind (P : MinesweeperAI.t → Prop) :
  (∀ s S c, P s → S ∈ knowledge s → Sentence.len (cells S) = count S →
            c ∈ cells S → P (MinesweeperAI.mark_mine c s)) →
  (∀ s S c, P s → S ∈ knowledge s → count S = 0 → c ∈ cells S →
            P (MinesweeperAI.mark_safe c s)) →
  ∀ (l : list nat) self,
    P self → P (foldl (λ acc i, MinesweeperAI.propagate_sentence i acc) self l).
Proof.
  intros Hmine Hsafe. induction l as [|i l IH]; intros self HP; [done|].
  simpl. apply IH. by apply propagate_sentence_ind.
Qed.

Lemma sets_mark_mines (l : list Cell) (s : MinesweeperAI.t) :
  mines (MinesweeperAI.mark_mines l s) = list_to_set l ∪ mines s
  ∧ safes (MinesweeperAI.mark_mines l s) = safes s.
Proof.
  revert s. induction l as [|c l IH]; intros s; simpl.
  - split; [|done]. by rewrite (left_id_L ∅ (∪)).
  - destruct (IH (MinesweeperAI.mark_mine c s)) as [-> ->]. simpl.
    split; [|done]. set_solver.
Qed.

Lemma sets_mark_safes (l : list Cell) (s : MinesweeperAI.t) :
  safes (MinesweeperAI.mark_safes l s) = list_to_set l ∪ safes s
  ∧ mines (MinesweeperAI.mark_safes l s) = mines s.
Proof.
  revert s. induction l as [|c l IH]; intros s; simpl.
  - split; [|done]. by rewrite (left_id_L ∅ (∪)).
  - destruct (IH (MinesweeperAI.mark_safe c s)) as [-> ->]. simpl.
    split; [|done]. set_solver.
Qed.

Lemma accounts_refl (s : MinesweeperAI.t) : accounts s s.
Proof. intros i S Hi. exists S. split_and!; [done|done|set_solver]. Qed.

Lemma accounts_mark_mine (s0 s : MinesweeperAI.t) (c : Cell) :
  accounts s0 s → accounts s0 (MinesweeperAI.mark_mine c s).
Proof.
  intros Hacc i S Hi. destruct (Hacc i S Hi) as (S' & Hi' & Hin & Hout).
  exists (Sentence.mark_mine c S'). simpl. rewrite list_lookup_fmap, Hi'.
  split; [done|]. unfold Sentence.mark_mine. case_decide; simpl.
  - split; [set_solver|]. intros x Hx. apply Hout in Hx.
    destruct (decide (x = c)) as [->|]; set_solver.
  - split; [done|]. set_solver.
Qed.

Lemma accounts_mark_safe (s0 s : MinesweeperAI.t) (c : Cell) :
  accounts s0 s → accounts s0 (MinesweeperAI.mark_safe c s).
Proof.
  intros Hacc i S Hi. destruct (Hacc i S Hi) as (S' & Hi' & Hin & Hout).
  exists (Sentence.mark_safe c S'). simpl. rewrite list_lookup_fmap, Hi'.
  split; [done|]. unfold Sentence.mark_safe. case_decide; simpl.
  - split; [set_solver|]. intros x Hx. apply Hout in Hx.
    destruct (decide (x = c)) as [->|]; set_solver.
  - split; [done|]. set_solver.
Qed.

(** The visit of the sentence at index [i], on a truthful agent that
    accounts for the sentence [S]. *)
Lemma propagate_sentence_resolves (board : gset Cell) (s0 s : MinesweeperAI.t)
      (i : nat) (S : Sentence.t) :
  truthful board s0 → truthful board s → accounts s0 s →
  knowledge s0 !! i = Some S →
  (count S = 0 → cells S ⊆ safes (MinesweeperAI.propagate_sentence i s))
  ∧ (Sentence.len (cells S) = count S →
     cells S ⊆ mines (MinesweeperAI.propagate_sentence i s)).
Proof.
  intros (_ & _ & _ & HK0) (Hm & Hs & _ & HK) Hacc Hi.
  destruct (Hacc i S Hi) as (S1 & Hi1 & Hin & Hout).
  assert (HS : sound board S) by (apply HK0; by eapply list_elem_of_lookup_2).
  assert (HS1 : sound board S1) by (apply HK; by eapply list_elem_of_lookup_2).
  unfold MinesweeperAI.propagate_sentence, MinesweeperAI.set_in.
  rewrite Hi1, andb_true_r. split.
  - intros Hzero. pose proof (sound_zero board S HS Hzero) as Hdisj.
    assert (Hz1 : count S1 = 0).
    { unfold sound in HS1. rewrite HS1. apply len_zero. set_solver. }
    assert (Hkm : Sentence.known_mines S1 = ∅).
    { unfold Sentence.known_mines. case_decide as Hfull; [|done].
      rewrite Hz1 in Hfull. by apply len_zero in Hfull. }
    rewrite Hkm. rewrite bool_decide_eq_false_2 by (by intros []).
    rewrite Hi1. unfold Sentence.known_safes. rewrite decide_True by done.
    rewrite andb_true_r. case_bool_decide as Hne.
    + destruct (sets_mark_safes (elements (cells S1)) s) as [-> _].
      rewrite list_to_set_elements_L. set_solver.
    + set_solver.
  - intros Hfull. pose proof (sound_full board S HS Hfull) as Hsub.
    assert (Hf1 : Sentence.len (cells S1) = count S1).
    { unfold sound in HS1. rewrite HS1. f_equal. set_solver. }
    unfold Sentence.known_mines. rewrite decide_True by done.
    set (s1 := if bool_decide (cells S1 ≠ ∅)
               then MinesweeperAI.mark_mines (elements (cells S1)) s else s).
    assert (Hmines : cells S ⊆ mines s1).
    { subst s1. case_bool_decide as Hne.
      - destruct (sets_mark_mines (elements (cells S1)) s) as [-> _].
        rewrite list_to_set_elements_L. set_solver.
      - set_solver. }
    destruct (knowledge s1 !! i) as [S2|]; [|done].
    rewrite andb_true_r. case_bool_decide; [|done].
    destruct (sets_mark_safes (elements (Sentence.known_safes S2)) s1) as [_ ->].
    done.
Qed.

Lemma propagate_settles (board : gset Cell) (self : MinesweeperAI.t)
        (T : Sentence.t) :
  truthful board self → T ∈ knowledge self →
  (count T = 0 → cells T ⊆ safes (MinesweeperAI.propagate self))
  ∧ (Sentence.len (cells T) = count T →
     cells T ⊆ mines (MinesweeperAI.propagate self)).
Proof.
  intros Htrue [i Hi]%list_elem_of_lookup.
  pose proof (lookup_lt_Some _ _ _ Hi) as Hlt.
  unfold MinesweeperAI.propagate.
  replace (length (knowledge self))
    with (i + S (length (knowledge self) - S i))%nat by lia.
  rewrite seq_app, foldl_app. simpl.
  set (s1 := foldl (λ acc i, MinesweeperAI.propagate_sentence i acc) self (seq 0 i)).
  assert (H1 : truthful board s1 ∧ accounts self s1).
  { apply (propagate_list_ind (λ s, truthful board s ∧ accounts self s)).
    - intros s S' c [Hs Hacc] HS' Hfull Hc. split.
      + apply truthful_mark_mine; [|done].
        destruct Hs as (_ & _ & _ & HK). by apply (sound_full board S'); auto.
      + by apply accounts_mark_mine.
    - intros s S' c [Hs Hacc] HS' Hzero Hc. split.
      + apply truthful_mark_safe; [|done].
        destruct Hs as (_ & _ & _ & HK). intros Hb.
        by apply (sound_zero board S' (HK S' HS') Hzero c).
      + by apply accounts_mark_safe.
    - split; [done|apply accounts_refl]. }
  destruct H1 as [Ht1 Hacc1].
  destruct (propagate_sentence_resolves board self s1 i T Htrue Ht1 Hacc1 Hi)
    as [Hzero Hfull].
  set (s2 := MinesweeperAI.propagate_sentence i s1) in *.
  assert (Hgrow : grows s2
    (foldl (λ acc i, MinesweeperAI.propagate_sentence i acc) s2
           (seq (S i) (length (knowledge self) - S i)))).
  { apply (propagate_list_ind (grows s2)).
    - intros s' _ c Hs' _ _ _. eapply grows_trans; [done|apply grows_mark_mine].
    - intros s' _ c Hs' _ _ _. eapply grows_trans; [done|apply grows_mark_safe].
    - apply grows_refl. }
  destruct Hgrow as (_ & Hgm & Hgs & _).
  split; intros H; (etrans; [|eassumption]); auto.
Qed.

(** X10: on a truthful agent the marking pass settles every sentence
    that could be settled when the pass started: the cells of a sentence
    with count zero are all in [safes] after the pass, and the cells of
    a sentence with as many cells as its count are all in [mines]. *)
Theorem propagate_resolves (board : gset Cell) (self : MinesweeperAI.t)
        (T : Sentence.t) :
  truthful board self → T ∈ knowledge self →
  (count T = 0 → cells T ⊆ safes (MinesweeperAI.propagate self))
  ∧ (Sentence.len (cells T) = count T →
     cells T ⊆ mines (MinesweeperAI.propagate self)).
Proof. apply propagate_settles. Qed.

Lemma propagate_resolves_witness :
  cells (Sentence {[(0, 1); (1, 0); (1, 1)]} 0)
  ⊆ safes (MinesweeperAI.propagate
             (MinesweeperAI.observe (0, 0) 0 (MinesweeperAI.init 3 3))).
Proof.
  apply (propagate_resolves (Minesweeper.mines corners_board)
           (MinesweeperAI.observe (0, 0) 0 (MinesweeperAI.init 3 3))
           (Sentence {[(0, 1); (1, 0); (1, 1)]} 0)).
  - apply (truthful_observe corners_board ((0, 0), 0));
      [reflexivity|reflexivity| |apply truthful_init].
    exact (Forall_inv consistent_corners).
  - by_compute.
  - reflexivity.
Defined.

(** ** What one observation settles *)

Lemma observe_sentence (cell : Cell) (n : Z) (s : MinesweeperAI.t) :
  let nb := (MinesweeperAI.return_neighbors cell s).1 in
  let mc := (MinesweeperAI.return_neighbors cell s).2 in
  let unknown := nb ∖ mines s ∖ ({[cell]} ∪ safes s) in
  mines (MinesweeperAI.observe cell n s) = mines s
  ∧ safes (MinesweeperAI.observe cell n s) = {[cell]} ∪ safes s
  ∧ (unknown ≠ ∅ →
     Sentence unknown (n - mc) ∈ knowledge (MinesweeperAI.observe cell n s)).
Proof.
  intros nb mc unknown. unfold MinesweeperAI.observe.
  set (s1 := MinesweeperAI.mark_safe cell _).
  assert (Hrn : MinesweeperAI.return_neighbors cell s1
                = MinesweeperAI.return_neighbors cell s)
    by (by rewrite !return_neighbors_eq).
  unfold MinesweeperAI.add_new_sentence. rewrite Hrn.
  rewrite (surjective_pairing (MinesweeperAI.return_neighbors cell s)).
  fold nb mc. change (nb ∖ mines s1 ∖ safes s1) with unknown.
  destruct (decide (unknown ≠ ∅)) as [Hne|He]; [|done].
  destruct (decide (Sentence unknown (n - mc) ∉ knowledge s1)) as [Hnew|Hold].
  - simpl. split_and!; [done|done|]. intros _. apply elem_of_app. right.
    by apply list_elem_of_singleton.
  - split_and!; [done|done|]. intros _. by apply dec_stable in Hold.
Qed.

(** X11: a consistent observation given to a truthful agent settles the
    neighbours it can.  With count zero every neighbour of the cell is in
    [safes] when the call returns; with a count equal to the number of
    neighbours not known safe, all of those are in [mines]. *)
Theorem observation_settles_neighbours (g : Minesweeper.t) (cell : Cell) (n : Z)
        (fuel : nat) (self self' : MinesweeperAI.t) :
  height self = Minesweeper.height g → width self = Minesweeper.width g →
  truthful (Minesweeper.mines g) self → consistent g (cell, n) →
  MinesweeperAI.add_knowledge fuel cell n self = Some self' →
  (n = 0 → (MinesweeperAI.return_neighbors cell self).1 ⊆ safes self')
  ∧ (n = Sentence.len ((MinesweeperAI.return_neighbors cell self).1 ∖ safes self) →
     (MinesweeperAI.return_neighbors cell self).1 ∖ safes self ⊆ mines self').
Proof.
  intros Hh Hw Htrue Hcons Hrun.
  pose proof (truthful_observe g (cell, n) self Hh Hw Hcons Htrue) as Hto.
  simpl in Hto. destruct Hcons as (_ & _ & Hn). simpl in Hn.
  rewrite (nearby_mines_spec g cell self Hh Hw) in Hn.
  destruct (return_neighbors_spec cell self) as (Hnb & _ & Hmc).
  destruct (observe_sentence cell n self) as (Hom & Hos & Hsent).
  unfold MinesweeperAI.add_knowledge in Hrun.
  apply infer_frame in Hrun as (_ & _ & _ & Hmi & Hsa & _).
  rewrite Hmi, Hsa. clear Hmi Hsa.
  destruct (grows_propagate (MinesweeperAI.observe cell n self))
    as (_ & Hgm & Hgs & _).
  rewrite Hom in Hgm. rewrite Hos in Hgs.
  destruct Htrue as (Hm & Hs & _ & _).
  set (nb := (MinesweeperAI.return_neighbors cell self).1) in *.
  set (mc := (MinesweeperAI.return_neighbors cell self).2) in *.
  set (board := Minesweeper.mines g) in *.
  assert (Hcell : cell ∉ nb).
  { intros Hc. apply Hnb in Hc as (_ & _ & _ & Hne). done. }
  split.
  - intros ->. symmetry in Hn. apply len_zero in Hn.
    assert (Hmc0 : mc = 0).
    { rewrite Hmc. apply len_zero. set_solver. }
    intros c Hc.
    destruct (decide (c ∈ safes self)) as [Hsafe|Hnot]; [set_solver|].
    assert (Hun : c ∈ nb ∖ mines self ∖ ({[cell]} ∪ safes self)) by set_solver.
    assert (Hne : nb ∖ mines self ∖ ({[cell]} ∪ safes self) ≠ ∅) by set_solver.
    specialize (Hsent Hne). rewrite Hmc0 in Hsent.
    destruct (propagate_settles board _ _ Hto Hsent) as [Hzero _].
    by apply (Hzero eq_refl).
  - intros Hfull.
    assert (HU : nb ∖ safes self ⊆ board).
    { assert (Heq : nb ∩ board = nb ∖ safes self).
      { apply set_subseteq_size_eq; [set_solver|].
        unfold Sentence.len in *. lia. }
      rewrite <- Heq. set_solver. }
    intros c Hc.
    destruct (decide (c ∈ mines self)) as [Hmine|Hnot]; [set_solver|].
    assert (Hun : c ∈ nb ∖ mines self ∖ ({[cell]} ∪ safes self)) by set_solver.
    assert (Hne : nb ∖ mines self ∖ ({[cell]} ∪ safes self) ≠ ∅) by set_solver.
    specialize (Hsent Hne).
    destruct (propagate_settles board _ _ Hto Hsent) as [_ Hall].
    apply Hall; [|done]. simpl. rewrite Hmc, Hfull. unfold Sentence.len.
    replace (nb ∖ mines self ∖ ({[cell]} ∪ safes self))
      with ((nb ∖ safes self) ∖ (nb ∩ mines self)) by set_solver.
    rewrite (size_difference (nb ∖ safes self) (nb ∩ mines self)) by set_solver.
    assert (size (nb ∩ mines self) ≤ size (nb ∖ safes self))%nat
      by (apply subseteq_size; set_solver).
    lia.
Qed.

Lemma observation_settles_neighbours_witness :
  ∃ self', MinesweeperAI.add_knowledge 30 (0, 0) 0 (MinesweeperAI.init 3 3)
           = Some self'
    ∧ (MinesweeperAI.return_neighbors (0, 0) (MinesweeperAI.init 3 3)).1
      ⊆ safes self'.
Proof.
  destruct (MinesweeperAI.add_knowledge 30 (0, 0) 0 (MinesweeperAI.init 3 3))
    as [self'|] eqn:Hrun; [|vm_compute in Hrun; discriminate].
  exists self'. split; [reflexivity|].
  destruct (observation_settles_neighbours corners_board (0, 0) 0 30
              (MinesweeperAI.init 3 3) self' eq_refl eq_refl
              (truthful_init _ _ _) (Forall_inv consistent_corners) Hrun)
    as [Hzero _].
  exact (Hzero eq_refl).
Defined.

(** ** When the inference cannot end *)

(** X12: the inference loops never end on an agent whose list holds two
    sentences over the same cells with different counts and a sentence
    over some but not all of these cells, none of them a move made:
    whatever the fuel, the call does not return. *)
Theorem inference_never_ends (s : MinesweeperAI.t) (A B1 B2 : Sentence.t)
        (fuel : nat) :
  A ∈ knowledge s → B1 ∈ knowledge s → B2 ∈ knowledge s →
  cells B1 = cells B2 → count B1 ≠ count B2 →
  cells A ≠ ∅ → cells A ⊆ cells B1 → cells A ≠ cells B1 →
  cells B1 ## moves_made s →
  MinesweeperAI.infer fuel s = None.
Proof.
  intros HA HB1 HB2 Hsame Hdiff HAne HAsub HAstrict Hmoves.
  destruct (MinesweeperAI.infer fuel s) as [s'|] eqn:Hrun; [|done].
  exfalso.
  pose proof (outer_loop_complete fuel 0 s s' Hrun) as Hmeet.
  destruct (outer_loop_frame _ _ _ _ Hrun) as (_ & new & Hnew).
  apply list_elem_of_lookup in HB1 as [j1 Hj1].
  apply list_elem_of_lookup in HB2 as [j2 Hj2].
  pose proof (lookup_lt_Some _ _ _ Hj1) as Hlt1.
  pose proof (lookup_lt_Some _ _ _ Hj2) as Hlt2.
  assert (Hj1' : knowledge s' !! j1 = Some B1)
    by (rewrite Hnew; by apply lookup_app_l_Some).
  assert (Hj2' : knowledge s' !! j2 = Some B2)
    by (rewrite Hnew; by apply lookup_app_l_Some).
  set (Y := cells A) in *. set (X := cells B1 ∖ Y).
  assert (HXne : X ≠ ∅).
  { intros HX. apply HAstrict. apply set_eq. intros x. split; [apply HAsub|].
    intros Hx. destruct (decide (x ∈ Y)) as [|Hno]; [done|].
    assert (Hin : x ∈ X) by (by apply elem_of_difference).
    rewrite HX in Hin. by apply elem_of_empty in Hin. }
  assert (HXB : X ≠ cells B1).
  { intros HX. apply HAne. apply set_eq. intros x. rewrite elem_of_empty.
    split; [|done]. intros Hx. assert (Hin : x ∈ X) by (rewrite HX; by apply HAsub).
    apply elem_of_difference in Hin as [_ Hno]. done. }
  assert (HX2 : cells B2 ∖ Y ∖ moves_made s = X).
  { rewrite <- Hsame. subst X. set_solver. }
  assert (HY1 : cells B1 ∖ X ∖ moves_made s = Y).
  { subst X. apply set_eq. intros x.
    rewrite !elem_of_difference. split; [|set_solver].
    intros [[Hx Hno] _]. destruct (decide (x ∈ Y)); [done|]. destruct Hno. done. }
  assert (Hstep : ∀ q, Sentence Y q ∈ knowledge s' →
                       Sentence Y (q + (count B1 - count B2)) ∈ knowledge s').
  { intros q [i Hi]%list_elem_of_lookup.
    assert (Hup : Sentence X (count B2 - q) ∈ knowledge s').
    { rewrite <- HX2.
      apply (Hmeet i j2 (Sentence Y q) B2); [lia|done|done|lia| | | |].
      - intros Heq. apply HAstrict. rewrite Hsame, <- Heq. done.
      - done.
      - rewrite <- Hsame. intros He. apply HAne. set_solver.
      - simpl. by rewrite <- Hsame. }
    apply list_elem_of_lookup in Hup as [i' Hi'].
    replace (Sentence Y (q + (count B1 - count B2)))
      with (MinesweeperAI.reduced s (Sentence X (count B2 - q)) B1)
      by (unfold MinesweeperAI.reduced; simpl; rewrite HY1; f_equal; lia).
    apply (Hmeet i' j1 (Sentence X (count B2 - q)) B1); [lia|done|done|lia| | | |].
    - intros Heq. apply HXB. by rewrite <- Heq.
    - done.
    - intros He. apply HAne. set_solver.
    - simpl. subst X. set_solver. }
  assert (Hall : ∀ n : nat,
            Sentence Y (count A + Z.of_nat n * (count B1 - count B2)) ∈ knowledge s').
  { induction n as [|n IH].
    - rewrite Z.mul_0_l, Z.add_0_r. rewrite Hnew. apply elem_of_app. left.
      by destruct A.
    - replace (count A + Z.of_nat (S n) * (count B1 - count B2))
        with (count A + Z.of_nat n * (count B1 - count B2) + (count B1 - count B2))
        by lia.
      by apply Hstep. }
  assert (Hinj : Inj (=) (=)
            (λ n : nat, Sentence Y (count A + Z.of_nat n * (count B1 - count B2)))).
  { intros n m Heq. apply (f_equal count) in Heq. simpl in Heq. nia. }
  pose proof (NoDup_fmap_2
                (λ n : nat, Sentence Y (count A + Z.of_nat n * (count B1 - count B2)))
                (seq 0 (S (length (knowledge s')))) (NoDup_seq _ _)) as Hnd.
  apply NoDup_submseteq with (k := knowledge s') in Hnd.
  - apply submseteq_length in Hnd. rewrite length_fmap, length_seq in Hnd. lia.
  - intros T HT. apply list_elem_of_fmap in HT as (n & -> & _). apply Hall.
Qed.

Lemma inference_never_ends_witness :
  MinesweeperAI.infer 50 diverging_mid = None.
Proof.
  apply (inference_never_ends diverging_mid (Sentence {[(0, 2)]} 5)
           (Sentence {[(0, 2); (0, 4)]} 7) (Sentence {[(0, 2); (0, 4)]} 9) 50).
  - by_compute.
  - by_compute.
  - by_compute.
  - reflexivity.
  - simpl. lia.
  - by_compute.
  - by_compute.
  - by_compute.
  - by_compute.
Defined.

(** ** The board that [__init__] builds *)

Lemma foldl_snoc_replicate {A B} (x : A) (l : list B) (acc : list A) :
  foldl (λ acc _, acc ++ [x]) acc l = acc ++ replicate (length l) x.
Proof.
  revert acc. induction l as [|y l IH]; intros acc; simpl.
  - by rewrite app_nil_r.
  - rewrite IH, <- app_assoc. done.
Qed.

Lemma length_range (lo hi : Z) : length (range lo hi) = Z.to_nat (hi - lo).
Proof. unfold range. apply length_seqZ. Qed.

Lemma empty_board_eq (h w : Z) :
  Setup.empty_board h w = replicate (Z.to_nat h) (replicate (Z.to_nat w) false).
Proof.
  unfold Setup.empty_board.
  rewrite (foldl_snoc_replicate false (range 0 w) []). simpl.
  rewrite (foldl_snoc_replicate _ (range 0 h) []). simpl.
  rewrite !length_range. by rewrite !Z.sub_0_r.
Qed.

Lemma py_get_nonneg {A} (l : list A) (i : Z) :
  0 ≤ i → Setup.py_get l i = l !! Z.to_nat i.
Proof. intros Hi. unfold Setup.py_get. by rewrite decide_True. Qed.

Lemma well_formed_empty (h w : Z) :
  Setup.well_formed h w ∅ (Setup.empty_board h w).
Proof.
  rewrite empty_board_eq. unfold Setup.well_formed. split_and!.
  - by rewrite length_replicate.
  - intros row [-> _]%elem_of_replicate. by rewrite length_replicate.
  - intros c Hc. by apply elem_of_empty in Hc.
  - intros i j (Hi0 & Hih & Hj0 & Hjw). simpl in *.
    unfold Setup.board_get. rewrite py_get_nonneg by done.
    rewrite lookup_replicate_2 by lia. simpl.
    rewrite py_get_nonneg by done. rewrite lookup_replicate_2 by lia.
    rewrite bool_decide_eq_false_2; [done|]. apply not_elem_of_empty.
Qed.

(** Setting a square of the grid keeps the field and the set together. *)
Lemma board_set_spec (h w : Z) (mines : gset Cell) (board : list (list bool))
      (i j : Z) :
  Setup.well_formed h w mines board → in_bounds h w (i, j) →
  ∃ board', Setup.board_set board i j = Some board'
            ∧ Setup.well_formed h w ({[(i, j)]} ∪ mines) board'.
Proof.
  intros (Hlen & Hrows & Hmines & Hget) (Hi0 & Hih & Hj0 & Hjw). simpl in *.
  destruct (lookup_lt_is_Some_2 board (Z.to_nat i)) as [row Hrow]; [lia|].
  assert (Hrowlen : length row = Z.to_nat w)
    by (apply Hrows; by eapply list_elem_of_lookup_2).
  exists (<[Z.to_nat i := <[Z.to_nat j := true]> row]> board). split.
  - unfold Setup.board_set. rewrite py_get_nonneg by done. rewrite Hrow. simpl.
    unfold Setup.py_set. rewrite !decide_True by (done || lia). simpl.
    by rewrite !decide_True by (done || lia).
  - unfold Setup.well_formed. split_and!.
    + by rewrite length_insert.
    + intros r [k Hk]%list_elem_of_lookup.
      destruct (decide (k = Z.to_nat i)) as [->|Hne].
      * rewrite list_lookup_insert_eq in Hk by lia. injection Hk as <-.
        by rewrite length_insert.
      * rewrite list_lookup_insert_ne in Hk by done.
        apply Hrows. by eapply list_elem_of_lookup_2.
    + intros c [Heq%elem_of_singleton_1|Hc]%elem_of_union; [|by apply Hmines].
      subst c. unfold in_bounds. simpl. lia.
    + intros i' j' Hin'. pose proof (Hget i' j' Hin') as Hold.
      destruct Hin' as (Hi0' & Hih' & Hj0' & Hjw'). simpl in *.
      unfold Setup.board_get in *. rewrite py_get_nonneg in * by done.
      destruct (decide (i' = i)) as [->|Hnei].
      * rewrite list_lookup_insert_eq by lia. rewrite Hrow in Hold. simpl in *.
        rewrite py_get_nonneg in * by done.
        destruct (decide (j' = j)) as [->|Hnej].
        -- rewrite list_lookup_insert_eq by lia.
           rewrite bool_decide_eq_true_2; [done|]. apply elem_of_union_l.
           by apply elem_of_singleton.
        -- rewrite list_lookup_insert_ne by lia. rewrite Hold. f_equal.
           apply bool_decide_ext. rewrite elem_of_union, elem_of_singleton.
           split; [tauto|]. intros [Heq|?]; [|done].
           injection Heq; intros; lia.
      * rewrite list_lookup_insert_ne by lia. rewrite Hold. f_equal.
        apply bool_decide_ext. rewrite elem_of_union, elem_of_singleton.
        split; [tauto|]. intros [Heq|?]; [|done].
           injection Heq; intros; lia.
Qed.

Lemma randrange_spec (n : Z) (draw : nat) :
  (0 < n → ∃ i, Setup.randrange n draw = Some i ∧ 0 ≤ i ∧ i < n)
  ∧ (n ≤ 0 → Setup.randrange n draw = None).
Proof.
  unfold Setup.randrange. split; intros Hn.
  - rewrite decide_True by done. eexists. split; [done|].
    apply Z.mod_pos_bound. done.
  - by rewrite decide_False by lia.
Qed.

(** The loop keeps the field and the set together, and ends only with
    the number of mines asked for. *)
Lemma place_mines_spec (draws : list (nat * nat)) (h w target : Z) :
  ∀ (mines : gset Cell) (board : list (list bool)),
    Setup.well_formed h w mines board →
    match Setup.place_mines draws h w target mines board with
    | Setup.Done (mines', board') =>
        Setup.well_formed h w mines' board'
        ∧ Z.of_nat (size mines') = target ∧ mines ⊆ mines'
    | Setup.Raised => (h ≤ 0 ∨ w ≤ 0) ∧ Z.of_nat (size mines) ≠ target
    | Setup.Starved => True
    end.
Proof.
  induction draws as [|[di dj] draws IH]; intros mines board Hwf; simpl.
  - case_decide; [|done]. done.
  - case_decide as Hsize; [done|].
    destruct (decide (0 < h)) as [Hh|Hh].
    2:{ destruct (randrange_spec h di) as [_ Hnone].
        rewrite Hnone by lia. split; [lia|done]. }
    destruct (randrange_spec h di) as [Hsome _].
    destruct (Hsome Hh) as (i & -> & Hi0 & Hih).
    destruct (decide (0 < w)) as [Hw|Hw].
    2:{ destruct (randrange_spec w dj) as [_ Hnone].
        rewrite Hnone by lia. split; [lia|done]. }
    destruct (randrange_spec w dj) as [Hsomew _].
    destruct (Hsomew Hw) as (j & -> & Hj0 & Hjw).
    assert (Hin : in_bounds h w (i, j)) by (unfold in_bounds; simpl; lia).
    destruct Hwf as (Hlen & Hrows & Hmines & Hget).
    rewrite (Hget i j Hin).
    case_bool_decide as Hmine.
    + specialize (IH mines board (conj Hlen (conj Hrows (conj Hmines Hget)))).
      destruct (Setup.place_mines draws h w target mines board) as [[m b]| |];
        [done| |done].
      done.
    + destruct (board_set_spec h w mines board i j
                  (conj Hlen (conj Hrows (conj Hmines Hget))) Hin)
        as (board' & -> & Hwf').
      specialize (IH _ _ Hwf').
      destruct (Setup.place_mines draws h w target _ board') as [[m b]| |];
        [|lia|done].
      destruct IH as (? & ? & Hsub). split_and!; [done|done|]. set_solver.
Qed.

Lemma size_on_grid (h w : Z) (mines : gset Cell) :
  (∀ c, c ∈ mines → in_bounds h w c) →
  Z.of_nat (size mines) ≤ Z.max 0 h * Z.max 0 w.
Proof.
  intros Hin.
  assert (Hsub : mines ⊆ list_to_set (pairs (range 0 h) (range 0 w))).
  { intros c Hc. apply elem_of_list_to_set, elem_of_pairs.
    rewrite !elem_of_range. specialize (Hin c Hc). unfold in_bounds in Hin. lia. }
  apply subseteq_size in Hsub.
  rewrite size_list_to_set in Hsub
    by (apply NoDup_pairs; apply NoDup_seqZ).
  rewrite length_pairs, !length_range in Hsub. lia.
Qed.

(** X13: when [__init__] returns, the object has the height and width
    asked for, exactly the number of mines asked for, all of them on the
    grid, no mine found yet, and a field of [height] rows of [width]
    squares that holds [True] exactly on the cells of [mines]; so the
    number of mines asked for lies between zero and the number of cells. *)
Theorem init_builds_board (h w target : Z) (draws : list (nat * nat))
        (g : Setup.t) :
  Setup.init h w target draws = Setup.Done g →
  Setup.height g = h ∧ Setup.width g = w ∧ Setup.mines_found g = ∅
  ∧ Z.of_nat (size (Setup.mines g)) = target
  ∧ (∀ c, c ∈ Setup.mines g → in_bounds h w c)
  ∧ length (Setup.board g) = Z.to_nat h
  ∧ (∀ row, row ∈ Setup.board g → length row = Z.to_nat w)
  ∧ (∀ i j, in_bounds h w (i, j) →
            Setup.board_get (Setup.board g) i j
            = Some (bool_decide ((i, j) ∈ Setup.mines g)))
  ∧ 0 ≤ target ≤ Z.max 0 h * Z.max 0 w.
Proof.
  unfold Setup.init.
  pose proof (place_mines_spec draws h w target ∅ (Setup.empty_board h w)
                (well_formed_empty h w)) as Hspec.
  destruct (Setup.place_mines draws h w target ∅ (Setup.empty_board h w))
    as [[mines board]| |]; [|done|done].
  intros [= <-]. simpl.
  destruct Hspec as ((Hlen & Hrows & Hmines & Hget) & Hsize & _).
  split_and!; try done.
  - lia.
  - rewrite <- Hsize. by apply size_on_grid.
Qed.

Lemma init_builds_board_witness :
  ∃ g, Setup.init 2 3 2 [(0, 1); (4, 4); (1, 2)]%nat = Setup.Done g
       ∧ Z.of_nat (size (Setup.mines g)) = 2
       ∧ length (Setup.board g) = 2%nat.
Proof.
  destruct (Setup.init 2 3 2 [(0, 1); (4, 4); (1, 2)]%nat) as [g| |] eqn:Hinit;
    [|vm_compute in Hinit; discriminate..].
  exists g. split; [reflexivity|].
  destruct (init_builds_board 2 3 2 _ g Hinit)
    as (_ & _ & _ & Hsize & _ & Hlen & _).
  split; [exact Hsize|exact Hlen].
Defined.

(** X14: how [__init__] ends otherwise.  It raises no exception on a grid
    with a row and a column; asked for no mine it returns the empty
    field at once, whatever the size; asked for a mine on a grid without
    rows or without columns it raises ([randrange] refuses the range). *)
Theorem init_exceptions (h w target : Z) (draws : list (nat * nat)) :
  (0 < h → 0 < w → Setup.init h w target draws ≠ Setup.Raised)
  ∧ (target = 0 →
     Setup.init h w target draws
     = Setup.Done (Setup.Game h w ∅ (Setup.empty_board h w) ∅))
  ∧ (h ≤ 0 ∨ w ≤ 0 → target ≠ 0 → draws ≠ [] →
     Setup.init h w target draws = Setup.Raised).
Proof.
  split_and!.
  - intros Hh Hw. unfold Setup.init.
    pose proof (place_mines_spec draws h w target ∅ (Setup.empty_board h w)
                  (well_formed_empty h w)) as Hspec.
    destruct (Setup.place_mines draws h w target ∅ (Setup.empty_board h w))
      as [[mines board]| |]; [done| |done].
    destruct Hspec as [Hneg _]. lia.
  - intros ->. unfold Setup.init.
    destruct draws as [|[di dj] draws]; reflexivity.
  - intros Hsmall Htarget Hdraws. unfold Setup.init.
    destruct draws as [|[di dj] draws]; [done|].
    cbn [Setup.place_mines]. rewrite size_empty.
    rewrite decide_False by (simpl; lia).
    destruct (randrange_spec h di) as [Hsome Hnone].
    destruct (decide (0 < h)) as [Hh|Hh].
    + destruct (Hsome Hh) as (i & -> & _).
      destruct (randrange_spec w dj) as [_ Hnonew]. rewrite Hnonew by lia. done.
    + rewrite Hnone by lia. done.
Qed.

Lemma init_exceptions_witness :
  Setup.init 3 3 2 [(7, 7)]%nat ≠ Setup.Raised
  ∧ Setup.init (-1) 0 0 [] = Setup.Done (Setup.Game (-1) 0 ∅ (Setup.empty_board (-1) 0) ∅)
  ∧ Setup.init 0 5 1 [(0, 0)]%nat = Setup.Raised.
Proof.
  destruct (init_exceptions 3 3 2 [(7, 7)]%nat) as (Hok & _ & _).
  destruct (init_exceptions (-1) 0 0 []) as (_ & Hzero & _).
  destruct (init_exceptions 0 5 1 [(0, 0)]%nat) as (_ & _ & Hraise).
  split; [apply Hok; lia|]. split; [apply Hzero; reflexivity|].
  apply Hraise; [left; lia|lia|discriminate].
Defined.

(** The draws that visit the cells of a list one after the other. *)
Lemma place_mines_progress (h w target : Z) (cs : list Cell) :
  ∀ (mines : gset Cell) (board : list (list bool)),
    Setup.well_formed h w mines board →
    NoDup cs → (∀ c, c ∈ cs → in_bounds h w c ∧ c ∉ mines) →
    Z.of_nat (size mines) ≤ target →
    target ≤ Z.of_nat (size mines) + Z.of_nat (length cs) →
    ∃ res, Setup.place_mines ((λ c : Cell, (Z.to_nat c.1, Z.to_nat c.2)) <$> cs)
                             h w target mines board = Setup.Done res.
Proof.
  induction cs as [|[i j] cs IH]; intros mines board Hwf Hnd Hcs Hlo Hhi; simpl.
  - rewrite decide_True by (simpl in Hhi; lia). by eexists.
  - case_decide as Hsize; [by eexists|].
    destruct (Hcs (i, j)) as [(Hi0 & Hih & Hj0 & Hjw) Hfresh]; [left|].
    simpl in *. unfold Setup.randrange.
    rewrite !decide_True by lia. rewrite !Z2Nat.id by done.
    rewrite !Z.mod_small by lia.
    assert (Hin : in_bounds h w (i, j)) by (unfold in_bounds; simpl; lia).
    destruct Hwf as (Hlen & Hrows & Hmines & Hget).
    rewrite (Hget i j Hin). rewrite bool_decide_eq_false_2 by done.
    destruct (board_set_spec h w mines board i j
                (conj Hlen (conj Hrows (conj Hmines Hget))) Hin)
      as (board' & -> & Hwf').
    apply NoDup_cons in Hnd as [Hnotin Hnd].
    apply (IH _ _ Hwf' Hnd).
    + intros c Hc. destruct (Hcs c) as [Hcb Hcm]; [by right|].
      split; [done|]. rewrite elem_of_union, elem_of_singleton.
      intros [->|?]; done.
    + rewrite size_union by (by apply disjoint_singleton_l).
      rewrite size_singleton. lia.
    + rewrite size_union by (by apply disjoint_singleton_l).
      rewrite size_singleton. lia.
Qed.

(** X15: for every number of mines from zero to the number of cells of
    the grid there are draws with which [__init__] returns. *)
Theorem init_can_return (h w target : Z) :
  0 ≤ h → 0 ≤ w → 0 ≤ target → target ≤ h * w →
  ∃ draws g, Setup.init h w target draws = Setup.Done g.
Proof.
  intros Hh Hw Hlo Hhi.
  destruct (place_mines_progress h w target (pairs (range 0 h) (range 0 w))
              ∅ (Setup.empty_board h w) (well_formed_empty h w))
    as [[mines board] Hdone].
  - apply NoDup_pairs; apply NoDup_seqZ.
  - intros c Hc. apply elem_of_pairs in Hc. rewrite !elem_of_range in Hc.
    split; [unfold in_bounds; lia|apply not_elem_of_empty].
  - by rewrite size_empty.
  - rewrite size_empty, length_pairs, !length_range. lia.
  - eexists _, _. unfold Setup.init. by rewrite Hdone.
Qed.

Lemma init_can_return_witness :
  ∃ draws g, Setup.init 2 2 3 draws = Setup.Done g.
Proof. apply (init_can_return 2 2 3); lia. Defined.

(** ** The field and the set of mines answer alike *)

Lemma visit_nearby_agree (g : Setup.t) (cell : Cell) (n : Z) (ij : Cell) :
  Setup.well_formed (Setup.height g) (Setup.width g) (Setup.mines g) (Setup.board g) →
  Setup.visit_nearby g cell (Some n) ij
  = Some (Minesweeper.visit_nearby (Setup.abstract g) cell n ij).
Proof.
  intros (_ & _ & _ & Hget). destruct ij as [i j].
  unfold Setup.visit_nearby, Minesweeper.visit_nearby, Minesweeper.board. simpl.
  case_decide; [done|]. case_decide as Hin; [|done].
  rewrite (Hget i j) by (unfold in_bounds; simpl; tauto). done.
Qed.

Lemma foldl_visit_nearby_agree (g : Setup.t) (cell : Cell) (l : list Cell) (n : Z) :
  Setup.well_formed (Setup.height g) (Setup.width g) (Setup.mines g) (Setup.board g) →
  foldl (Setup.visit_nearby g cell) (Some n) l
  = Some (foldl (Minesweeper.visit_nearby (Setup.abstract g) cell) n l).
Proof.
  intros Hwf. revert n. induction l as [|ij l IH]; intros n; [done|].
  cbn [foldl]. rewrite visit_nearby_agree by done. apply IH.
Qed.

Lemma init_well_formed (h w target : Z) (draws : list (nat * nat)) (g : Setup.t) :
  Setup.init h w target draws = Setup.Done g →
  Setup.well_formed (Setup.height g) (Setup.width g) (Setup.mines g) (Setup.board g).
Proof.
  unfold Setup.init.
  pose proof (place_mines_spec draws h w target ∅ (Setup.empty_board h w)
                (well_formed_empty h w)) as Hspec.
  destruct (Setup.place_mines draws h w target ∅ (Setup.empty_board h w))
    as [[mines board]| |]; [|done|done].
  intros [= <-]. simpl. by destruct Hspec as (Hwf & _).
Qed.

(** X16: on the object that [__init__] built, [nearby_mines] raises no
    exception, on any cell, and returns the number that the set of mines
    gives; [is_mine] on a cell of the grid tells whether the cell is in
    the set of mines. *)
Theorem board_queries_agree (g : Setup.t) :
  Setup.well_formed (Setup.height g) (Setup.width g) (Setup.mines g) (Setup.board g) →
  (∀ cell, Setup.nearby_mines cell g
           = Some (Minesweeper.nearby_mines cell (Setup.abstract g)))
  ∧ (∀ cell, in_bounds (Setup.height g) (Setup.width g) cell →
             Setup.is_mine cell g = Some (bool_decide (cell ∈ Setup.mines g))
             ∧ Setup.is_mine cell g
               = Some (Minesweeper.is_mine cell (Setup.abstract g))).
Proof.
  intros Hwf. split.
  - intros cell. unfold Setup.nearby_mines, Minesweeper.nearby_mines.
    rewrite (foldl_pairs (Setup.visit_nearby g cell)).
    rewrite (foldl_pairs (Minesweeper.visit_nearby (Setup.abstract g) cell)).
    by apply foldl_visit_nearby_agree.
  - intros [i j] Hin. destruct Hwf as (_ & _ & _ & Hget).
    unfold Setup.is_mine, Minesweeper.is_mine, Minesweeper.board. simpl.
    by rewrite (Hget i j Hin).
Qed.

Lemma board_queries_agree_witness :
  ∃ g, Setup.init 2 3 2 [(0, 1); (4, 4); (1, 2)]%nat = Setup.Done g
       ∧ Setup.nearby_mines (1, 1) g
         = Some (Minesweeper.nearby_mines (1, 1) (Setup.abstract g)).
Proof.
  destruct (Setup.init 2 3 2 [(0, 1); (4, 4); (1, 2)]%nat) as [g| |] eqn:Hinit;
    [|vm_compute in Hinit; discriminate..].
  exists g. split; [reflexivity|].
  apply (board_queries_agree g). exact (init_well_formed _ _ _ _ _ Hinit).
Defined.

(** X17: [is_mine] takes its cell as Python indexes a list: a negative
    row or column counts from the other end of the grid, and a row or
    column off the grid on either side raises IndexError. *)
Theorem is_mine_indices (g : Setup.t) (i j : Z) :
  Setup.well_formed (Setup.height g) (Setup.width g) (Setup.mines g) (Setup.board g) →
  (- Setup.height g ≤ i < 0 → 0 ≤ j < Setup.width g →
   Setup.is_mine (i, j) g = Setup.is_mine (Setup.height g + i, j) g)
  ∧ (0 ≤ i < Setup.height g → - Setup.width g ≤ j < 0 →
     Setup.is_mine (i, j) g = Setup.is_mine (i, Setup.width g + j) g)
  ∧ (Setup.height g ≤ i ∨ i < - Setup.height g → 0 ≤ Setup.height g →
     Setup.is_mine (i, j) g = None)
  ∧ (0 ≤ i < Setup.height g → Setup.width g ≤ j ∨ j < - Setup.width g →
     Setup.is_mine (i, j) g = None).
Proof.
  intros (Hlen & Hrows & _ & _). unfold Setup.is_mine, Setup.board_get.
  split_and!.
  - intros Hi Hj.
    assert (E : Setup.py_get (Setup.board g) i
                = Setup.py_get (Setup.board g) (Setup.height g + i)).
    { unfold Setup.py_get. rewrite (decide_False (P := 0 ≤ i)) by lia.
      rewrite (decide_True (P := - _ ≤ i)) by lia.
      rewrite (decide_True (P := 0 ≤ Setup.height g + i)) by lia.
      f_equal. lia. }
    by rewrite E.
  - intros Hi Hj. rewrite py_get_nonneg by lia.
    destruct (Setup.board g !! Z.to_nat i) as [row|] eqn:Hrow; [|done]. simpl.
    assert (Hrl : length row = Z.to_nat (Setup.width g))
      by (apply Hrows; by eapply list_elem_of_lookup_2).
    unfold Setup.py_get. rewrite (decide_False (P := 0 ≤ j)) by lia.
    rewrite (decide_True (P := - _ ≤ j)) by lia.
    rewrite (decide_True (P := 0 ≤ Setup.width g + j)) by lia.
    f_equal. lia.
  - intros Hi Hh.
    assert (E : Setup.py_get (Setup.board g) i = None).
    { unfold Setup.py_get. destruct (decide (0 ≤ i)).
      - apply lookup_ge_None_2. lia.
      - by rewrite decide_False by lia. }
    by rewrite E.
  - intros Hi Hj. rewrite py_get_nonneg by lia.
    destruct (Setup.board g !! Z.to_nat i) as [row|] eqn:Hrow; [|done]. simpl.
    assert (Hrl : length row = Z.to_nat (Setup.width g))
      by (apply Hrows; by eapply list_elem_of_lookup_2).
    unfold Setup.py_get. destruct (decide (0 ≤ j)).
    + apply lookup_ge_None_2. lia.
    + by rewrite decide_False by lia.
Qed.

Lemma is_mine_indices_witness :
  ∃ g, Setup.init 2 3 2 [(0, 1); (4, 4); (1, 2)]%nat = Setup.Done g
       ∧ Setup.is_mine (-1, 2) g = Setup.is_mine (1, 2) g
       ∧ Setup.is_mine (2, 0) g = None.
Proof.
  destruct (Setup.init 2 3 2 [(0, 1); (4, 4); (1, 2)]%nat) as [g| |] eqn:Hinit;
    [|vm_compute in Hinit; discriminate..].
  exists g. split; [reflexivity|].
  pose proof (init_well_formed _ _ _ _ _ Hinit) as Hwf.
  assert (Hh : Setup.height g = 2 ∧ Setup.width g = 3).
  { vm_compute in Hinit. injection Hinit as <-. split; reflexivity. }
  destruct Hh as [Hh Hw].
  destruct (is_mine_indices g (-1) 2 Hwf) as (Hneg & _).
  destruct (is_mine_indices g 2 0 Hwf) as (_ & _ & Hout & _).
  split.
  - rewrite Hneg; [rewrite Hh; reflexivity|rewrite Hh; lia|rewrite Hw; lia].
  - apply Hout; rewrite Hh; [left|]; lia.
Defined.

(** ** The text of the board *)

Lemma pairs_lookup {A B} (p q : B → A) (xs : list B) (k : nat) :
  mjoin ((λ x, [p x; q x]) <$> xs) !! (2 * k)%nat = p <$> xs !! k
  ∧ mjoin ((λ x, [p x; q x]) <$> xs) !! (2 * k + 1)%nat = q <$> xs !! k.
Proof.
  revert k. induction xs as [|x xs IH]; intros k; [done|].
  destruct k as [|k]; [done|].
  replace (2 * S k)%nat with (S (S (2 * k))) by lia.
  replace (S (S (2 * k)) + 1)%nat with (S (S (2 * k + 1))) by lia.
  simpl. apply IH.
Qed.

Lemma pairs_length {A B} (p q : B → A) (xs : list B) :
  length (mjoin ((λ x, [p x; q x]) <$> xs)) = (2 * length xs)%nat.
Proof.
  induction xs as [|x xs IH]; [done|].
  change (mjoin ((λ x, [p x; q x]) <$> x :: xs))
    with ([p x; q x] ++ mjoin ((λ x, [p x; q x]) <$> xs)).
  rewrite length_app, IH. simpl. lia.
Qed.

Lemma range_lookup (n : Z) (k : nat) :
  (k < Z.to_nat n)%nat → range 0 n !! k = Some (Z.of_nat k).
Proof.
  intros Hk. unfold range. rewrite lookup_seqZ. split; [lia|]. lia.
Qed.

Lemma print_row_eq (g : Setup.t) (i : Z) :
  Setup.well_formed (Setup.height g) (Setup.width g) (Setup.mines g) (Setup.board g) →
  0 ≤ i < Setup.height g →
  Setup.print_row g i
  = Some (mjoin ((λ j, ["|"%char; sign (Setup.mines g) i j])
                   <$> range 0 (Setup.width g)) ++ ["|"%char]).
Proof.
  intros (_ & _ & _ & Hget) Hi. unfold Setup.print_row.
  assert (Hfold : ∀ (js : list Z) (acc : list ascii),
            (∀ j, j ∈ js → 0 ≤ j < Setup.width g) →
            foldl (λ line j,
                     line ← line;
                     b ← Setup.board_get (Setup.board g) i j;
                     Some (line ++ if b : bool then ["|"; "X"]%char
                                   else ["|"; " "]%char))
                  (Some acc) js
            = Some (acc ++ mjoin ((λ j, ["|"%char; sign (Setup.mines g) i j]) <$> js))).
  { induction js as [|j js IH]; intros acc Hjs; simpl.
    - by rewrite app_nil_r.
    - rewrite (Hget i j) by (unfold in_bounds; simpl;
                             specialize (Hjs j ltac:(left)); lia).
      simpl. rewrite IH by (intros j' Hj'; apply Hjs; by right).
      rewrite <- app_assoc. unfold sign. by case_bool_decide. }
  rewrite Hfold by (intros j Hj; apply elem_of_range in Hj; lia). done.
Qed.

Lemma print_eq (g : Setup.t) :
  Setup.well_formed (Setup.height g) (Setup.width g) (Setup.mines g) (Setup.board g) →
  Setup.print g
  = Some (mjoin ((λ i, [Setup.rule g;
                        mjoin ((λ j, ["|"%char; sign (Setup.mines g) i j])
                                 <$> range 0 (Setup.width g)) ++ ["|"%char]])
                   <$> range 0 (Setup.height g)) ++ [Setup.rule g]).
Proof.
  intros Hwf. unfold Setup.print.
  assert (Hfold : ∀ (rows : list Z) (acc : list (list ascii)),
            (∀ i, i ∈ rows → 0 ≤ i < Setup.height g) →
            foldl (λ out i,
                     out ← out;
                     row ← Setup.print_row g i;
                     Some (out ++ [Setup.rule g; row]))
                  (Some acc) rows
            = Some (acc ++ mjoin ((λ i, [Setup.rule g;
                        mjoin ((λ j, ["|"%char; sign (Setup.mines g) i j])
                                 <$> range 0 (Setup.width g)) ++ ["|"%char]])
                                    <$> rows))).
  { induction rows as [|i rows IH]; intros acc His; simpl.
    - by rewrite app_nil_r.
    - rewrite (print_row_eq g i Hwf) by (apply His; left). simpl.
      rewrite IH by (intros i' Hi'; apply His; by right).
      by rewrite <- app_assoc. }
  rewrite Hfold by (intros i Hi; apply elem_of_range in Hi; lia). done.
Qed.

(** X18: on the object that [__init__] built, [print] raises no exception
    and writes a rule, then for every row its text and a rule: twice
    [height] lines and one.  The text of a row has twice [width] signs
    and one; the sign for the cell in column [j] stands at position
    [2 j + 1] and is an X when the cell is a mine and a blank otherwise,
    with a bar before it and a bar at the end of the row. *)
Theorem print_shows_board (g : Setup.t) :
  Setup.well_formed (Setup.height g) (Setup.width g) (Setup.mines g) (Setup.board g) →
  ∃ lines,
    Setup.print g = Some lines
    ∧ length lines = (2 * Z.to_nat (Setup.height g) + 1)%nat
    ∧ (∀ k, (k ≤ Z.to_nat (Setup.height g))%nat →
            lines !! (2 * k)%nat = Some (Setup.rule g))
    ∧ ∀ i j, in_bounds (Setup.height g) (Setup.width g) (i, j) →
        ∃ row, lines !! (2 * Z.to_nat i + 1)%nat = Some row
               ∧ length row = (2 * Z.to_nat (Setup.width g) + 1)%nat
               ∧ row !! (2 * Z.to_nat j)%nat = Some "|"%char
               ∧ row !! (2 * Z.to_nat j + 1)%nat
                 = Some (if bool_decide ((i, j) ∈ Setup.mines g)
                         then "X"%char else " "%char)
               ∧ row !! (2 * Z.to_nat (Setup.width g))%nat = Some "|"%char.
Proof.
  intros Hwf.
  pose (rowtext := λ i : Z,
         mjoin ((λ j, ["|"%char; sign (Setup.mines g) i j])
                  <$> range 0 (Setup.width g)) ++ ["|"%char]).
  pose (body := mjoin ((λ i, [Setup.rule g; rowtext i]) <$> range 0 (Setup.height g))).
  exists (body ++ [Setup.rule g]). split; [by apply print_eq|].
  assert (Hbody : length body = (2 * Z.to_nat (Setup.height g))%nat).
  { unfold body. rewrite pairs_length, length_range. lia. }
  split_and!.
  - rewrite length_app, Hbody. simpl. lia.
  - intros k Hk. destruct (decide (k = Z.to_nat (Setup.height g))) as [->|Hne].
    + rewrite lookup_app_r by lia. rewrite Hbody, Nat.sub_diag. done.
    + rewrite lookup_app_l by lia. unfold body.
      destruct (pairs_lookup (λ _ : Z, Setup.rule g) rowtext
                  (range 0 (Setup.height g)) k) as [-> _].
      rewrite range_lookup by lia. done.
  - intros i j (Hi0 & Hih & Hj0 & Hjw). simpl in Hi0, Hih, Hj0, Hjw.
    exists (rowtext i). split_and!.
    + rewrite lookup_app_l by lia. unfold body.
      destruct (pairs_lookup (λ _ : Z, Setup.rule g) rowtext
                  (range 0 (Setup.height g)) (Z.to_nat i)) as [_ ->].
      rewrite range_lookup by lia. simpl. by rewrite Z2Nat.id.
    + unfold rowtext. rewrite length_app, pairs_length, length_range. simpl. lia.
    + unfold rowtext.
      rewrite lookup_app_l by (rewrite pairs_length, length_range; lia).
      destruct (pairs_lookup (λ _ : Z, "|"%char) (sign (Setup.mines g) i)
                  (range 0 (Setup.width g)) (Z.to_nat j)) as [-> _].
      rewrite range_lookup by lia. done.
    + unfold rowtext.
      rewrite lookup_app_l by (rewrite pairs_length, length_range; lia).
      destruct (pairs_lookup (λ _ : Z, "|"%char) (sign (Setup.mines g) i)
                  (range 0 (Setup.width g)) (Z.to_nat j)) as [_ ->].
      rewrite range_lookup by lia. simpl. by rewrite Z2Nat.id.
    + unfold rowtext.
      rewrite lookup_app_r by (rewrite pairs_length, length_range; lia).
      rewrite pairs_length, length_range.
      replace (2 * Z.to_nat (Setup.width g)
               - 2 * Z.to_nat (Setup.width g - 0))%nat with 0%nat by lia.
      done.
Qed.

Lemma print_shows_board_witness :
  ∃ g, Setup.init 2 3 2 [(0, 1); (4, 4); (1, 2)]%nat = Setup.Done g
       ∧ ∃ lines, Setup.print g = Some lines
                  ∧ length lines = (2 * Z.to_nat (Setup.height g) + 1)%nat.
Proof.
  destruct (Setup.init 2 3 2 [(0, 1); (4, 4); (1, 2)]%nat) as [g| |] eqn:Hinit;
    [|vm_compute in Hinit; discriminate..].
  exists g. split; [reflexivity|].
  destruct (print_shows_board g (init_well_formed _ _ _ _ _ Hinit))
    as (lines & Hprint & Hlen & _).
  exists lines. split; [exact Hprint|exact Hlen].
Defined.

(** The text of a board of two rows and three columns. *)
Example print_example :
  ∃ g, Setup.init 2 3 2 [(0, 1); (4, 4); (1, 2)]%nat = Setup.Done g
       ∧ Setup.print g
         = Some [ ["-"; "-"; "-"; "-"; "-"; "-"; "-"];
                  ["|"; " "; "|"; "X"; "|"; " "; "|"];
                  ["-"; "-"; "-"; "-"; "-"; "-"; "-"];
                  ["|"; " "; "|"; " "; "|"; "X"; "|"];
                  ["-"; "-"; "-"; "-"; "-"; "-"; "-"] ]%char.
Proof. eexists. split; vm_compute; reflexivity. Qed.

(** * The calls of the agent *)

(** ** The two queries *)




(** ** The marks of a run *)

Lemma mine_cells_app (ms1 ms2 : list mark) :
  mine_cells (ms1 ++ ms2) = mine_cells ms1 ∪ mine_cells ms2.
Proof. unfold mine_cells. by rewrite omap_app, list_to_set_app_L. Qed.

Lemma safe_cells_app (ms1 ms2 : list mark) :
  safe_cells (ms1 ++ ms2) = safe_cells ms1 ∪ safe_cells ms2.
Proof. unfold safe_cells. by rewrite omap_app, list_to_set_app_L. Qed.

Lemma mark_sentences_snoc (ms : list mark) (m : mark) (K : list Sentence.t) :
  (λ S, mark_sentence S m) <$> (mark_sentences ms <$> K)
  = mark_sentences (ms ++ [m]) <$> K.
Proof.
  rewrite <- list_fmap_compose. apply list_fmap_ext. intros i S _. simpl.
  by rewrite mark_sentences_app.
Qed.

(** What a list of marks leaves of a sentence. *)
Lemma mark_sentences_spec (ms : list mark) (S : Sentence.t) :
  cells (mark_sentences ms S) = cells S ∖ (mine_cells ms ∪ safe_cells ms)
  ∧ count S - Sentence.len (cells S ∩ mine_cells ms) ≤ count (mark_sentences ms S)
  ∧ count (mark_sentences ms S) ≤ count S.
Proof.
  revert S. induction ms as [|m ms IH]; intros S.
  - unfold mine_cells, safe_cells. simpl. pose proof (len_nonneg (cells S ∩ ∅)).
    split; [set_solver|]. replace (cells S ∩ ∅) with (∅ : gset Cell) by set_solver.
    unfold Sentence.len. rewrite size_empty. lia.
  - change (mark_sentences (m :: ms) S) with (mark_sentences ms (mark_sentence S m)).
    destruct (IH (mark_sentence S m)) as (Hc & Hlo & Hhi).
    rewrite Hc. clear Hc.
    destruct m as [c|c]; simpl in *; unfold Sentence.mark_mine, Sentence.mark_safe in *.
    + change (mine_cells (Mine c :: ms)) with ({[c]} ∪ mine_cells ms).
      change (safe_cells (Mine c :: ms)) with (safe_cells ms).
      destruct (decide (c ∈ cells S)) as [Hin|Hout]; simpl in *.
      * split; [set_solver|].
        assert (Hsz : Sentence.len (cells S ∩ ({[c]} ∪ mine_cells ms))
                      = 1 + Sentence.len ((cells S ∖ {[c]}) ∩ mine_cells ms)).
        { unfold Sentence.len.
          replace (cells S ∩ ({[c]} ∪ mine_cells ms))
            with ({[c]} ∪ (cells S ∖ {[c]}) ∩ mine_cells ms).
          - rewrite size_union by set_solver. rewrite size_singleton. lia.
          - apply set_eq. intros x. destruct (decide (x = c)); set_solver. }
        lia.
      * split; [set_solver|].
        assert (Sentence.len (cells S ∩ mine_cells ms)
                ≤ Sentence.len (cells S ∩ ({[c]} ∪ mine_cells ms))).
        { unfold Sentence.len. apply inj_le, subseteq_size. set_solver. }
        lia.
    + change (mine_cells (Safe c :: ms)) with (mine_cells ms).
      change (safe_cells (Safe c :: ms)) with ({[c]} ∪ safe_cells ms).
      destruct (decide (c ∈ cells S)) as [Hin|Hout]; simpl in *.
      * split; [set_solver|].
        assert (Sentence.len ((cells S ∖ {[c]}) ∩ mine_cells ms)
                ≤ Sentence.len (cells S ∩ mine_cells ms)).
        { unfold Sentence.len. apply inj_le, subseteq_size. set_solver. }
        lia.
      * split; [set_solver|]. lia.
Qed.

(** The marking pass is a list of marks made on the sets and on every
    sentence of the list. *)
Lemma propagate_marks (s : MinesweeperAI.t) :
  ∃ ms, height (MinesweeperAI.propagate s) = height s
        ∧ width (MinesweeperAI.propagate s) = width s
        ∧ moves_made (MinesweeperAI.propagate s) = moves_made s
        ∧ mines (MinesweeperAI.propagate s) = mine_cells ms ∪ mines s
        ∧ safes (MinesweeperAI.propagate s) = safe_cells ms ∪ safes s
        ∧ knowledge (MinesweeperAI.propagate s) = mark_sentences ms <$> knowledge s.
Proof.
  apply (propagate_ind
           (λ s', ∃ ms, height s' = height s ∧ width s' = width s
                        ∧ moves_made s' = moves_made s
                        ∧ mines s' = mine_cells ms ∪ mines s
                        ∧ safes s' = safe_cells ms ∪ safes s
                        ∧ knowledge s' = mark_sentences ms <$> knowledge s)).
  - intros s' S c (ms & Hh & Hw & Hmv & Hmi & Hsa & Hk) _ _ _.
    exists (ms ++ [Mine c]). simpl. rewrite mine_cells_app, safe_cells_app.
    split_and!; try done.
    + rewrite Hmi. unfold mine_cells at 2. simpl. set_solver.
    + rewrite Hsa. unfold safe_cells at 2. simpl. set_solver.
    + rewrite Hk. apply (mark_sentences_snoc ms (Mine c)).
  - intros s' S c (ms & Hh & Hw & Hmv & Hmi & Hsa & Hk) _ _ _.
    exists (ms ++ [Safe c]). simpl. rewrite mine_cells_app, safe_cells_app.
    split_and!; try done.
    + rewrite Hmi. unfold mine_cells at 2. simpl. set_solver.
    + rewrite Hsa. unfold safe_cells at 2. simpl. set_solver.
    + rewrite Hk. apply (mark_sentences_snoc ms (Safe c)).
  - exists []. unfold mine_cells, safe_cells. simpl.
    split_and!; try done; [set_solver..|].
    symmetry. apply list_fmap_id.
Qed.

(** The steps before the two loops: one mark and at most one append. *)
Lemma observe_marks (cell : Cell) (n : Z) (s : MinesweeperAI.t) :
  height (MinesweeperAI.observe cell n s) = height s
  ∧ width (MinesweeperAI.observe cell n s) = width s
  ∧ moves_made (MinesweeperAI.observe cell n s) = {[cell]} ∪ moves_made s
  ∧ mines (MinesweeperAI.observe cell n s) = mines s
  ∧ safes (MinesweeperAI.observe cell n s) = {[cell]} ∪ safes s
  ∧ ∃ new, knowledge (MinesweeperAI.observe cell n s)
           = (mark_sentences [Safe cell] <$> knowledge s) ++ new.
Proof.
  unfold MinesweeperAI.observe, MinesweeperAI.add_new_sentence.
  destruct (MinesweeperAI.return_neighbors _ _) as [nb mc].
  repeat case_decide; simpl; split_and!; try done.
  - by eexists.
  - exists []. by rewrite app_nil_r.
  - exists []. by rewrite app_nil_r.
Qed.

(** A whole call of [add_knowledge], from the state after its first
    steps. *)
Lemma add_knowledge_marks (fuel : nat) (cell : Cell) (n : Z)
      (s s' : MinesweeperAI.t) :
  MinesweeperAI.add_knowledge fuel cell n s = Some s' →
  ∃ ms inferred,
    height s' = height s ∧ width s' = width s
    ∧ moves_made s' = {[cell]} ∪ moves_made s
    ∧ mines s' = mine_cells ms ∪ mines s
    ∧ safes s' = safe_cells ms ∪ ({[cell]} ∪ safes s)
    ∧ knowledge s'
      = (mark_sentences ms <$> knowledge (MinesweeperAI.observe cell n s))
        ++ inferred.
Proof.
  unfold MinesweeperAI.add_knowledge. intros Hrun.
  destruct (infer_frame _ _ _ Hrun) as (Hh & Hw & Hmv & Hmi & Hsa & new & Hk).
  destruct (propagate_marks (MinesweeperAI.observe cell n s))
    as (ms & Hh1 & Hw1 & Hmv1 & Hmi1 & Hsa1 & Hk1).
  destruct (observe_marks cell n s) as (Hh0 & Hw0 & Hmv0 & Hmi0 & Hsa0 & _).
  exists ms, new. split_and!; try congruence.
Qed.

Lemma exec_marks (fuel : nat) (o : MinesweeperAI.op) (s s' : MinesweeperAI.t) :
  MinesweeperAI.exec fuel o s = Some s' →
  ∃ ms new,
    height s' = height s ∧ width s' = width s
    ∧ moves_made s ⊆ moves_made s'
    ∧ mines s' = mine_cells ms ∪ mines s
    ∧ safes s' = safe_cells ms ∪ safes s
    ∧ knowledge s' = (mark_sentences ms <$> knowledge s) ++ new.
Proof.
  destruct o as [c|c|cell n| |r]; simpl.
  - intros [= <-]. exists [Mine c], []. unfold mine_cells, safe_cells. simpl.
    rewrite app_nil_r. split_and!; try done; set_solver.
  - intros [= <-]. exists [Safe c], []. unfold mine_cells, safe_cells. simpl.
    rewrite app_nil_r. split_and!; try done; set_solver.
  - intros Hrun.
    destruct (add_knowledge_marks _ _ _ _ _ Hrun)
      as (ms & inferred & Hh & Hw & Hmv & Hmi & Hsa & Hk).
    destruct (observe_marks cell n s) as (_ & _ & _ & _ & _ & new & Hk0).
    exists (Safe cell :: ms), ((mark_sentences ms <$> new) ++ inferred).
    change (mine_cells (Safe cell :: ms)) with (mine_cells ms).
    change (safe_cells (Safe cell :: ms)) with ({[cell]} ∪ safe_cells ms).
    split_and!; try done.
    + rewrite Hmv. set_solver.
    + rewrite Hsa. set_solver.
    + rewrite Hk, Hk0, fmap_app, <- list_fmap_compose, app_assoc. done.
  - intros [= <-]. exists [], []. unfold mine_cells, safe_cells. simpl.
    rewrite app_nil_r, list_fmap_id. split_and!; try done; set_solver.
  - intros [= <-]. exists [], []. unfold mine_cells, safe_cells. simpl.
    rewrite app_nil_r, list_fmap_id. split_and!; try done; set_solver.
Qed.

Lemma run_marks (fuel : nat) (ops : list MinesweeperAI.op)
      (s s' : MinesweeperAI.t) :
  MinesweeperAI.run fuel ops s = Some s' →
  ∃ ms new,
    height s' = height s ∧ width s' = width s
    ∧ moves_made s ⊆ moves_made s'
    ∧ mines s' = mine_cells ms ∪ mines s
    ∧ safes s' = safe_cells ms ∪ safes s
    ∧ knowledge s' = (mark_sentences ms <$> knowledge s) ++ new.
Proof.
  revert s. induction ops as [|o ops IH]; intros s; simpl.
  - intros [= <-]. exists [], []. unfold mine_cells, safe_cells. simpl.
    rewrite app_nil_r, list_fmap_id. split_and!; try done; set_solver.
  - destruct (MinesweeperAI.exec fuel o s) as [s1|] eqn:Hexec; [|done].
    intros Hrun.
    destruct (exec_marks _ _ _ _ Hexec) as (ms1 & new1 & Hh1 & Hw1 & Hmv1 & Hmi1 & Hsa1 & Hk1).
    destruct (IH _ Hrun) as (ms2 & new2 & Hh2 & Hw2 & Hmv2 & Hmi2 & Hsa2 & Hk2).
    exists (ms1 ++ ms2), ((mark_sentences ms2 <$> new1) ++ new2).
    rewrite mine_cells_app, safe_cells_app.
    split_and!; try congruence.
    + set_solver.
    + rewrite Hmi2, Hmi1. set_solver.
    + rewrite Hsa2, Hsa1. set_solver.
    + rewrite Hk2, Hk1, fmap_app, <- list_fmap_compose, app_assoc.
      f_equal. f_equal. apply list_fmap_ext. intros i S _. simpl.
      by rewrite mark_sentences_app.
Qed.

(** C8: over any sequence of calls that return, [moves_made], [mines]
    and [safes] lose no cell and the list gets no shorter.  There is one
    list of marks for the whole sequence: the cells it strikes out as
    mines are the cells that [mines] gained, those it strikes out as
    safe are the cells that [safes] gained, and the list of the agent is
    the old list, each sentence at its index with exactly these cells
    struck out and its count lowered by at most the number of its cells
    that became mines, followed by the sentences appended. *)
Theorem state_only_grows (fuel : nat) (ops : list MinesweeperAI.op)
        (self self' : MinesweeperAI.t) :
  MinesweeperAI.run fuel ops self = Some self' →
  moves_made self ⊆ moves_made self'
  ∧ mines self ⊆ mines self'
  ∧ safes self ⊆ safes self'
  ∧ (length (knowledge self) ≤ length (knowledge self'))%nat
  ∧ ∃ ms new,
      mines self' = mine_cells ms ∪ mines self
      ∧ safes self' = safe_cells ms ∪ safes self
      ∧ knowledge self' = (mark_sentences ms <$> knowledge self) ++ new
      ∧ ∀ i S, knowledge self !! i = Some S →
          ∃ S', knowledge self' !! i = Some S'
                ∧ S' = mark_sentences ms S
                ∧ cells S' = cells S ∖ (mine_cells ms ∪ safe_cells ms)
                ∧ count S - Sentence.len (cells S ∩ mine_cells ms) ≤ count S'
                ∧ count S' ≤ count S.
Proof.
  intros Hrun.
  destruct (run_marks _ _ _ _ Hrun) as (ms & new & _ & _ & Hmv & Hmi & Hsa & Hk).
  split_and!; [done|set_solver|set_solver| |].
  - rewrite Hk, length_app, length_fmap. lia.
  - exists ms, new. split_and!; try done.
    intros i S Hi. exists (mark_sentences ms S).
    destruct (mark_sentences_spec ms S) as (Hc & Hlo & Hhi).
    split_and!; try done.
    rewrite Hk, lookup_app_l.
    + by rewrite list_lookup_fmap, Hi.
    + rewrite length_fmap. by eapply lookup_lt_Some.
Qed.

(** A game under way: the agent has cells in its three sets and a
    sentence with cells, and the calls strike cells out of it. *)
Lemma state_only_grows_witness :
  ∃ self', MinesweeperAI.run 30 later_ops under_way = Some self'
    ∧ moves_made under_way ⊆ moves_made self'
    ∧ mines under_way ⊆ mines self'
    ∧ safes under_way ⊆ safes self'
    ∧ (length (knowledge under_way) ≤ length (knowledge self'))%nat
    ∧ ∃ S', knowledge self' !! 2%nat = Some S'
            ∧ cells S' ⊆ {[(1, 2); (1, 3); (2, 3); (3, 2); (3, 3)]}
            ∧ count S' ≤ 1.
Proof.
  destruct (MinesweeperAI.run 30 later_ops under_way) as [self'|] eqn:Hrun;
    [|vm_compute in Hrun; discriminate].
  exists self'. split; [reflexivity|].
  destruct (state_only_grows 30 later_ops under_way self' Hrun)
    as (Hmv & Hmi & Hsa & Hlen & ms & new & _ & _ & _ & Hidx).
  split_and!; [exact Hmv|exact Hmi|exact Hsa|exact Hlen|].
  destruct (Hidx 2%nat (Sentence {[(1, 2); (1, 3); (2, 3); (3, 2); (3, 3)]} 1) eq_refl)
    as (S' & HS' & _ & Hc & _ & Hhi).
  exists S'. split; [exact HS'|]. split; [|exact Hhi].
  rewrite Hc. apply subseteq_difference_l. reflexivity.
Defined.

Example under_way_reached :
  MinesweeperAI.feed 30 under_way_obs (MinesweeperAI.init 4 4) = Some under_way.
Proof. by_compute. Qed.

Example later_ops_result :
  MinesweeperAI.run 30 later_ops under_way
  = Some (MinesweeperAI.MinesweeperAI 4 4 {[(0, 0); (3, 0); (2, 2); (3, 2)]}
            {[(0, 1); (1, 0); (1, 1); (3, 3)]}
            {[(0, 0); (3, 0); (2, 0); (3, 1); (2, 1); (2, 2); (1, 2); (3, 2)]}
            [Sentence ∅ 0; Sentence ∅ 0; Sentence {[(1, 3); (2, 3)]} 0;
             Sentence {[(2, 3)]} 0; Sentence {[(1, 3)]} 0]).
Proof. by_compute. Qed.

(** ** The first steps of a call *)

Lemma sentence_mark_safe_eq (cell : Cell) (S : Sentence.t) :
  Sentence.mark_safe cell S = Sentence (cells S ∖ {[cell]}) (count S).
Proof.
  unfold Sentence.mark_safe. destruct (decide (cell ∈ cells S)) as [|Hout]; [done|].
  destruct S as [cs n]. simpl in *. f_equal. set_solver.
Qed.

(** C5: [add_knowledge] starts by adding the cell to [moves_made] and
    marking it safe, in the set and in every sentence: each sentence of
    the list loses the cell and keeps its count.  The neighbours it
    computes are the cells of the grid next to the cell, at most eight,
    and the count of known mines is the number of them in [mines].  The
    sentence over the neighbours that are neither known mines nor known
    safe, with the count lowered by the known mines, is appended when it
    has a cell and the list has no equal sentence, and nothing is
    appended otherwise.  When the call returns, [moves_made] has gained
    the cell and nothing else, the cell is safe, and the list is the list
    of these first steps with the cells struck out that the marking pass
    put into [mines] and [safes], followed by the sentences inferred; so
    the list holds a sentence over the undetermined neighbours that are
    still undetermined.  The call returns when the agent is truthful
    about a board and the cell and its count come from that board. *)
Theorem observe_exact (cell : Cell) (n : Z) (self : MinesweeperAI.t) :
  let mid := MinesweeperAI.observe cell n self in
  let neighbors := (MinesweeperAI.return_neighbors cell self).1 in
  let known_mine_count := (MinesweeperAI.return_neighbors cell self).2 in
  let unknown := neighbors ∖ mines self ∖ safes self in
  let struck := (λ S, Sentence (cells S ∖ {[cell]}) (count S)) <$> knowledge self in
  let fresh := Sentence unknown (n - known_mine_count) in
  moves_made mid = {[cell]} ∪ moves_made self
  ∧ safes mid = {[cell]} ∪ safes self
  ∧ mines mid = mines self
  ∧ (∀ c, c ∈ neighbors ↔ in_bounds (height self) (width self) c ∧ adjacent c cell)
  ∧ (size neighbors ≤ 8)%nat
  ∧ known_mine_count = Sentence.len (neighbors ∩ mines self)
  ∧ neighbors ∖ mines mid ∖ safes mid = unknown
  ∧ knowledge mid
    = (if decide (unknown ≠ ∅ ∧ fresh ∉ struck) then struck ++ [fresh] else struck)
  ∧ (∀ fuel self', MinesweeperAI.add_knowledge fuel cell n self = Some self' →
       moves_made self' = {[cell]} ∪ moves_made self
       ∧ cell ∈ safes self'
       ∧ (∃ ms inferred,
             mines self' = mine_cells ms ∪ mines self
             ∧ safes self' = safe_cells ms ∪ ({[cell]} ∪ safes self)
             ∧ knowledge self' = (mark_sentences ms <$> knowledge mid) ++ inferred
             ∧ ∀ i S, knowledge mid !! i = Some S →
                 ∃ S', knowledge self' !! i = Some S'
                       ∧ cells S' = cells S ∖ (mine_cells ms ∪ safe_cells ms)
                       ∧ count S - Sentence.len (cells S ∩ mine_cells ms) ≤ count S'
                       ∧ count S' ≤ count S)
       ∧ (unknown ≠ ∅ →
          ∃ i S', knowledge self' !! i = Some S'
                  ∧ (i ≤ length (knowledge self))%nat
                  ∧ cells S' = unknown ∖ (mines self' ∪ safes self')
                  ∧ count S' ≤ n - known_mine_count))
  ∧ (∀ g, height self = Minesweeper.height g → width self = Minesweeper.width g →
          consistent g (cell, n) → truthful (Minesweeper.mines g) self →
          ∃ fuel self', MinesweeperAI.add_knowledge fuel cell n self = Some self').
Proof.
  intros mid neighbors known_mine_count unknown struck fresh.
  destruct (return_neighbors_spec cell self) as (Hnb & Hsize & Hmc).
  set (s1 := MinesweeperAI.mark_safe cell
               (MinesweeperAI.set_moves_made ({[cell]} ∪ moves_made self) self)).
  assert (Hrn : MinesweeperAI.return_neighbors cell s1
                = MinesweeperAI.return_neighbors cell self)
    by (by rewrite !return_neighbors_eq).
  assert (Hobs : mid = MinesweeperAI.add_new_sentence cell n s1) by done.
  unfold MinesweeperAI.add_new_sentence in Hobs. rewrite Hrn in Hobs.
  fold neighbors known_mine_count in Hnb, Hsize, Hmc.
  rewrite (surjective_pairing (MinesweeperAI.return_neighbors cell self)) in Hobs.
  fold neighbors known_mine_count in Hobs. simpl in Hobs.
  assert (Hstruck : Sentence.mark_safe cell <$> knowledge self = struck).
  { apply list_fmap_ext. intros i S _. apply sentence_mark_safe_eq. }
  rewrite Hstruck in Hobs.
  assert (Hsets : moves_made mid = {[cell]} ∪ moves_made self
                  ∧ safes mid = {[cell]} ∪ safes self
                  ∧ mines mid = mines self).
  { rewrite Hobs. by repeat case_decide. }
  destruct Hsets as (Hmv & Hsa & Hmi).
  assert (Hcell : cell ∉ neighbors).
  { intros Hin. apply Hnb in Hin as [_ (_ & _ & Hne)]. done. }
  assert (Hun : neighbors ∖ mines self ∖ ({[cell]} ∪ safes self) = unknown).
  { unfold unknown. set_solver. }
  assert (Hk : knowledge mid
               = (if decide (unknown ≠ ∅ ∧ fresh ∉ struck)
                  then struck ++ [fresh] else struck)).
  { rewrite Hobs, Hun. fold fresh. repeat case_decide; try done; tauto. }
  split_and!; try done.
  - by rewrite Hmi, Hsa.
  - intros fuel self' Hrun.
    destruct (add_knowledge_marks _ _ _ _ _ Hrun)
      as (ms & inferred & _ & _ & Hmv' & Hmi' & Hsa' & Hk').
    fold mid in Hk'.
    assert (Hidx : ∀ i S, knowledge mid !! i = Some S →
              ∃ S', knowledge self' !! i = Some S'
                    ∧ cells S' = cells S ∖ (mine_cells ms ∪ safe_cells ms)
                    ∧ count S - Sentence.len (cells S ∩ mine_cells ms) ≤ count S'
                    ∧ count S' ≤ count S).
    { intros i S Hi. exists (mark_sentences ms S).
      destruct (mark_sentences_spec ms S) as (Hc & Hlo & Hhi).
      split_and!; try done.
      rewrite Hk', lookup_app_l.
      - by rewrite list_lookup_fmap, Hi.
      - rewrite length_fmap. by eapply lookup_lt_Some. }
    split_and!; [done|rewrite Hsa'; set_solver| |].
    + exists ms, inferred. by split_and!.
    + intros Hne.
      assert (Hfresh : ∃ i, knowledge mid !! i = Some fresh
                            ∧ (i ≤ length (knowledge self))%nat).
      { rewrite Hk. case_decide as Hd.
        - exists (length struck). split.
          + by rewrite lookup_app_r, Nat.sub_diag by lia.
          + unfold struck. by rewrite length_fmap.
        - assert (Hin : fresh ∈ struck).
          { destruct (decide (fresh ∈ struck)) as [|Hout]; [done|].
            destruct Hd. by split. }
          apply list_elem_of_lookup in Hin as [i Hi]. exists i. split; [done|].
          apply lookup_lt_Some in Hi. unfold struck in Hi.
          rewrite length_fmap in Hi. lia. }
      destruct Hfresh as (i & Hi & Hle).
      destruct (Hidx i fresh Hi) as (S' & HS' & Hc & _ & Hhi).
      exists i, S'. split_and!; try done.
      rewrite Hc, Hmi', Hsa'. simpl. unfold unknown. set_solver.
  - intros g Hh Hw Hcons Htrue.
    apply (add_knowledge_terminates g (cell, n) self Hh Hw Hcons Htrue).
Qed.

(** The cell (3,2) with one mine around it, in the game under way: the
    sentence {(2,3),(3,3)} = 1 is appended. *)
Lemma observe_exact_witness :
  knowledge (MinesweeperAI.observe (3, 2) 1 under_way)
  = [Sentence ∅ 0; Sentence ∅ 0; Sentence {[(1, 2); (1, 3); (2, 3); (3, 3)]} 1;
     Sentence {[(2, 3); (3, 3)]} 1]
  ∧ ∃ self', MinesweeperAI.add_knowledge 30 (3, 2) 1 under_way = Some self'
      ∧ moves_made self' = {[(3, 2)]} ∪ moves_made under_way
      ∧ ∃ i S', knowledge self' !! i = Some S'
                ∧ (i ≤ 3)%nat
                ∧ cells S' = {[(2, 3); (3, 3)]} ∖ (mines self' ∪ safes self').
Proof.
  pose proof (observe_exact (3, 2) 1 under_way) as H. cbv zeta in H.
  destruct H as (_ & _ & _ & _ & _ & _ & _ & Hk & Hcall & _).
  split.
  - rewrite Hk. vm_compute. reflexivity.
  - destruct (MinesweeperAI.add_knowledge 30 (3, 2) 1 under_way) as [self'|] eqn:Hrun;
      [|vm_compute in Hrun; discriminate].
    exists self'. split; [reflexivity|].
    destruct (Hcall 30%nat self' Hrun) as (Hmv & _ & _ & Hfresh).
    split; [exact Hmv|].
    assert (Hun : (MinesweeperAI.return_neighbors (3, 2) under_way).1
                    ∖ mines under_way ∖ safes under_way
                  = {[(2, 3); (3, 3)]}) by by_compute.
    rewrite Hun in Hfresh.
    destruct Hfresh as (i & S' & HS' & Hi & Hc & _); [by_compute|].
    exists i, S'. split; [exact HS'|]. split; [exact Hi|exact Hc].
Defined.

(** ** The guard of the appends *)

(** C6, amended: every append is guarded by a test of membership by
    value, so an append never adds a sentence equal to one of the list.
    The step that appends the new sentence of a call leaves the list as
    it is or adds one sentence that the list did not have.  When the
    inference ends (it does on a truthful agent) it has added sentences
    at the end of the list, each of them different from every sentence
    that stood before it at the time.  So a list without two equal
    sentences has none after either step; the markings do not keep this,
    as two sentences can become equal when cells are struck out. *)
Theorem appends_keep_distinct (cell : Cell) (n : Z) (self : MinesweeperAI.t) :
  (knowledge (MinesweeperAI.add_new_sentence cell n self) = knowledge self
   ∨ ∃ R, knowledge (MinesweeperAI.add_new_sentence cell n self)
          = knowledge self ++ [R]
          ∧ R ∉ knowledge self)
  ∧ (∀ fuel self', MinesweeperAI.infer fuel self = Some self' →
       ∃ new, knowledge self' = knowledge self ++ new
              ∧ (∀ k R, new !! k = Some R → R ∉ knowledge self ++ take k new)
              ∧ NoDup new
              ∧ ∀ R, R ∈ new → R ∉ knowledge self)
  ∧ (∀ board, truthful board self →
              ∃ fuel self', MinesweeperAI.infer fuel self = Some self')
  ∧ (NoDup (knowledge self) →
     NoDup (knowledge (MinesweeperAI.add_new_sentence cell n self))
     ∧ ∀ fuel self', MinesweeperAI.infer fuel self = Some self' →
                     NoDup (knowledge self')).
Proof.
  split_and!.
  - unfold MinesweeperAI.add_new_sentence.
    destruct (MinesweeperAI.return_neighbors cell self) as [nb mc].
    repeat case_decide; simpl; [|by left..].
    right. by eexists.
  - intros fuel self' Hrun.
    apply outer_loop_steps, steps_appended in Hrun as (_ & new & Hk & Hnew).
    exists new. split; [done|].
    assert (Hfresh : ∀ k R, new !! k = Some R → R ∉ knowledge self ++ take k new)
      by (intros k R HR; by destruct (Hnew k R HR)).
    split_and!; [done| |].
    + apply NoDup_alt. intros i j R Hi Hj.
      destruct (Nat.lt_trichotomy i j) as [Hlt|[Heq|Hgt]]; [|done|].
      * destruct (Hfresh j R Hj). apply elem_of_app. right.
        apply list_elem_of_lookup. exists i. by rewrite lookup_take_lt.
      * destruct (Hfresh i R Hi). apply elem_of_app. right.
        apply list_elem_of_lookup. exists j. by rewrite lookup_take_lt.
    + intros R HR Hin. apply list_elem_of_lookup in HR as [k Hk'].
      destruct (Hfresh k R Hk'). apply elem_of_app. by left.
  - intros board Htrue.
    apply (infer_terminates board (mentioned (knowledge self))).
    by apply truthful_bounded.
  - intros HK. split; [by apply NoDup_add_new_sentence|].
    intros fuel self'. by apply NoDup_infer.
Qed.

(** The game under way, where the new sentence of the cell (3,2) is
    appended, and scenario C, where the inference appends two sentences. *)
Lemma appends_keep_distinct_witness :
  (∃ R, knowledge (MinesweeperAI.add_new_sentence (3, 2) 1 under_way)
        = knowledge under_way ++ [R]
        ∧ R ∉ knowledge under_way)
  ∧ ∃ self' new, MinesweeperAI.infer 30 scenario_c_mid = Some self'
      ∧ knowledge self' = knowledge scenario_c_mid ++ new
      ∧ length new = 2%nat
      ∧ NoDup new
      ∧ NoDup (knowledge self').
Proof.
  split.
  - destruct (appends_keep_distinct (3, 2) 1 under_way) as ([Hsame|Hnew] & _).
    + vm_compute in Hsame. discriminate.
    + exact Hnew.
  - destruct (MinesweeperAI.infer 30 scenario_c_mid) as [self'|] eqn:Hrun;
      [|vm_compute in Hrun; discriminate].
    destruct (appends_keep_distinct (1, 1) 1 scenario_c_mid)
      as (_ & Hinfer & _ & Hnodup).
    destruct (Hinfer 30%nat self' Hrun) as (new & Hk & _ & Hnd & _).
    exists self', new. split; [reflexivity|]. split; [exact Hk|].
    split; [|split; [exact Hnd|]].
    + assert (Hlen : length (knowledge self') = 5%nat).
      { vm_compute in Hrun. injection Hrun as <-. reflexivity. }
      rewrite Hk, length_app in Hlen.
      assert (Hmid : length (knowledge scenario_c_mid) = 3%nat) by by_compute.
      rewrite Hmid in Hlen. lia.
    + apply (proj2 (Hnodup ltac:(by_compute)) 30%nat self' Hrun).
Defined.

(** ** The inference *)

Lemma truthful_scenario_c_mid :
  truthful (Minesweeper.mines scenario_c_board) scenario_c_mid.
Proof.
  apply truthful_propagate.
  apply (truthful_observe scenario_c_board ((1, 1), 1) scenario_c_two);
    [done|done|unfold consistent, in_bounds; simpl; split_and!; lia || by_compute|].
  apply (feed_sound scenario_c_board 30 (take 2 scenario_c_obs)
           (Forall_take _ _ _ consistent_scenario_c)
           (MinesweeperAI.init 2 4) scenario_c_two eq_refl eq_refl
           (truthful_init _ _ _) (stripped_init _ _) scenario_c_two_reached).
Qed.

(** C3, amended: the inference ends on an agent that is truthful about a
    board; it need not end otherwise.  When
    it ends, its result does not depend on the turns allowed, and it has
    changed nothing but the end of the list.  Every sentence it appended
    is the one deduced from two different sentences with cells standing
    before it in the list, the cells of the first among those of the
    second, and equals no sentence standing before it.  For every such
    pair of the list whose second sentence was in the list when the
    inference started, or stands at or before the first, the sentence
    deduced is in the list.  There is no test on the sentence deduced; on
    an agent that is truthful about some board every sentence of the list
    is well formed when the inference ends. *)
Theorem inference_exact (self : MinesweeperAI.t) :
  (∀ board, truthful board self →
            ∃ fuel self', MinesweeperAI.infer fuel self = Some self')
  ∧ ∀ fuel self', MinesweeperAI.infer fuel self = Some self' →
      (∀ fuel', (fuel ≤ fuel')%nat → MinesweeperAI.infer fuel' self = Some self')
      ∧ height self' = height self ∧ width self' = width self
      ∧ moves_made self' = moves_made self
      ∧ mines self' = mines self ∧ safes self' = safes self
      ∧ (∃ new, knowledge self' = knowledge self ++ new
           ∧ ∀ k R, new !! k = Some R →
               (R ∉ knowledge self ++ take k new)
               ∧ ∃ A B, A ∈ knowledge self ++ take k new
                        ∧ B ∈ knowledge self ++ take k new
                        ∧ A ≠ B ∧ cells A ≠ ∅ ∧ cells B ≠ ∅ ∧ cells A ⊆ cells B
                        ∧ R = MinesweeperAI.reduced self A B)
      ∧ (∀ i j A B,
           knowledge self' !! i = Some A → knowledge self' !! j = Some B →
           (j < length (knowledge self) ∨ j ≤ i)%nat →
           A ≠ B → cells A ≠ ∅ → cells B ≠ ∅ → cells A ⊆ cells B →
           MinesweeperAI.reduced self A B ∈ knowledge self')
      ∧ (∀ board, truthful board self →
                  ∀ S, S ∈ knowledge self' → non_degenerate S).
Proof.
  split.
  - intros board Htrue.
    apply (infer_terminates board (mentioned (knowledge self))).
    by apply truthful_bounded.
  - intros fuel self' Hrun.
    destruct (infer_frame _ _ _ Hrun) as (Hh & Hw & Hmv & Hmi & Hsa & _).
    split_and!; try done.
    + intros fuel' Hle. by apply (outer_loop_fuel fuel fuel').
    + by apply outer_loop_steps, steps_appended in Hrun as [_ ?].
    + intros i j A B Hi Hj Hwhere.
      apply (outer_loop_complete fuel 0 self self' Hrun i j A B); [lia|done..].
    + intros board Htrue S HS. apply (sound_non_degenerate board).
      by apply (truthful_infer board fuel self self' Htrue Hrun).
Qed.

(** Scenario C of the specification: the agent is truthful, the inference
    ends and the sentence {(0,2)} = 0 is deduced. *)
Lemma inference_exact_witness :
  (∃ fuel self', MinesweeperAI.infer fuel scenario_c_mid = Some self')
  ∧ ∃ self', MinesweeperAI.infer 30 scenario_c_mid = Some self'
      ∧ moves_made self' = moves_made scenario_c_mid
      ∧ MinesweeperAI.reduced scenario_c_mid
          (Sentence {[(0, 0); (0, 1)]} 1) (Sentence {[(0, 0); (0, 1); (0, 2)]} 1)
        ∈ knowledge self'.
Proof.
  destruct (inference_exact scenario_c_mid) as [Hends Hexact].
  split; [apply (Hends _ truthful_scenario_c_mid)|].
  destruct (MinesweeperAI.infer 30 scenario_c_mid) as [self'|] eqn:Hrun;
    [|vm_compute in Hrun; discriminate].
  exists self'. split; [reflexivity|].
  destruct (Hexact 30%nat self' Hrun)
    as (_ & _ & _ & Hmv & _ & _ & (new & Hnew & _) & Hcomplete & _).
  split; [exact Hmv|].
  apply (Hcomplete 1%nat 2%nat).
  - rewrite Hnew. vm_compute. reflexivity.
  - rewrite Hnew. vm_compute. reflexivity.
  - left. by_compute.
  - by_compute.
  - by_compute.
  - by_compute.
  - by_compute.
Defined.
